(** * Hopcroft-Karp bipartite matching: graph builder and matching engine

    A shallow embedding of [src/hopkroft-karp.ts].

    - JavaScript numbers that the program uses as vertex indices and sizes are
      integers, modelled as [Z] (no bound on the length of an array is
      modelled); the sentinel [NIL] is [-1].
    - Arrays are lists.  An array read [a[i]] is [zget a i]: [None] stands
      for JavaScript's [undefined].
    - A computation either returns a value, throws, touches one of the
      engine's private arrays outside its bounds, or exhausts the fuel that
      bounds the [while] loops and the recursion of [dfs]. *)

From stdpp Require Import base option list list_numbers strings pretty gmap.

Open Scope Z_scope.

(** ** Outcomes *)

Inductive exn : Type :=
  | BipartiteGraphError (message : string)
  | TypeError
  | RangeError.

Inductive failure : Type :=
  | Thrown (e : exn)
  | OutOfBounds
  | FuelExhausted.

Inductive outcome (A : Type) : Type :=
  | Ok (a : A)
  | Err (f : failure).
Arguments Ok {A} a.
Arguments Err {A} f.

Definition obind {A B : Type} (m : outcome A) (k : A → outcome B) : outcome B :=
  match m with
  | Ok a => k a
  | Err f => Err f
  end.

Notation "x ←? m ; k" := (obind m (λ x, k))
  (at level 20, m at level 100, k at level 200, only parsing, right associativity).
Notation "' p ←? m ; k" := (obind m (λ x, match x with p => k end))
  (at level 20, p pattern, m at level 100, k at level 200, only parsing,
   right associativity).

Definition throw {A : Type} (e : exn) : outcome A := Err (Thrown e).

(** ** Arrays indexed by JavaScript numbers *)

(** [a[i]]: [None] when [i] is negative or past the end. *)
Definition zget {A : Type} (l : list A) (i : Z) : option A :=
  if decide (0 ≤ i) then l !! Z.to_nat i else None.

Definition zlen {A : Type} (l : list A) : Z := Z.of_nat (length l).

(** Accesses to the engine's private arrays.  Inside the array they are the
    JavaScript read and write.  Outside it JavaScript would read [undefined]
    or grow the array; the model stops with [OutOfBounds] instead, and
    [findMaximumMatching_returns] below shows that no engine built by the
    constructor ever gets there. *)
Definition read {A : Type} (l : list A) (i : Z) : outcome A :=
  match zget l i with
  | Some a => Ok a
  | None => Err OutOfBounds
  end.

Definition write {A : Type} (l : list A) (i : Z) (x : A) : outcome (list A) :=
  if decide (0 ≤ i < zlen l) then Ok (<[Z.to_nat i := x]> l) else Err OutOfBounds.

(** ** Data model *)

Record BipartiteGraph : Type := {
  leftSize : Z;
  rightSize : Z;
  edges : list (list Z)
}.

Record Matching : Type := {
  matchLeft : list Z;
  matchRight : list Z;
  size : Z
}.

Record BipartiteGraphOptions : Type := {
  validateInput : option bool;
  skipInvalidEdges : option bool
}.

(** ** Graph builder *)

Definition partition_size_message (param : string) (value : Z) : string :=
  param +:+ " must be non-negative, got " +:+ pretty value.

Definition invalid_edge_message (u v leftSize rightSize : Z) : string :=
  "Invalid edge [" +:+ pretty u +:+ ", " +:+ pretty v
  +:+ "]: indices must be within ranges [0, " +:+ pretty (leftSize - 1)
  +:+ "] and [0, " +:+ pretty (rightSize - 1) +:+ "]".

(** [u < 0 || u >= leftSize || v < 0 || v >= rightSize] *)
Definition edge_invalid (leftSize rightSize : Z) (e : Z * Z) : bool :=
  (e.1 <? 0) || (e.1 >=? leftSize) || (e.2 <? 0) || (e.2 >=? rightSize).

(** [adjacencyList[u].push(v)] *)
Definition push_edge (adjacencyList : list (list Z)) (u v : Z) : list (list Z) :=
  alter (λ row, row ++ [v]) (Z.to_nat u) adjacencyList.

(** The [for (const [u, v] of edges)] loop. *)
Fixpoint add_edges (validate skip : bool) (leftSize rightSize : Z)
    (es : list (Z * Z)) (adjacencyList : list (list Z)) : outcome (list (list Z)) :=
  match es with
  | [] => Ok adjacencyList
  | e :: es' =>
      if edge_invalid leftSize rightSize e then
        if validate && negb skip then
          throw (BipartiteGraphError (invalid_edge_message e.1 e.2 leftSize rightSize))
        else add_edges validate skip leftSize rightSize es' adjacencyList
      else
        add_edges validate skip leftSize rightSize es' (push_edge adjacencyList e.1 e.2)
  end.

(** The parameter [edges] of the source is [es] here; [options] left out by
    the caller is the record with both flags [None]. *)
Definition createBipartiteGraph (leftSize rightSize : Z) (es : list (Z * Z))
    (options : BipartiteGraphOptions) : outcome BipartiteGraph :=
  let validate := default true (validateInput options) in
  let skip := default true (skipInvalidEdges options) in
  if validate && (leftSize <? 0) then
    throw (BipartiteGraphError (partition_size_message "leftSize" leftSize))
  else if validate && (rightSize <? 0) then
    throw (BipartiteGraphError (partition_size_message "rightSize" rightSize))
  else
    adjacencyList ←? add_edges validate skip leftSize rightSize es
                       (replicate (Z.to_nat leftSize) []);
    Ok {| leftSize := leftSize; rightSize := rightSize; edges := adjacencyList |}.

(** ** Matching engine *)

Definition NIL : Z := -1.

(** The values held by [this.dist]: a layer number or [Infinity]. *)
Inductive Dist : Type :=
  | Fin (n : nat)
  | Infinity.

Global Instance Dist_eq_dec : EqDecision Dist.
Proof. solve_decision. Defined.

(** [d + 1] *)
Definition dist_succ (d : Dist) : Dist :=
  match d with
  | Fin n => Fin (S n)
  | Infinity => Infinity
  end.

(** [a === b] *)
Definition dist_eqb (a b : Dist) : bool := bool_decide (a = b).

(** [a < b] *)
Definition dist_ltb (a b : Dist) : bool :=
  match a, b with
  | Fin n, Fin m => bool_decide (n < m)%nat
  | Fin _, Infinity => true
  | Infinity, _ => false
  end.

Global Arguments dist_ltb : simpl never.
Global Arguments dist_eqb : simpl never.

(** The mutable fields of the class: [this.matchLeft], [this.matchRight],
    [this.dist]. *)
Record EngineState : Type := {
  this_matchLeft : list Z;
  this_matchRight : list Z;
  this_dist : list Dist
}.

(** An engine instance: the graph it refers to and its working arrays. *)
Record HopcroftKarp : Type := {
  graph : BipartiteGraph;
  state : EngineState
}.

Definition write_dist (st : EngineState) (i : Z) (d : Dist) : outcome EngineState :=
  ds ←? write (this_dist st) i d;
  Ok {| this_matchLeft := this_matchLeft st;
        this_matchRight := this_matchRight st;
        this_dist := ds |}.

Definition write_matchRight (st : EngineState) (v u : Z) : outcome EngineState :=
  mr ←? write (this_matchRight st) v u;
  Ok {| this_matchLeft := this_matchLeft st;
        this_matchRight := mr;
        this_dist := this_dist st |}.

Definition write_matchLeft (st : EngineState) (u v : Z) : outcome EngineState :=
  ml ←? write (this_matchLeft st) u v;
  Ok {| this_matchLeft := ml;
        this_matchRight := this_matchRight st;
        this_dist := this_dist st |}.

(** [new Array(n).fill(x)] *)
Definition new_Array {A : Type} (n : Z) (x : A) : outcome (list A) :=
  if decide (0 ≤ n) then Ok (replicate (Z.to_nat n) x) else throw RangeError.

(** [constructor(graph)] *)
Definition new_HopcroftKarp (g : BipartiteGraph) : outcome HopcroftKarp :=
  ml ←? new_Array (leftSize g) NIL;
  mr ←? new_Array (rightSize g) NIL;
  ds ←? new_Array (leftSize g + 1) (Fin 0);
  Ok {| graph := g;
        state := {| this_matchLeft := ml; this_matchRight := mr; this_dist := ds |} |}.

(** [v < 0 || v >= this.graph.rightSize] *)
Definition right_invalid (g : BipartiteGraph) (v : Z) : bool :=
  (v <? 0) || (v >=? rightSize g).

(** [matchedU === NIL ? this.graph.leftSize : matchedU] *)
Definition next_of (g : BipartiteGraph) (matchedU : Z) : Z :=
  if decide (matchedU = NIL) then leftSize g else matchedU.

(** *** Layering phase *)

(** The first loop of [bfs], over [u = 0 .. leftSize - 1]. *)
Fixpoint bfs_init (us : list Z) (st : EngineState) (queue : list Z)
    : outcome (EngineState * list Z) :=
  match us with
  | [] => Ok (st, queue)
  | u :: us' =>
      m ←? read (this_matchLeft st) u;
      if decide (m = NIL) then
        st' ←? write_dist st u (Fin 0);
        bfs_init us' st' (queue ++ [u])
      else
        st' ←? write_dist st u Infinity;
        bfs_init us' st' queue
  end.

(** The loop [for (const v of this.graph.edges[u])] of [bfs]. *)
Fixpoint bfs_row (g : BipartiteGraph) (u : Z) (row : list Z)
    (st : EngineState) (queue : list Z) : outcome (EngineState * list Z) :=
  match row with
  | [] => Ok (st, queue)
  | v :: row' =>
      if right_invalid g v then bfs_row g u row' st queue
      else
        matchedU ←? read (this_matchRight st) v;
        d ←? read (this_dist st) (next_of g matchedU);
        if dist_eqb d Infinity then
          du ←? read (this_dist st) u;
          st' ←? write_dist st (next_of g matchedU) (dist_succ du);
          if decide (matchedU ≠ NIL) then bfs_row g u row' st' (queue ++ [matchedU])
          else bfs_row g u row' st' queue
        else bfs_row g u row' st queue
  end.

(** The loop [while (queue.length > 0)].  [queue.shift() || 0] is the head of
    the queue: a head equal to [0] is replaced by [0]. *)
Fixpoint bfs_loop (g : BipartiteGraph) (fuel : nat) (st : EngineState)
    (queue : list Z) : outcome EngineState :=
  match fuel with
  | O => Err FuelExhausted
  | S fuel' =>
      match queue with
      | [] => Ok st
      | u :: queue' =>
          du ←? read (this_dist st) u;
          dsink ←? read (this_dist st) (leftSize g);
          if dist_ltb du dsink then
            match zget (edges g) u with
            | None => throw TypeError
            | Some row =>
                '(st', queue'') ←? bfs_row g u row st queue';
                bfs_loop g fuel' st' queue''
            end
          else bfs_loop g fuel' st queue'
      end
  end.

Definition bfs (g : BipartiteGraph) (fuel : nat) (st : EngineState)
    : outcome (bool * EngineState) :=
  '(st1, queue) ←? bfs_init (seqZ 0 (leftSize g)) st [];
  st2 ←? write_dist st1 (leftSize g) Infinity;
  st3 ←? bfs_loop g fuel st2 queue;
  dsink ←? read (this_dist st3) (leftSize g);
  Ok (negb (dist_eqb dsink Infinity), st3).

(** *** Augmentation phase *)

Section dfs_row.
Context (g : BipartiteGraph).
Context (dfs_rec : Z → EngineState → outcome (bool * EngineState)).

(** The loop [for (const v of this.graph.edges[u])] of [dfs], followed by
    [this.dist[u] = Infinity; return false]. *)
Fixpoint dfs_row (u : Z) (row : list Z) (st : EngineState)
    : outcome (bool * EngineState) :=
  match row with
  | [] =>
      st' ←? write_dist st u Infinity;
      Ok (false, st')
  | v :: row' =>
      if right_invalid g v then dfs_row u row' st
      else
        matchedU ←? read (this_matchRight st) v;
        dnext ←? read (this_dist st) (next_of g matchedU);
        du ←? read (this_dist st) u;
        if dist_eqb dnext (dist_succ du) then
          '(found, st1) ←? dfs_rec (next_of g matchedU) st;
          if found : bool then
            st2 ←? write_matchRight st1 v u;
            st3 ←? write_matchLeft st2 u v;
            Ok (true, st3)
          else dfs_row u row' st1
        else dfs_row u row' st
  end.
End dfs_row.

Fixpoint dfs (g : BipartiteGraph) (fuel : nat) (u : Z) (st : EngineState)
    : outcome (bool * EngineState) :=
  match fuel with
  | O => Err FuelExhausted
  | S fuel' =>
      if decide (u = leftSize g) then Ok (true, st)
      else
        match zget (edges g) u with
        | None => throw TypeError
        | Some row => dfs_row g (dfs g fuel') u row st
        end
  end.

(** *** Public methods *)

(** The loop [for (let u = 0; u < leftSize; u++)] of [findMaximumMatching]. *)
Fixpoint augment (g : BipartiteGraph) (fuel : nat) (us : list Z)
    (st : EngineState) (matchingSize : Z) : outcome (EngineState * Z) :=
  match us with
  | [] => Ok (st, matchingSize)
  | u :: us' =>
      m ←? read (this_matchLeft st) u;
      if decide (m = NIL) then
        '(found, st') ←? dfs g fuel u st;
        if found : bool then augment g fuel us' st' (matchingSize + 1)
        else augment g fuel us' st' matchingSize
      else augment g fuel us' st matchingSize
  end.

(** The loop [while (this.bfs())]: [rounds] bounds the number of its
    iterations, [fuel] the loops inside [bfs] and the depth of [dfs]. *)
Fixpoint phases (g : BipartiteGraph) (fuel rounds : nat) (st : EngineState)
    (matchingSize : Z) : outcome (EngineState * Z) :=
  match rounds with
  | O => Err FuelExhausted
  | S rounds' =>
      '(reachable, st1) ←? bfs g fuel st;
      if reachable : bool then
        '(st2, matchingSize') ←? augment g fuel (seqZ 0 (leftSize g)) st1 matchingSize;
        phases g fuel rounds' st2 matchingSize'
      else Ok (st1, matchingSize)
  end.

Definition findMaximumMatching (fuel : nat) (this : HopcroftKarp)
    : outcome (Matching * HopcroftKarp) :=
  '(st, matchingSize) ←? phases (graph this) fuel fuel (state this) 0;
  Ok ({| matchLeft := this_matchLeft st;
         matchRight := this_matchRight st;
         size := matchingSize |},
      {| graph := graph this; state := st |}).

(** [null] is [None]. *)
Definition findPerfectMatching (fuel : nat) (this : HopcroftKarp)
    : outcome (option Matching * HopcroftKarp) :=
  '(matching, this') ←? findMaximumMatching fuel this;
  if decide (size matching = leftSize (graph this)
             ∧ size matching = rightSize (graph this))
  then Ok (Some matching, this')
  else Ok (None, this').

(** ** Specification vocabulary: graph builder *)

(** Both indices of an edge lie in [[0, leftSize) x [0, rightSize)]. *)
Definition edge_in_range (leftSize rightSize : Z) (e : Z * Z) : Prop :=
  (0 ≤ e.1 < leftSize) ∧ (0 ≤ e.2 < rightSize).

Global Instance edge_in_range_dec l r e : Decision (edge_in_range l r e).
Proof. unfold edge_in_range. apply _. Defined.

(** The right endpoints, in input order, of the in-range input pairs that
    start at [u]. *)
Definition retained_row (leftSize rightSize : Z) (es : list (Z * Z)) (u : Z) : list Z :=
  (filter (λ e, e.1 = u ∧ edge_in_range leftSize rightSize e) es).*2.

Definition validating (o : BipartiteGraphOptions) : Prop :=
  default true (validateInput o) = true.

Definition skipping (o : BipartiteGraphOptions) : Prop :=
  default true (skipInvalidEdges o) = true.



(** ** Specification vocabulary: matching engine *)

Abbreviation mL st u := (zget (this_matchLeft st) u).
Abbreviation mR st v := (zget (this_matchRight st) v).
Abbreviation dst st x := (zget (this_dist st) x).

(** A graph of the data model: non-negative sizes and one adjacency row per
    left vertex.  The entries of the rows are not constrained. *)
Record well_formed (g : BipartiteGraph) : Prop := {
  wf_left : 0 ≤ leftSize g;
  wf_right : 0 ≤ rightSize g;
  wf_rows : zlen (edges g) = leftSize g
}.

(** The array lengths fixed by the constructor. *)
Record shape (g : BipartiteGraph) (st : EngineState) : Prop := {
  shape_ml : zlen (this_matchLeft st) = leftSize g;
  shape_mr : zlen (this_matchRight st) = rightSize g;
  shape_dist : zlen (this_dist st) = leftSize g + 1
}.

(** [matchLeft] and [matchRight] are inverse to each other on matched
    vertices. *)
Definition consistent (st : EngineState) : Prop :=
  (∀ u v, mL st u = Some v → v ≠ NIL → mR st v = Some u)
  ∧ (∀ v u, mR st v = Some u → u ≠ NIL → mL st u = Some v).

(** [v] is an in-range entry of the adjacency row of [u]. *)
Definition edge (g : BipartiteGraph) (u v : Z) : Prop :=
  ∃ row, zget (edges g) u = Some row ∧ v ∈ row ∧ 0 ≤ v < rightSize g.

Definition same_matching (st st' : EngineState) : Prop :=
  this_matchLeft st' = this_matchLeft st ∧ this_matchRight st' = this_matchRight st.

(** [reach g st u]: in the layered graph recorded in [dist], a path leads
    from [u] to the virtual sink, each step going one layer up through an
    edge and the current partner of its right endpoint. *)
Inductive reach (g : BipartiteGraph) (st : EngineState) : Z → Prop :=
  | reach_sink : reach g st (leftSize g)
  | reach_step u v matchedU k :
      edge g u v →
      mR st v = Some matchedU →
      dst st u = Some (Fin k) →
      dst st (next_of g matchedU) = Some (Fin (S k)) →
      reach g st (next_of g matchedU) →
      reach g st u.

(** The only change [dfs u] makes to [dist]: finite entries, of [u] or of
    deeper layers, become [Infinity]. *)
Definition dist_frame (u : Z) (k : nat) (st st' : EngineState) : Prop :=
  ∀ x, dst st' x = dst st x
       ∨ (dst st' x = Some Infinity
          ∧ ∃ j, dst st x = Some (Fin j) ∧ (x = u ∨ (k < j)%nat)).

(** Vertices whose layer was erased had no layered path to the sink. *)
Definition prune_sound (g : BipartiteGraph) (st st' : EngineState) : Prop :=
  ∀ x, dst st' x ≠ dst st x → ¬ reach g st x.

(** The partner of [v] is free or lies in a layer deeper than [k]. *)
Definition below (k : nat) (st : EngineState) (v : Z) : Prop :=
  mR st v = Some NIL
  ∨ ∃ y j, mR st v = Some y ∧ y ≠ NIL ∧ dst st y = Some (Fin j) ∧ (k < j)%nat.

(** The matching after a successful [dfs u] started in layer [k]. *)
Record augmented (g : BipartiteGraph) (u : Z) (k : nat)
    (st st' : EngineState) : Prop := {
  aug_root : ∃ v, mL st' u = Some v ∧ v ≠ NIL ∧ mR st' v = Some u
                  ∧ edge g u v ∧ below k st v;
  aug_left : ∀ y, y ≠ u →
      mL st' y = mL st y
      ∨ ∃ j w w', dst st y = Some (Fin j) ∧ (k < j)%nat
                  ∧ mL st y = Some w ∧ w ≠ NIL
                  ∧ mL st' y = Some w' ∧ w' ≠ NIL ∧ edge g y w';
  aug_right : ∀ w,
      mR st' w = mR st w
      ∨ ∃ y, mR st' w = Some y ∧ y ≠ NIL ∧ below k st w;
  aug_left_right : ∀ y w, mL st' y = Some w → w ≠ NIL → mR st' w = Some y;
  aug_right_left : ∀ w y, mR st' w = Some y → y ≠ NIL →
      mL st' y = Some w ∨ (y = u ∧ mL st u = Some w)
}.

(** What [dfs u] guarantees when it returns [b] from a state where [u] lies
    in layer [k]. *)
Definition dfs_post (g : BipartiteGraph) (u : Z) (k : nat)
    (st : EngineState) (b : bool) (st' : EngineState) : Prop :=
  shape g st' ∧ dist_frame u k st st'
  ∧ if b then augmented g u k st st'
    else same_matching st st' ∧ prune_sound g st st' ∧ ¬ reach g st u.

(** A right neighbour through which [dfs] would succeed from layer [k]. *)
Definition good (g : BipartiteGraph) (k : nat) (st : EngineState) (v : Z) : Prop :=
  0 ≤ v < rightSize g
  ∧ ∃ matchedU, mR st v = Some matchedU
      ∧ dst st (next_of g matchedU) = Some (Fin (S k))
      ∧ reach g st (next_of g matchedU).

(** [u] is an unmatched left vertex. *)
Definition free (g : BipartiteGraph) (st : EngineState) (u : Z) : Prop :=
  0 ≤ u < leftSize g ∧ mL st u = Some NIL.

(** Number of [Infinity] entries of [dist]. *)
Definition count_inf (ds : list Dist) : nat :=
  length (filter (λ d, d = Infinity) ds).

(** [x] was given layer [j + 1] from a vertex of layer [j]. *)
Definition has_pred (g : BipartiteGraph) (st : EngineState) (x : Z) (j : nat) : Prop :=
  ∃ u v matchedU, edge g u v ∧ mR st v = Some matchedU
                  ∧ next_of g matchedU = x ∧ dst st u = Some (Fin j).

(** The layering built by [bfs]: layer 0 holds free left vertices only,
    every deeper layer is entered from the one before, and the layers are
    bounded by the number of entries not yet set. *)
Record layered (g : BipartiteGraph) (st : EngineState) : Prop := {
  lay_zero : ∀ x, dst st x = Some (Fin 0) → free g st x;
  lay_pred : ∀ x j, dst st x = Some (Fin (S j)) → has_pred g st x j;
  lay_bound : ∀ x j, dst st x = Some (Fin j) →
      (j + count_inf (this_dist st) ≤ length (this_dist st))%nat
}.

(** Every in-range neighbour of [u] has a partner (or the sink) with a
    layer. *)
Definition closed (g : BipartiteGraph) (st : EngineState) (u : Z) : Prop :=
  ∀ v, edge g u v →
       ∃ matchedU j, mR st v = Some matchedU
                     ∧ dst st (next_of g matchedU) = Some (Fin j).

(** Every layered left vertex waits in the queue, or has been expanded, or
    was passed over because the sink already had a layer. *)
Definition explored (g : BipartiteGraph) (st : EngineState) (queue : list Z) : Prop :=
  ∀ u j, 0 ≤ u < leftSize g → dst st u = Some (Fin j) →
         u ∈ queue ∨ closed g st u ∨ ∃ j', dst st (leftSize g) = Some (Fin j').

Definition queue_ok (g : BipartiteGraph) (st : EngineState) (queue : list Z) : Prop :=
  ∀ u, u ∈ queue → 0 ≤ u < leftSize g ∧ ∃ j, dst st u = Some (Fin j).

(** Layers, once given, do not change during [bfs]. *)
Definition mono (st st' : EngineState) : Prop :=
  ∀ x j, dst st x = Some (Fin j) → dst st' x = Some (Fin j).

(** The invariant of the loops of [bfs]. *)
Record bfs_inv (g : BipartiteGraph) (st : EngineState) (pending : list Z) : Prop := {
  bi_shape : shape g st;
  bi_consistent : consistent st;
  bi_layered : layered g st;
  bi_explored : explored g st pending
}.

(** Layers stay below the length of [dist]. *)
Definition bounded (st : EngineState) : Prop :=
  ∀ x j, dst st x = Some (Fin j) → (j ≤ length (this_dist st))%nat.

(** Number of non-sentinel entries of a match array. *)
Definition matched_count (l : list Z) : Z :=
  Z.of_nat (length (filter (λ v, v ≠ NIL) l)).

(** [dist] changed only by erasing layers. *)
Definition erased (st st' : EngineState) : Prop :=
  ∀ x j, dst st' x = Some (Fin j) → dst st x = Some (Fin j).

(** Every new pair of [st'] is an edge of the graph. *)
Definition grown (g : BipartiteGraph) (st st' : EngineState) : Prop :=
  ∀ u v, mL st' u = Some v → v ≠ NIL → mL st u = Some v ∨ edge g u v.

(** The state in which [findMaximumMatching] stops: the last layering gave
    the sink no layer, every free left vertex has one, and the layered left
    vertices are closed under "neighbour, then its partner". *)
Record stable (g : BipartiteGraph) (st : EngineState) : Prop := {
  stable_sink : dst st (leftSize g) = Some Infinity;
  stable_free : ∀ u, free g st u → ∃ j, dst st u = Some (Fin j);
  stable_closed : ∀ u j, 0 ≤ u < leftSize g → dst st u = Some (Fin j) → closed g st u
}.

(** Fuel that is always enough for a graph. *)
Definition enough_fuel (g : BipartiteGraph) : nat := Z.to_nat (2 * leftSize g + 3).

(** ** Specification vocabulary: matchings of a graph *)

(** A returned [Matching] is a matching of [g]: the arrays have the sizes of
    the partitions, they are inverse to each other on matched vertices, and
    every matched pair is an edge. *)
Record valid_matching (g : BipartiteGraph) (M : Matching) : Prop := {
  vm_left_len : zlen (matchLeft M) = leftSize g;
  vm_right_len : zlen (matchRight M) = rightSize g;
  vm_left : ∀ u v, zget (matchLeft M) u = Some v → v ≠ NIL →
                   zget (matchRight M) v = Some u ∧ edge g u v;
  vm_right : ∀ v u, zget (matchRight M) v = Some u → u ≠ NIL →
                    zget (matchLeft M) u = Some v
}.

(** A matching of [g] given as a list of pairs: edges of the graph, no two
    of which share a left or a right vertex. *)
Record is_matching (g : BipartiteGraph) (pairs : list (Z * Z)) : Prop := {
  im_edges : ∀ u v, (u, v) ∈ pairs → edge g u v;
  im_left : NoDup pairs.*1;
  im_right : NoDup pairs.*2
}.

(** Left vertices reached from a free left vertex by a walk that leaves a
    left vertex through an edge and a right vertex through its matched
    pair.  Every alternating path is such a walk. *)
Inductive alternating (g : BipartiteGraph) (M : Matching) : Z → Prop :=
  | alt_free u :
      0 ≤ u < leftSize g → zget (matchLeft M) u = Some NIL → alternating g M u
  | alt_step u v u' :
      alternating g M u → edge g u v →
      zget (matchRight M) v = Some u' → u' ≠ NIL →
      alternating g M u'.

(** An augmenting path: an alternating walk that ends in a free right
    vertex. *)
Definition augmenting_path (g : BipartiteGraph) (M : Matching) : Prop :=
  ∃ u v, alternating g M u ∧ edge g u v ∧ zget (matchRight M) v = Some NIL.

(** The caller replaces the adjacency rows of the graph the engine refers
    to; the partition sizes stay. *)
Definition mutate (this : HopcroftKarp) (rows : list (list Z)) : HopcroftKarp :=
  {| graph := {| leftSize := leftSize (graph this);
                 rightSize := rightSize (graph this);
                 edges := rows |};
     state := state this |}.

(** The engines over [g] that calls of the public methods produce when the
    graph is left alone. *)
Inductive after_calls (g : BipartiteGraph) : HopcroftKarp → Prop :=
  | after_new this :
      new_HopcroftKarp g = Ok this → after_calls g this
  | after_maximum fuel this M this' :
      after_calls g this → findMaximumMatching fuel this = Ok (M, this') →
      after_calls g this'
  | after_perfect fuel this r this' :
      after_calls g this → findPerfectMatching fuel this = Ok (r, this') →
      after_calls g this'.

(** The engines that calls of the public methods produce when the caller may
    also rewrite the adjacency rows between calls. *)
Inductive reachable : HopcroftKarp → Prop :=
  | reachable_new g this :
      well_formed g → new_HopcroftKarp g = Ok this → reachable this
  | reachable_maximum fuel this M this' :
      reachable this → findMaximumMatching fuel this = Ok (M, this') →
      reachable this'
  | reachable_perfect fuel this r this' :
      reachable this → findPerfectMatching fuel this = Ok (r, this') →
      reachable this'
  | reachable_mutate this rows :
      reachable this → zlen rows = leftSize (graph this) →
      reachable (mutate this rows).


(** What every engine keeps: a graph of the data model, the array lengths
    of the constructor and a consistent matching. *)
Record engine_ok (this : HopcroftKarp) : Prop := {
  ok_graph : well_formed (graph this);
  ok_shape : shape (graph this) (state this);
  ok_consistent : consistent (state this)
}.

(** Every matched pair of the engine is an edge of [g]. *)
Definition in_graph (g : BipartiteGraph) (st : EngineState) : Prop :=
  ∀ u v, mL st u = Some v → v ≠ NIL → edge g u v.

(** The indices of the non-sentinel entries of a match array. *)
Definition matched_positions (l : list Z) : list Z :=
  filter (λ u, zget l u ≠ Some NIL) (seqZ 0 (zlen l)).

(** The matched left vertex charged for a pair [(u, v)] of another matching:
    the partner of [v] when [u] has a layer, and [u] itself otherwise. *)
Definition charge (st : EngineState) (p : Z * Z) : Z :=
  match dst st p.1 with
  | Some (Fin _) => default NIL (mR st p.2)
  | _ => p.1
  end.

(** The matched pairs of a [Matching], by increasing left vertex. *)
Definition pairs_of (M : Matching) : list (Z * Z) :=
  (λ u, (u, default NIL (zget (matchLeft M) u))) <$> matched_positions (matchLeft M).


(** ** The engine and the matchings it returns as objects in a store

    [this.matchLeft] and [this.matchRight] are arrays that the methods
    update in place; [[...this.matchLeft]] allocates a new array.  The store
    maps the address of an array to its contents.  [this.dist] never leaves
    the engine, so the engine object holds it by value. *)
Module Heap.

Record Engine : Type := {
  eng_graph : BipartiteGraph;
  eng_matchLeft : positive;
  eng_matchRight : positive;
  eng_dist : list Dist
}.

(** The object returned to the caller: two array addresses and a number. *)
Record Snapshot : Type := {
  snap_matchLeft : positive;
  snap_matchRight : positive;
  snap_size : Z
}.

Definition deref (h : gmap positive (list Z)) (l : positive) : outcome (list Z) :=
  match h !! l with
  | Some a => Ok a
  | None => Err OutOfBounds
  end.

(** A new array holding [a]. *)
Definition alloc (h : gmap positive (list Z)) (a : list Z)
    : positive * gmap positive (list Z) :=
  let l := fresh (dom h) in (l, <[l := a]> h).

(** The engine's arrays, read from the store. *)
Definition load (h : gmap positive (list Z)) (e : Engine) : outcome HopcroftKarp :=
  ml ←? deref h (eng_matchLeft e);
  mr ←? deref h (eng_matchRight e);
  Ok {| graph := eng_graph e;
        state := {| this_matchLeft := ml; this_matchRight := mr;
                    this_dist := eng_dist e |} |}.

(** [constructor(graph)]: the two match arrays are allocated. *)
Definition new_HopcroftKarp (g : BipartiteGraph) (h : gmap positive (list Z))
    : outcome (Engine * gmap positive (list Z)) :=
  this ←? new_HopcroftKarp g;
  let '(l1, h1) := alloc h (this_matchLeft (state this)) in
  let '(l2, h2) := alloc h1 (this_matchRight (state this)) in
  Ok ({| eng_graph := g; eng_matchLeft := l1; eng_matchRight := l2;
         eng_dist := this_dist (state this) |}, h2).

(** [findMaximumMatching()]: the phases run on the engine's own arrays,
    then the two spreads allocate the arrays of the result. *)
Definition findMaximumMatching (fuel : nat) (e : Engine)
    (h : gmap positive (list Z))
    : outcome (Snapshot * Engine * gmap positive (list Z)) :=
  this ←? load h e;
  '(M, this') ←? findMaximumMatching fuel this;
  let h1 := <[eng_matchLeft e := this_matchLeft (state this')]> h in
  let h2 := <[eng_matchRight e := this_matchRight (state this')]> h1 in
  let '(l1, h3) := alloc h2 (matchLeft M) in
  let '(l2, h4) := alloc h3 (matchRight M) in
  Ok ({| snap_matchLeft := l1; snap_matchRight := l2; snap_size := size M |},
      {| eng_graph := graph this'; eng_matchLeft := eng_matchLeft e;
         eng_matchRight := eng_matchRight e;
         eng_dist := this_dist (state this') |},
      h4).

End Heap.


(** ** Example inputs *)

(** The graph of the README: a 6-cycle on 3 + 3 vertices. *)
Definition example_graph : BipartiteGraph :=
  {| leftSize := 3; rightSize := 3; edges := [[0; 1]; [1; 2]; [0; 2]] |}.

(** Three left vertices competing for one right vertex. *)
Definition star_graph : BipartiteGraph :=
  {| leftSize := 3; rightSize := 3; edges := [[0]; [0]; [0]] |}.

(** Rows as a caller may leave them: with entries outside [[0, 3)]. *)
Definition stale_rows : list (list Z) := [[7; 1; -2]; [1; 3]; [-1; 0; 2]].

Definition empty_store : gmap positive (list Z) := ∅.

(** The engines the constructor builds over them. *)
Definition example_engine : HopcroftKarp :=
  {| graph := example_graph;
     state := {| this_matchLeft := [NIL; NIL; NIL];
                 this_matchRight := [NIL; NIL; NIL];
                 this_dist := [Fin 0; Fin 0; Fin 0; Fin 0] |} |}.

Definition star_engine : HopcroftKarp :=
  {| graph := star_graph;
     state := {| this_matchLeft := [NIL; NIL; NIL];
                 this_matchRight := [NIL; NIL; NIL];
                 this_dist := [Fin 0; Fin 0; Fin 0; Fin 0] |} |}.

(** What the first call returns on them, and the engines it leaves. *)
Definition example_matching : Matching :=
  {| matchLeft := [0; 1; 2]; matchRight := [0; 1; 2]; size := 3 |}.

Definition example_engine_after : HopcroftKarp :=
  {| graph := example_graph;
     state := {| this_matchLeft := [0; 1; 2];
                 this_matchRight := [0; 1; 2];
                 this_dist := [Infinity; Infinity; Infinity; Infinity] |} |}.

Definition star_matching : Matching :=
  {| matchLeft := [0; NIL; NIL]; matchRight := [0; NIL; NIL]; size := 1 |}.

Definition star_engine_after : HopcroftKarp :=
  {| graph := star_graph;
     state := {| this_matchLeft := [0; NIL; NIL];
                 this_matchRight := [0; NIL; NIL];
                 this_dist := [Fin 1; Fin 0; Fin 0; Infinity] |} |}.

(** The same engine and result as objects in a store. *)
Definition star_store : gmap positive (list Z) :=
  <[2%positive := [NIL; NIL; NIL]]> (<[1%positive := [NIL; NIL; NIL]]> ∅).

Definition star_object : Heap.Engine :=
  {| Heap.eng_graph := star_graph;
     Heap.eng_matchLeft := 1;
     Heap.eng_matchRight := 2;
     Heap.eng_dist := [Fin 0; Fin 0; Fin 0; Fin 0] |}.

Definition star_snapshot : Heap.Snapshot :=
  {| Heap.snap_matchLeft := 3; Heap.snap_matchRight := 4; Heap.snap_size := 1 |}.

Definition star_object_after : Heap.Engine :=
  {| Heap.eng_graph := star_graph;
     Heap.eng_matchLeft := 1;
     Heap.eng_matchRight := 2;
     Heap.eng_dist := [Fin 1; Fin 0; Fin 0; Infinity] |}.

Definition star_store_after : gmap positive (list Z) :=
  <[4%positive := [0; NIL; NIL]]>
    (<[3%positive := [0; NIL; NIL]]>
       (<[2%positive := [0; NIL; NIL]]> (<[1%positive := [0; NIL; NIL]]> ∅))).


(** ** Specification vocabulary: calls seen from outside *)

(** No vertex matched in [st] is unmatched in [st']. *)
Definition kept (st st' : EngineState) : Prop :=
  (∀ u v, mL st u = Some v → v ≠ NIL → ∃ v', mL st' u = Some v' ∧ v' ≠ NIL)
  ∧ (∀ v u, mR st v = Some u → u ≠ NIL → ∃ u', mR st' v = Some u' ∧ u' ≠ NIL).

(** The matching an engine holds, as the [Matching] a call would copy out
    if it made no further change. *)
Definition held (st : EngineState) : Matching :=
  {| matchLeft := this_matchLeft st;
     matchRight := this_matchRight st;
     size := matched_count (this_matchLeft st) |}.

(** A perfect matching of [g]: a matching with as many pairs as either side
    has vertices. *)
Definition perfect (g : BipartiteGraph) (pairs : list (Z * Z)) : Prop :=
  is_matching g pairs
  ∧ Z.of_nat (length pairs) = leftSize g
  ∧ Z.of_nat (length pairs) = rightSize g.

(** ** More example inputs *)

(** The engine over [example_graph] after the first layering: every left
    vertex is free, in layer 0, and the sink is in layer 1. *)
Definition example_layered : EngineState :=
  {| this_matchLeft := [NIL; NIL; NIL];
     this_matchRight := [NIL; NIL; NIL];
     this_dist := [Fin 0; Fin 0; Fin 0; Fin 1] |}.

(** The first augmentation on it: left vertex 0 takes right vertex 0. *)
Definition example_augmented : EngineState :=
  {| this_matchLeft := [0; NIL; NIL];
     this_matchRight := [0; NIL; NIL];
     this_dist := [Fin 0; Fin 0; Fin 0; Fin 1] |}.

(** A graph with an isolated left vertex, the engine over it, what the first
    call returns and the engine it leaves. *)
Definition sparse_graph : BipartiteGraph :=
  {| leftSize := 3; rightSize := 3; edges := [[0]; [1]; []] |}.

Definition sparse_engine : HopcroftKarp :=
  {| graph := sparse_graph;
     state := {| this_matchLeft := [NIL; NIL; NIL];
                 this_matchRight := [NIL; NIL; NIL];
                 this_dist := [Fin 0; Fin 0; Fin 0; Fin 0] |} |}.

Definition sparse_matching : Matching :=
  {| matchLeft := [0; 1; NIL]; matchRight := [0; 1; NIL]; size := 2 |}.

Definition sparse_engine_after : HopcroftKarp :=
  {| graph := sparse_graph;
     state := {| this_matchLeft := [0; 1; NIL];
                 this_matchRight := [0; 1; NIL];
                 this_dist := [Infinity; Infinity; Fin 0; Infinity] |} |}.

(** The caller then adds the edge [(2, 2)] ([graph.edges[2].push(2)]) and
    calls again. *)
Definition grown_rows : list (list Z) := [[0]; [1]; [2]].

Definition grown_matching : Matching :=
  {| matchLeft := [0; 1; 2]; matchRight := [0; 1; 2]; size := 1 |}.

Definition grown_engine_after : HopcroftKarp :=
  {| graph := {| leftSize := 3; rightSize := 3; edges := grown_rows |};
     state := {| this_matchLeft := [0; 1; 2];
                 this_matchRight := [0; 1; 2];
                 this_dist := [Infinity; Infinity; Infinity; Infinity] |} |}.


(** A second engine over [star_graph], constructed in the store that holds
    [star_object], and the store after a call on the first engine. *)
Definition second_object : Heap.Engine :=
  {| Heap.eng_graph := star_graph;
     Heap.eng_matchLeft := 3;
     Heap.eng_matchRight := 4;
     Heap.eng_dist := [Fin 0; Fin 0; Fin 0; Fin 0] |}.

Definition two_engine_store : gmap positive (list Z) :=
  <[4%positive := [NIL; NIL; NIL]]> (<[3%positive := [NIL; NIL; NIL]]> star_store).

Definition two_engine_snapshot : Heap.Snapshot :=
  {| Heap.snap_matchLeft := 5; Heap.snap_matchRight := 6; Heap.snap_size := 1 |}.

Definition two_engine_store_after : gmap positive (list Z) :=
  <[6%positive := [0; NIL; NIL]]>
    (<[5%positive := [0; NIL; NIL]]>
       (<[2%positive := [0; NIL; NIL]]>
          (<[1%positive := [0; NIL; NIL]]> two_engine_store))).

(** ** Graphs written back as input pairs *)

(** The pairs [(u, v)] for the entries [v] of row [u], row after row. *)
Definition pairs_of_rows (rows : list (list Z)) : list (Z * Z) :=
  concat (imap (λ i row, (λ v, (Z.of_nat i, v)) <$> row) rows).

Definition edge_list (g : BipartiteGraph) : list (Z * Z) := pairs_of_rows (edges g).

(** The engine of [example_graph] after its first call, once the caller has
    replaced the rows by [stale_rows]: the pair [(0, 0)] it holds is no
    longer an edge.  The next call returns the same arrays. *)
Definition stale_engine : HopcroftKarp := mutate example_engine_after stale_rows.

Definition stale_matching : Matching :=
  {| matchLeft := [0; 1; 2]; matchRight := [0; 1; 2]; size := 0 |}.


(** * Properties of the graph builder *)

Lemma edge_invalid_false l r e : edge_invalid l r e = false ↔ edge_in_range l r e.
Proof.
  unfold edge_invalid, edge_in_range.
  rewrite !orb_false_iff, !Z.ltb_ge, !Z.geb_leb, !Z.leb_gt. lia.
Qed.

Lemma edge_invalid_true l r e : edge_invalid l r e = true ↔ ¬ edge_in_range l r e.
Proof.
  rewrite <- edge_invalid_false. destruct (edge_invalid l r e); split; congruence.
Qed.

Lemma obind_Ok {A B} (m : outcome A) (k : A → outcome B) b :
  obind m k = Ok b ↔ ∃ a, m = Ok a ∧ k a = Ok b.
Proof.
  destruct m as [a|f]; simpl; split.
  - eauto.
  - intros (a' & [= <-] & ?); done.
  - done.
  - intros (? & ? & ?); done.
Qed.

(** What the edge loop returns: either the adjacency list with every
    in-range pair pushed, or the error for the first out-of-range pair. *)
Lemma add_edges_outcome validate skip l r es adj :
  (∃ adj', add_edges validate skip l r es adj = Ok adj'
           ∧ (validate && negb skip = true → Forall (edge_in_range l r) es))
  ∨ (validate && negb skip = true
     ∧ ∃ e, e ∈ es ∧ ¬ edge_in_range l r e
          ∧ add_edges validate skip l r es adj
            = throw (BipartiteGraphError (invalid_edge_message e.1 e.2 l r))).
Proof.
  revert adj. induction es as [|e es IH]; intros adj; simpl.
  - left. eexists; split; [done|]. by constructor.
  - destruct (edge_invalid l r e) eqn:He.
    + destruct (validate && negb skip) eqn:Hvs.
      * right. split; [done|]. exists e. split; [left|].
        by rewrite <- edge_invalid_true.
      * destruct (IH adj) as [(adj' & -> & _)|[? _]]; [|done].
        left. eexists; split; [done|]. done.
    + apply edge_invalid_false in He.
      destruct (IH (push_edge adj e.1 e.2)) as [(adj' & -> & HF)|(Hvs & e' & ? & ? & ->)].
      * left. eexists; split; [done|]. intros ?. constructor; auto.
      * right. split; [done|]. exists e'. split; [by right|done].
Qed.

Lemma lookup_push_edge adj u v (i : nat) :
  0 ≤ u →
  push_edge adj u v !! i
  = (λ row, if decide (u = Z.of_nat i) then row ++ [v] else row) <$> adj !! i.
Proof.
  intros Hu. unfold push_edge. rewrite list_lookup_alter.
  destruct (decide (Z.to_nat u = i)) as [<-|Hne];
    destruct (decide (u = Z.of_nat _)); try lia; by destruct (adj !! _).
Qed.

(** The rows built by the edge loop. *)
Lemma add_edges_rows validate skip l r es adj adj' (i : nat) :
  add_edges validate skip l r es adj = Ok adj' →
  adj' !! i = (λ row, row ++ retained_row l r es (Z.of_nat i)) <$> adj !! i.
Proof.
  revert adj. induction es as [|e es IH]; intros adj; simpl.
  - intros [= <-]. unfold retained_row. simpl.
    destruct (adj !! i); simpl; [|done]. by rewrite app_nil_r.
  - unfold retained_row. rewrite filter_cons.
    destruct (edge_invalid l r e) eqn:He.
    + apply edge_invalid_true in He.
      rewrite decide_False by tauto.
      destruct (validate && negb skip); [done|]. apply IH.
    + apply edge_invalid_false in He. intros Hadd.
      rewrite (IH _ Hadd), lookup_push_edge by (destruct He; lia).
      destruct (adj !! i) as [row|]; simpl; [|done]. f_equal.
      destruct (decide (e.1 = Z.of_nat i)) as [Heq|Hne].
      * rewrite decide_True by done. simpl. by rewrite <- app_assoc.
      * rewrite decide_False by tauto. done.
Qed.

Lemma add_edges_length validate skip l r es adj adj' :
  add_edges validate skip l r es adj = Ok adj' → length adj' = length adj.
Proof.
  revert adj. induction es as [|e es IH]; intros adj; simpl.
  - by intros [= <-].
  - destruct (edge_invalid l r e).
    + destruct (validate && negb skip); [done|]. apply IH.
    + intros H. rewrite (IH _ H). unfold push_edge. apply length_alter.
Qed.

Lemma retained_row_in_range l r es u v :
  v ∈ retained_row l r es u → 0 ≤ v < r.
Proof.
  unfold retained_row. rewrite list_elem_of_fmap.
  intros (e & -> & He). apply list_elem_of_filter in He as [[_ [_ ?]] _]. done.
Qed.

Lemma zget_Some {A} (l : list A) i x :
  zget l i = Some x ↔ 0 ≤ i ∧ l !! Z.to_nat i = Some x.
Proof. unfold zget. destruct (decide (0 ≤ i)); [tauto|]. split; [done|tauto]. Qed.

Lemma zget_lt {A} (l : list A) i x : zget l i = Some x → 0 ≤ i < zlen l.
Proof.
  rewrite zget_Some. intros [? H]. apply lookup_lt_Some in H. unfold zlen. lia.
Qed.

Lemma zget_is_Some {A} (l : list A) i : 0 ≤ i < zlen l → is_Some (zget l i).
Proof.
  unfold zlen, zget. intros ?. rewrite decide_True by lia.
  apply lookup_lt_is_Some. lia.
Qed.

(** C6. Whenever the builder returns a graph, whatever the options, the sizes
    are the ones passed in, there is one row per left vertex, row [u] holds
    exactly the right endpoints of the in-range input pairs starting at [u],
    in input order and with duplicates kept, and so every entry of every row
    lies in [[0, rightSize)]. *)
Theorem createBipartiteGraph_adjacency l r es o g :
  createBipartiteGraph l r es o = Ok g →
  leftSize g = l ∧ rightSize g = r ∧ length (edges g) = Z.to_nat l
  ∧ (∀ u, 0 ≤ u < l → zget (edges g) u = Some (retained_row l r es u))
  ∧ (∀ u row v, zget (edges g) u = Some row → v ∈ row → 0 ≤ v < r).
Proof.
  unfold createBipartiteGraph.
  destruct (default true (validateInput o) && (l <? 0)); [done|].
  destruct (default true (validateInput o) && (r <? 0)); [done|].
  intros (adj & Hadd & [= <-])%obind_Ok. simpl.
  pose proof (add_edges_length _ _ _ _ _ _ _ Hadd) as Hlen.
  rewrite length_replicate in Hlen.
  assert (Hrow : ∀ u, 0 ≤ u < l → zget adj u = Some (retained_row l r es u)).
  { intros u Hu. apply zget_Some. split; [lia|].
    rewrite (add_edges_rows _ _ _ _ _ _ _ _ Hadd).
    rewrite lookup_replicate_2 by lia. simpl. by rewrite Z2Nat.id by lia. }
  split_and!; try done.
  intros u row v Hget Hv.
  assert (0 ≤ u < l) as Hu.
  { apply zget_lt in Hget. unfold zlen in Hget. lia. }
  rewrite (Hrow u Hu) in Hget. injection Hget as <-.
  by eapply retained_row_in_range.
Qed.

Lemma createBipartiteGraph_adjacency_witness :
  ∃ g, createBipartiteGraph 2 2 [(0, 0); (5, 1); (0, 0); (0, 1); (1, -1); (1, 1)]
         {| validateInput := None; skipInvalidEdges := None |} = Ok g
       ∧ zget (edges g) 0 = Some [0; 0; 1] ∧ zget (edges g) 1 = Some [1].
Proof.
  eexists. split; [reflexivity|].
  pose proof (createBipartiteGraph_adjacency 2 2
                [(0, 0); (5, 1); (0, 0); (0, 1); (1, -1); (1, 1)]
                {| validateInput := None; skipInvalidEdges := None |} _ eq_refl)
    as (_ & _ & _ & Hrow & _).
  split; [apply (Hrow 0)|apply (Hrow 1)]; lia.
Defined.






(** * Array accesses *)

Lemma read_Ok {A} (l : list A) i a : read l i = Ok a ↔ zget l i = Some a.
Proof. unfold read. destruct (zget l i); split; congruence. Qed.

Lemma write_Ok {A} (l l' : list A) i x :
  write l i x = Ok l' ↔ 0 ≤ i < zlen l ∧ l' = <[Z.to_nat i := x]> l.
Proof.
  unfold write. destruct (decide (0 ≤ i < zlen l)); split.
  - intros [= <-]. done.
  - intros [_ ->]. done.
  - done.
  - intros [? _]. done.
Qed.

Lemma zlen_insert {A} (l : list A) (n : nat) x : zlen (<[n := x]> l) = zlen l.
Proof. unfold zlen. by rewrite length_insert. Qed.

Lemma zget_insert {A} (l : list A) i j x :
  0 ≤ i < zlen l →
  zget (<[Z.to_nat i := x]> l) j = if decide (j = i) then Some x else zget l j.
Proof.
  unfold zlen, zget. intros Hi.
  destruct (decide (j = i)) as [->|Hne].
  - rewrite decide_True by lia. apply list_lookup_insert_eq. lia.
  - destruct (decide (0 ≤ j)); [|done].
    apply list_lookup_insert_ne. lia.
Qed.

Lemma zget_None {A} (l : list A) i : zget l i = None ↔ ¬ (0 ≤ i < zlen l).
Proof.
  split.
  - intros Hn Hi. destruct (zget_is_Some l i Hi) as [x Hx]. congruence.
  - intros Hi. destruct (zget l i) eqn:E; [|done].
    apply zget_lt in E. done.
Qed.

Lemma zget_replicate {A} (n : Z) (x y : A) i :
  zget (replicate (Z.to_nat n) x) i = Some y ↔ y = x ∧ 0 ≤ i < n.
Proof.
  rewrite zget_Some, lookup_replicate. split.
  - intros (? & ? & ?). split; [done|lia].
  - intros (? & ?). split; [lia|split; [done|lia]].
Qed.

Lemma zget_ext {A} (l l' : list A) :
  (∀ i, zget l i = zget l' i) → l = l'.
Proof.
  intros H. apply list_eq. intros n.
  specialize (H (Z.of_nat n)). unfold zget in H.
  rewrite !decide_True, Nat2Z.id in H by lia. done.
Qed.

(** Writes to the three arrays. *)
Lemma write_dist_Ok st i d st' :
  write_dist st i d = Ok st' ↔
  0 ≤ i < zlen (this_dist st)
  ∧ st' = {| this_matchLeft := this_matchLeft st;
             this_matchRight := this_matchRight st;
             this_dist := <[Z.to_nat i := d]> (this_dist st) |}.
Proof.
  unfold write_dist. rewrite obind_Ok. split.
  - intros (ds & [? ->]%write_Ok & [= <-]). done.
  - intros [? ->]. eexists. split; [by apply write_Ok|done].
Qed.

Lemma write_matchRight_Ok st v u st' :
  write_matchRight st v u = Ok st' ↔
  0 ≤ v < zlen (this_matchRight st)
  ∧ st' = {| this_matchLeft := this_matchLeft st;
             this_matchRight := <[Z.to_nat v := u]> (this_matchRight st);
             this_dist := this_dist st |}.
Proof.
  unfold write_matchRight. rewrite obind_Ok. split.
  - intros (ds & [? ->]%write_Ok & [= <-]). done.
  - intros [? ->]. eexists. split; [by apply write_Ok|done].
Qed.

Lemma write_matchLeft_Ok st u v st' :
  write_matchLeft st u v = Ok st' ↔
  0 ≤ u < zlen (this_matchLeft st)
  ∧ st' = {| this_matchLeft := <[Z.to_nat u := v]> (this_matchLeft st);
             this_matchRight := this_matchRight st;
             this_dist := this_dist st |}.
Proof.
  unfold write_matchLeft. rewrite obind_Ok. split.
  - intros (ds & [? ->]%write_Ok & [= <-]). done.
  - intros [? ->]. eexists. split; [by apply write_Ok|done].
Qed.

Lemma right_invalid_false g v : right_invalid g v = false ↔ 0 ≤ v < rightSize g.
Proof.
  unfold right_invalid. rewrite orb_false_iff, Z.ltb_ge, Z.geb_leb, Z.leb_gt. lia.
Qed.

Lemma next_of_NIL g : next_of g NIL = leftSize g.
Proof. unfold next_of. by rewrite decide_True. Qed.

Lemma next_of_matched g x : x ≠ NIL → next_of g x = x.
Proof. intros. unfold next_of. by rewrite decide_False. Qed.

Lemma dist_eqb_true a b : dist_eqb a b = true ↔ a = b.
Proof. unfold dist_eqb. apply bool_decide_eq_true. Qed.

Lemma dist_eqb_false a b : dist_eqb a b = false ↔ a ≠ b.
Proof. unfold dist_eqb. apply bool_decide_eq_false. Qed.

(** * Shape and consistency *)

Lemma consistent_same st st' : same_matching st st' → consistent st → consistent st'.
Proof. intros [Hl Hr]. unfold consistent. rewrite Hl, Hr. done. Qed.

(** A matched vertex is a valid index on its own side. *)
Lemma matched_left_in_range g st u v :
  shape g st → mR st v = Some u → u ≠ NIL → consistent st →
  0 ≤ u < leftSize g ∧ 0 ≤ v < rightSize g.
Proof.
  intros [Hl Hr _] Hv Hu [_ H2].
  pose proof (zget_lt _ _ _ Hv). pose proof (zget_lt _ _ _ (H2 _ _ Hv Hu)). lia.
Qed.


(** * The augmentation phase: what [dfs] does *)

Lemma frame_Fin u k st st' x j :
  dist_frame u k st st' → dst st' x = Some (Fin j) → dst st x = Some (Fin j).
Proof. intros H Hx. destruct (H x) as [Heq|[Heq _]]; congruence. Qed.

Lemma frame_refl u k st : dist_frame u k st st.
Proof. intros x. by left. Qed.

Lemma dist_frame_same_dist u k st st1 st2 :
  this_dist st2 = this_dist st1 → dist_frame u k st st1 → dist_frame u k st st2.
Proof. intros Heq H x. rewrite Heq. apply H. Qed.

Lemma dist_frame_trans u k x st st1 st2 :
  dist_frame u k st st1 →
  dst st1 x = Some (Fin (S k)) →
  dist_frame x (S k) st1 st2 →
  dist_frame u k st st2.
Proof.
  intros H1 Hx H2 y.
  destruct (H2 y) as [Heq|(Hinf & j & Hj & Hy)].
  - rewrite Heq. apply H1.
  - right. split; [done|]. exists j. split; [by eapply frame_Fin|].
    right. destruct Hy as [->|?]; [|lia].
    rewrite Hx in Hj. injection Hj as <-. lia.
Qed.

(** Layered paths survive the erasing of layers of vertices that have none. *)
Lemma reach_forward g st st' :
  same_matching st st' → prune_sound g st st' →
  ∀ x, reach g st x → reach g st' x.
Proof.
  intros [Hl Hr] Hsound x Hx. induction Hx as [|u v matchedU k He Hv Hu Hn Hreach IH].
  - constructor.
  - assert (reach g st u) as Hreach_u by (by eapply reach_step).
    eapply reach_step; [done|by rewrite Hr| |..|done].
    + destruct (decide (dst st' u = dst st u)) as [->|Hne]; [done|].
      by destruct (Hsound _ Hne).
    + destruct (decide (dst st' (next_of g matchedU) = dst st (next_of g matchedU)))
        as [->|Hne]; [done|].
      by destruct (Hsound _ Hne).
Qed.

Lemma prune_sound_refl g st : prune_sound g st st.
Proof. intros x Hx. done. Qed.

Lemma prune_sound_trans g st st1 st2 :
  same_matching st st1 → prune_sound g st st1 → prune_sound g st1 st2 →
  prune_sound g st st2.
Proof.
  intros Hsame H1 H2 x Hne Hreach.
  destruct (decide (dst st1 x = dst st x)) as [Heq|Hne1].
  - apply (H2 x); [congruence|]. by eapply reach_forward.
  - by apply (H1 x).
Qed.

Lemma same_matching_trans st st1 st2 :
  same_matching st st1 → same_matching st1 st2 → same_matching st st2.
Proof. intros [] []. split; congruence. Qed.

(** A layered path out of [u] starts with a good neighbour. *)
Lemma reach_good g st u k full :
  u ≠ leftSize g → zget (edges g) u = Some full → dst st u = Some (Fin k) →
  reach g st u → ∃ v, v ∈ full ∧ good g k st v.
Proof.
  intros Hu Hfull Hk Hreach.
  inversion Hreach as [|u' v matchedU k' (row & Hrow & Hv & Hrange) HmR Hdu Hdn Hn];
    subst; [done|].
  assert (row = full) as -> by congruence.
  assert (k' = k) as -> by congruence.
  exists v. split; [done|]. split; [done|]. by exists matchedU.
Qed.

Lemma below_transfer u k k' st sti v :
  same_matching st sti → dist_frame u k st sti → below k' sti v → below k' st v.
Proof.
  intros [Hl Hr] Hframe [H|(y & j & Hy & Hne & Hj & Hlt)].
  - left. by rewrite <- Hr.
  - right. exists y, j. rewrite <- Hr. split_and!; try done. by eapply frame_Fin.
Qed.

Lemma augmented_transfer g u k x k' st sti st' :
  same_matching st sti → dist_frame u k st sti →
  augmented g x k' sti st' → augmented g x k' st st'.
Proof.
  intros Hsame Hframe [(v & ? & ? & ? & ? & Hb) Hleft Hright Hlr Hrl].
  pose proof Hsame as [Hl Hr].
  split.
  - exists v. split_and!; try done. by eapply below_transfer.
  - intros y Hy. destruct (Hleft y Hy) as [?|(j & w & w' & ? & ? & ? & ?)].
    + left. by rewrite <- Hl.
    + right. exists j, w, w'. rewrite <- Hl. split_and!; try tauto.
      by eapply frame_Fin.
  - intros w. destruct (Hright w) as [?|(y & ? & ? & Hb')].
    + left. by rewrite <- Hr.
    + right. exists y. split_and!; try done. by eapply below_transfer.
  - done.
  - intros w y Hw Hy. destruct (Hrl w y Hw Hy) as [?|[? ?]]; [by left|].
    right. by rewrite <- Hl.
Qed.

(** The flip made when the neighbour [v] of [u] is free. *)
Lemma augmented_sink g u k st st3 v :
  shape g st → consistent st →
  mR st v = Some NIL → edge g u v → 0 ≤ u < leftSize g →
  this_matchRight st3 = <[Z.to_nat v := u]> (this_matchRight st) →
  this_matchLeft st3 = <[Z.to_nat u := v]> (this_matchLeft st) →
  augmented g u k st st3.
Proof.
  intros [Hsl Hsr _] [H1 H2] Hfree Hedge Hu Hmr Hml.
  assert (0 ≤ v < rightSize g) as Hv by (by destruct Hedge as (? & ? & ? & ?)).
  assert (v ≠ NIL) as HvN by (unfold NIL; lia).
  assert (u ≠ NIL) as HuN by (unfold NIL; lia).
  assert (∀ w, mR st3 w = if decide (w = v) then Some u else mR st w) as Er.
  { intros w. rewrite Hmr. apply zget_insert. lia. }
  assert (∀ y, mL st3 y = if decide (y = u) then Some v else mL st y) as El.
  { intros y. rewrite Hml. apply zget_insert. lia. }
  split.
  - exists v. rewrite El, Er, !decide_True by done. split_and!; try done. by left.
  - intros y Hy. left. rewrite El. by rewrite decide_False.
  - intros w. rewrite Er. destruct (decide (w = v)) as [->|]; [|by left].
    right. exists u. split_and!; try done. by left.
  - intros y w. rewrite El, Er.
    destruct (decide (y = u)) as [->|Hy].
    + intros [= <-] _. by rewrite decide_True.
    + intros Hy' Hw. destruct (decide (w = v)) as [->|]; [|by apply H1].
      pose proof (H1 _ _ Hy' Hw) as Hback. rewrite Hfree in Hback.
      injection Hback as <-. apply zget_lt in Hy'. unfold NIL in *. lia.
  - intros w y. rewrite El, Er.
    destruct (decide (w = v)) as [->|Hw].
    + intros [= <-] _. left. by rewrite decide_True.
    + intros Hw' Hy. destruct (decide (y = u)) as [->|]; [right|left]; auto.
Qed.

(** The flip made when the neighbour [v] of [u] is matched to [x] and the
    search from [x] succeeded. *)
Lemma augmented_step g u k st st1 st3 v x :
  shape g st → consistent st → shape g st1 →
  mR st v = Some x → x ≠ NIL →
  dst st u = Some (Fin k) → dst st x = Some (Fin (S k)) →
  edge g u v → 0 ≤ u < leftSize g →
  augmented g x (S k) st st1 →
  this_matchRight st3 = <[Z.to_nat v := u]> (this_matchRight st1) →
  this_matchLeft st3 = <[Z.to_nat u := v]> (this_matchLeft st1) →
  augmented g u k st st3.
Proof.
  intros [Hsl Hsr _] [H1 H2] [Hsl1 Hsr1 _] Hvx Hx Hdu Hdx Hedge Hu
    [(v' & Hxv' & Hv'N & Hv'x & Hedge' & Hbelow') Hleft Hright Hlr Hrl] Hmr Hml.
  assert (0 ≤ v < rightSize g) as Hv by (by destruct Hedge as (? & ? & ? & ?)).
  assert (v ≠ NIL) as HvN by (unfold NIL; lia).
  assert (u ≠ NIL) as HuN by (unfold NIL; lia).
  assert (u ≠ x) as Hux.
  { intros ->. rewrite Hdu in Hdx. injection Hdx. lia. }
  assert (mL st x = Some v) as Hxv by (by apply H2).
  assert (∀ w, mR st3 w = if decide (w = v) then Some u else mR st1 w) as Er.
  { intros w. rewrite Hmr. apply zget_insert. lia. }
  assert (∀ y, mL st3 y = if decide (y = u) then Some v else mL st1 y) as El.
  { intros y. rewrite Hml. apply zget_insert. lia. }
  assert (¬ below (S k) st v) as Hnb.
  { intros [?|(y & j & Hy & _ & Hj & Hlt)]; [congruence|].
    assert (y = x) as -> by congruence.
    rewrite Hdx in Hj. injection Hj as <-. lia. }
  assert (mR st1 v = Some x) as Hvx1.
  { destruct (Hright v) as [->|(? & _ & _ & ?)]; done. }
  assert (v' ≠ v) as Hv'v by (intros ->; done).
  assert (mL st1 u = mL st u) as Hu1.
  { destruct (Hleft u Hux) as [?|(j & ? & ? & Hj & ? & _)]; [done|].
    rewrite Hdu in Hj. injection Hj as <-. lia. }
  split.
  - exists v. rewrite El, Er, !decide_True by done. split_and!; try done.
    right. exists x, (S k). split_and!; try done. lia.
  - intros y Hy. rewrite El, decide_False by done.
    destruct (decide (y = x)) as [->|Hyx].
    + right. exists (S k), v, v'. split_and!; try done. lia.
    + destruct (Hleft y Hyx) as [?|(j & w & w' & ? & ? & ? & ? & ? & ? & ?)]; [by left|].
      right. exists j, w, w'. split_and!; try done. lia.
  - intros w. rewrite Er. destruct (decide (w = v)) as [->|Hw].
    + right. exists u. split_and!; try done.
      right. exists x, (S k). split_and!; try done. lia.
    + destruct (Hright w) as [?|(y & ? & ? & Hb)]; [by left|].
      right. exists y. split_and!; try done.
      destruct Hb as [?|(y' & j & ? & ? & ? & ?)]; [by left|].
      right. exists y', j. split_and!; try done. lia.
  - intros y w. rewrite El, Er.
    destruct (decide (y = u)) as [->|Hy].
    + intros [= <-] _. by rewrite decide_True.
    + intros Hy' Hw. pose proof (Hlr _ _ Hy' Hw) as Hback.
      destruct (decide (w = v)) as [->|]; [|done].
      rewrite Hvx1 in Hback. injection Hback as <-.
      rewrite Hxv' in Hy'. injection Hy' as ->. done.
  - intros w y. rewrite El, Er.
    destruct (decide (w = v)) as [->|Hw].
    + intros [= <-] _. left. by rewrite decide_True.
    + intros Hw' Hy. destruct (Hrl _ _ Hw' Hy) as [Hyw|[-> Hxw]].
      * destruct (decide (y = u)) as [->|]; [right|by left].
        split; [done|]. by rewrite <- Hu1.
      * rewrite Hxv in Hxw. injection Hxw as <-. done.
Qed.

Section dfs_row_spec.
Context (g : BipartiteGraph).
Context (rec : Z → EngineState → outcome (bool * EngineState)).

(** What the recursive calls are assumed to guarantee. *)
Hypothesis Hrec : ∀ x st b st',
  shape g st → consistent st → rec x st = Ok (b, st') →
  (x = leftSize g → b = true ∧ st' = st)
  ∧ (x ≠ leftSize g → ∀ k, dst st x = Some (Fin k) → dfs_post g x k st b st').

Lemma dfs_row_spec u k full st :
  shape g st → consistent st → u ≠ leftSize g →
  zget (edges g) u = Some full → dst st u = Some (Fin k) →
  ∀ row pre sti b st',
    full = pre ++ row →
    (∀ v, v ∈ pre → ¬ good g k st v) →
    shape g sti → same_matching st sti →
    dist_frame u k st sti → prune_sound g st sti →
    dst sti u = Some (Fin k) →
    dfs_row g rec u row sti = Ok (b, st') →
    dfs_post g u k st b st'.
Proof.
  intros Hshape Hcons Hu Hfull Hdu.
  induction row as [|v row IH];
    intros pre sti b st' Hsplit Hpre Hshi Hsame Hframe Hsound Hdui Hrun; simpl in Hrun.
  - (* the row is exhausted: [dist[u] = Infinity], no path from [u] *)
    apply obind_Ok in Hrun as (st1 & [Hrange ->]%write_dist_Ok & [= <- <-]).
    rewrite app_nil_r in Hsplit. subst pre.
    assert (¬ reach g st u) as Hnreach.
    { intros Hreach.
      destruct (reach_good _ _ _ _ _ Hu Hfull Hdu Hreach) as (v & Hv & Hgood).
      by apply (Hpre v). }
    split; [|split; [|split; [|split]]].
    + destruct Hshi. split; simpl; try done. by rewrite zlen_insert.
    + intros x. simpl. rewrite zget_insert by done.
      destruct (decide (x = u)) as [->|]; [|apply Hframe].
      right. split; [done|]. exists k. split; [done|by left].
    + apply Hsame.
    + intros x. simpl. rewrite zget_insert by done.
      destruct (decide (x = u)) as [->|]; [done|apply Hsound].
    + done.
  - destruct (right_invalid g v) eqn:Hinv.
    { (* out-of-range entry: skipped *)
      apply (IH (pre ++ [v]) sti); try done.
      - by rewrite <- app_assoc.
      - intros w [Hw|Hw%list_elem_of_singleton]%elem_of_app; [by apply Hpre|subst w].
        intros [Hr _]. apply right_invalid_false in Hr. congruence. }
    apply right_invalid_false in Hinv.
    apply obind_Ok in Hrun as (matchedU & HmU%read_Ok & Hrun).
    apply obind_Ok in Hrun as (dnext & Hdn%read_Ok & Hrun).
    apply obind_Ok in Hrun as (du & Hdu'%read_Ok & Hrun).
    rewrite Hdui in Hdu'. injection Hdu' as <-. simpl in Hrun.
    pose proof Hsame as [Hl Hr].
    assert (mR st v = Some matchedU) as HmU' by (by rewrite <- Hr).
    assert (edge g u v) as Hedge.
    { exists full. split; [done|]. split; [|done]. subst full.
      apply elem_of_app. right. left. }
    destruct (dist_eqb dnext (Fin (S k))) eqn:Hcheck.
    2:{ (* the partner is not in the next layer *)
      apply dist_eqb_false in Hcheck.
      apply (IH (pre ++ [v]) sti); try done.
      - by rewrite <- app_assoc.
      - intros w [Hw|Hw%list_elem_of_singleton]%elem_of_app; [by apply Hpre|subst w].
        intros (_ & m & Hm & Hlayer & Hreach).
        assert (m = matchedU) as -> by congruence.
        destruct (decide (dst sti (next_of g matchedU) = dst st (next_of g matchedU)))
          as [Heq|Hne]; [congruence|by apply (Hsound _ Hne)]. }
    apply dist_eqb_true in Hcheck. subst dnext.
    apply obind_Ok in Hrun as ([found st1] & Hcall & Hrun).
    pose proof (consistent_same _ _ Hsame Hcons) as Hconsi.
    destruct (Hrec _ _ _ _ Hshi Hconsi Hcall) as [Hsink Hreal].
    destruct (decide (matchedU = NIL)) as [->|HmN].
    + (* [v] is free: the sink is reached *)
      rewrite next_of_NIL in *. destruct (Hsink eq_refl) as [-> ->].
      apply obind_Ok in Hrun as (st2 & [Hv2 ->]%write_matchRight_Ok & Hrun).
      apply obind_Ok in Hrun as (st3 & [Hu3 ->]%write_matchLeft_Ok & [= <- <-]).
      simpl in *.
      split; [|split].
      * destruct Hshi. split; simpl; try done; by rewrite zlen_insert.
      * by eapply dist_frame_same_dist.
      * eapply augmented_sink; try done.
        -- destruct Hshape as [Hsl _ _]. rewrite Hl, Hsl in Hu3. done.
        -- simpl. by rewrite Hr.
        -- simpl. by rewrite Hl.
    + rewrite next_of_matched in * by done.
      assert (matchedU ≠ leftSize g) as HmS.
      { intros ->. destruct Hcons as [_ H2]. pose proof (H2 _ _ HmU' HmN) as Hm.
        apply zget_lt in Hm. destruct Hshape. lia. }
      pose proof (Hreal HmS _ Hdn) as (Hsh1 & Hframe1 & Hpost).
      destruct found.
      * (* the search from the partner succeeded: flip the edge *)
        apply obind_Ok in Hrun as (st2 & [Hv2 ->]%write_matchRight_Ok & Hrun).
        apply obind_Ok in Hrun as (st3 & [Hu3 ->]%write_matchLeft_Ok & [= <- <-]).
        simpl in *.
        split; [|split].
        -- destruct Hsh1. split; simpl; try done; by rewrite zlen_insert.
        -- eapply dist_frame_same_dist; [|by eapply dist_frame_trans]. done.
        -- eapply (augmented_step g u k st st1 _ v matchedU); try done.
           ++ by eapply frame_Fin.
           ++ destruct Hsh1 as [Hsl1 _ _]. rewrite Hsl1 in Hu3. done.
           ++ by eapply augmented_transfer.
      * (* it failed: go on with the rest of the row *)
        destruct Hpost as (Hsame1 & Hsound1 & Hnreach).
        apply (IH (pre ++ [v]) st1); try done.
        -- by rewrite <- app_assoc.
        -- intros w [Hw|Hw%list_elem_of_singleton]%elem_of_app; [by apply Hpre|subst w].
           intros (_ & m & Hm & Hlayer & Hreach).
           assert (m = matchedU) as -> by congruence.
           rewrite next_of_matched in Hreach by done.
           apply Hnreach. by eapply reach_forward.
        -- by eapply same_matching_trans.
        -- by eapply dist_frame_trans.
        -- by eapply prune_sound_trans.
        -- destruct (Hframe1 u) as [->|(_ & j & Hj & [->|Hlt])]; [done| |].
           ++ rewrite Hdui in Hdn. injection Hdn. lia.
           ++ rewrite Hdui in Hj. injection Hj as <-. lia.
Qed.
End dfs_row_spec.

(** The sink ends the search at once. *)
Lemma dfs_sink g fuel st b st' :
  dfs g fuel (leftSize g) st = Ok (b, st') → b = true ∧ st' = st.
Proof.
  destruct fuel; simpl; [done|]. rewrite decide_True by done. by intros [= <- <-].
Qed.

(** What [dfs] guarantees, for any amount of fuel that lets it return. *)
Lemma dfs_spec g fuel : ∀ u st b st',
  shape g st → consistent st → dfs g fuel u st = Ok (b, st') →
  (u = leftSize g → b = true ∧ st' = st)
  ∧ (u ≠ leftSize g → ∀ k, dst st u = Some (Fin k) → dfs_post g u k st b st').
Proof.
  induction fuel as [|fuel IH]; intros u st b st' Hshape Hcons Hrun; [done|].
  split; [intros ->; by eapply dfs_sink|].
  intros Hu k Hk. simpl in Hrun. rewrite decide_False in Hrun by done.
  destruct (zget (edges g) u) as [full|] eqn:Hfull; [|done].
  eapply (dfs_row_spec g (dfs g fuel) IH u k full st Hshape Hcons Hu Hfull Hk full []);
    try done.
  - intros v Hv. by apply not_elem_of_nil in Hv.
  - apply frame_refl.
  - apply prune_sound_refl.
Qed.


(** * The layering phase: what [bfs] does *)

Lemma count_inf_le ds : (count_inf ds ≤ length ds)%nat.
Proof. unfold count_inf. apply length_filter. Qed.

Lemma count_inf_insert ds (i : nat) j :
  ds !! i = Some Infinity →
  (count_inf (<[i := Fin j]> ds) + 1 = count_inf ds)%nat.
Proof.
  unfold count_inf. revert i. induction ds as [|d ds IH]; intros [|i]; simpl; try done.
  - intros [= ->]. rewrite !filter_cons. simpl. lia.
  - intros Hi. rewrite !filter_cons. specialize (IH _ Hi).
    destruct (decide (d = Infinity)); simpl; lia.
Qed.

Lemma mono_refl st : mono st st.
Proof. by intros x j. Qed.

Lemma mono_trans st st1 st2 : mono st st1 → mono st1 st2 → mono st st2.
Proof. intros H1 H2 x j Hx. eauto. Qed.

Lemma has_pred_mono g st st' x j :
  same_matching st st' → mono st st' → has_pred g st x j → has_pred g st' x j.
Proof.
  intros [Hl Hr] Hm (u & v & m & ? & ? & ? & ?).
  exists u, v, m. rewrite Hr. split_and!; try done. by apply Hm.
Qed.

Lemma closed_mono g st st' u :
  same_matching st st' → mono st st' → closed g st u → closed g st' u.
Proof.
  intros [Hl Hr] Hm Hc v Hv. destruct (Hc v Hv) as (m & j & ? & ?).
  exists m, j. rewrite Hr. split; [done|]. by apply Hm.
Qed.

(** Giving the layer [S k] to an entry that had none, from a vertex [u] of
    layer [k] through the edge to [v]. *)
Lemma bfs_inv_set g st st1 u v matchedU k pending :
  bfs_inv g st pending →
  edge g u v → mR st v = Some matchedU →
  dst st u = Some (Fin k) →
  dst st (next_of g matchedU) = Some Infinity →
  write_dist st (next_of g matchedU) (Fin (S k)) = Ok st1 →
  same_matching st st1 ∧ mono st st1
  ∧ dst st1 (next_of g matchedU) = Some (Fin (S k))
  ∧ (count_inf (this_dist st1) + 1 = count_inf (this_dist st))%nat
  ∧ bfs_inv g st1 (if decide (matchedU ≠ NIL) then pending ++ [matchedU] else pending).
Proof.
  intros [Hsh Hcons [Hz Hp Hb] Hex] Hedge HmU Hdu Hinf [Hrange ->]%write_dist_Ok.
  set (x := next_of g matchedU) in *.
  set (st1 := {| this_matchLeft := _ |}).
  assert (∀ y, dst st1 y = if decide (y = x) then Some (Fin (S k)) else dst st y) as Ed.
  { intros y. simpl. by apply zget_insert. }
  assert (same_matching st st1) as Hsame by done.
  assert (mono st st1) as Hmono.
  { intros y j Hy. rewrite Ed. destruct (decide (y = x)) as [->|]; [congruence|done]. }
  assert (count_inf (this_dist st1) + 1 = count_inf (this_dist st))%nat as Hcount.
  { simpl. apply count_inf_insert. apply zget_Some in Hinf. tauto. }
  split_and!; try done.
  { rewrite Ed. by rewrite decide_True. }
  split.
  - destruct Hsh. split; simpl; try done. by rewrite zlen_insert.
  - done.
  - split.
    + intros y. rewrite Ed. destruct (decide (y = x)); [done|]. intros Hy.
      destruct (Hz y Hy). done.
    + intros y j. rewrite Ed. destruct (decide (y = x)) as [->|].
      * intros [= <-]. exists u, v, matchedU. split_and!; try done. by apply Hmono.
      * intros Hy. eapply has_pred_mono; eauto.
    + intros y j. rewrite Ed. simpl. rewrite length_insert.
      destruct (decide (y = x)) as [->|].
      * intros [= <-]. specialize (Hb _ _ Hdu). simpl in Hcount. lia.
      * intros Hy. specialize (Hb _ _ Hy). simpl in Hcount. lia.
  - intros y j Hy. rewrite Ed. destruct (decide (y = x)) as [->|Hne].
    + intros _. left. unfold x, next_of in *.
      destruct (decide (matchedU = NIL)); [lia|].
      rewrite decide_True by done. apply elem_of_app. right. left.
    + intros Hyj. destruct (Hex y j Hy Hyj) as [Hin|[Hc|(j' & Hs)]].
      * left. destruct (decide (matchedU ≠ NIL)); [|done].
        apply elem_of_app. by left.
      * right. left. by eapply closed_mono.
      * right. right. exists j'. by apply Hmono.
Qed.

Lemma queue_ok_mono g st st' q : mono st st' → queue_ok g st q → queue_ok g st' q.
Proof. intros Hm Hq u Hu. destruct (Hq u Hu) as [? [j ?]]. split; [done|]. exists j. auto. Qed.

(** The loop over the row of a dequeued vertex [u] of layer [k]. *)
Lemma bfs_row_spec g u k : ∀ row st q st' q',
  bfs_inv g st (u :: q) → queue_ok g st q → dst st u = Some (Fin k) →
  (∀ v, v ∈ row → 0 ≤ v < rightSize g → edge g u v) →
  bfs_row g u row st q = Ok (st', q') →
  bfs_inv g st' (u :: q') ∧ queue_ok g st' q'
  ∧ same_matching st st' ∧ mono st st'
  ∧ (length q' + count_inf (this_dist st') ≤ length q + count_inf (this_dist st))%nat
  ∧ (∀ v, v ∈ row → 0 ≤ v < rightSize g →
       ∃ m j, mR st v = Some m ∧ dst st' (next_of g m) = Some (Fin j)).
Proof.
  induction row as [|v row IH]; intros st q st' q' Hinv Hq Hdu Hrow Hrun; simpl in Hrun.
  - injection Hrun as <- <-. split_and!; try done.
    + apply mono_refl.
    + intros v Hv. by apply not_elem_of_nil in Hv.
  - assert (Hrow' : ∀ v', v' ∈ row → 0 ≤ v' < rightSize g → edge g u v').
    { intros v' Hv'. apply Hrow. by right. }
    destruct (right_invalid g v) eqn:Hinvalid.
    { destruct (IH _ _ _ _ Hinv Hq Hdu Hrow' Hrun) as (? & ? & ? & ? & ? & Hfin).
      split_and!; try done.
      intros v' [->|Hv']%elem_of_cons Hr; [|by apply Hfin].
      apply right_invalid_false in Hr. congruence. }
    apply right_invalid_false in Hinvalid.
    assert (edge g u v) as Hedge by (apply Hrow; [left|done]).
    apply obind_Ok in Hrun as (matchedU & HmU%read_Ok & Hrun).
    apply obind_Ok in Hrun as (d & Hd%read_Ok & Hrun).
    destruct (dist_eqb d Infinity) eqn:Hcheck.
    + apply dist_eqb_true in Hcheck. subst d.
      apply obind_Ok in Hrun as (du & Hdu'%read_Ok & Hrun).
      rewrite Hdu in Hdu'. injection Hdu' as <-.
      apply obind_Ok in Hrun as (st1 & Hwrite & Hrun). simpl in Hwrite.
      destruct (bfs_inv_set _ _ _ _ _ _ _ _ Hinv Hedge HmU Hdu Hd Hwrite)
        as (Hsame1 & Hmono1 & Hnew & Hcount & Hinv1).
      assert (queue_ok g st1 (if decide (matchedU ≠ NIL) then q ++ [matchedU] else q))
        as Hq1.
      { destruct (decide (matchedU ≠ NIL)) as [HmN|]; [|by eapply queue_ok_mono].
        intros y [Hy|Hy%list_elem_of_singleton]%elem_of_app.
        - by apply (queue_ok_mono g st st1 q).
        - subst y. rewrite next_of_matched in Hnew by done.
          split; [|by eexists].
          destruct Hinv as [Hsh Hcons _ _].
          by destruct (matched_left_in_range _ _ _ _ Hsh HmU HmN Hcons). }
      assert (length (if decide (matchedU ≠ NIL) then q ++ [matchedU] else q)
              ≤ length q + 1)%nat as Hlen.
      { destruct (decide (matchedU ≠ NIL)); [rewrite length_app; simpl|]; lia. }
      assert (bfs_row g u row st1 (if decide (matchedU ≠ NIL) then q ++ [matchedU] else q)
              = Ok (st', q')) as Hrun'.
      { by destruct (decide (matchedU ≠ NIL)). }
      assert (bfs_inv g st1 (u :: (if decide (matchedU ≠ NIL) then q ++ [matchedU] else q)))
        as Hinv1'.
      { by destruct (decide (matchedU ≠ NIL)). }
      destruct (IH _ _ _ _ Hinv1' Hq1 (Hmono1 _ _ Hdu) Hrow' Hrun')
        as (? & ? & Hsame2 & Hmono2 & Hmeasure & Hfin).
      pose proof Hsame1 as [Hl1 Hr1].
      split_and!; try done.
      * by eapply same_matching_trans.
      * by eapply mono_trans.
      * lia.
      * intros v' [->|Hv']%elem_of_cons Hr.
        -- exists matchedU, (S k). split; [done|]. by apply Hmono2.
        -- destruct (Hfin v' Hv' Hr) as (m & j & Hm & Hj).
           exists m, j. by rewrite <- Hr1.
    + apply dist_eqb_false in Hcheck.
      destruct (IH _ _ _ _ Hinv Hq Hdu Hrow' Hrun) as (? & ? & ? & Hmono' & ? & Hfin).
      split_and!; try done.
      intros v' [->|Hv']%elem_of_cons Hr; [|by apply Hfin].
      destruct d as [j|]; [|done].
      exists matchedU, j. split; [done|]. by apply Hmono'.
Qed.

Lemma bfs_inv_pending g st q q' :
  bfs_inv g st q →
  (∀ u j, 0 ≤ u < leftSize g → dst st u = Some (Fin j) → u ∈ q →
          u ∈ q' ∨ closed g st u ∨ ∃ j', dst st (leftSize g) = Some (Fin j')) →
  bfs_inv g st q'.
Proof.
  intros [Hsh Hc Hl He] H. split; try done.
  intros u j Hu Hj. destruct (He u j Hu Hj) as [Hin|?]; [|tauto]. eauto.
Qed.

Lemma dist_ltb_Fin_false k d : dist_ltb (Fin k) d = false → ∃ j, d = Fin j.
Proof. destruct d as [j|]; [eauto|done]. Qed.

(** Expanding the head [u] of the queue. *)
Lemma bfs_expand g st u q k row st1 q1 :
  bfs_inv g st (u :: q) → queue_ok g st (u :: q) →
  dst st u = Some (Fin k) → zget (edges g) u = Some row →
  bfs_row g u row st q = Ok (st1, q1) →
  bfs_inv g st1 q1 ∧ queue_ok g st1 q1 ∧ same_matching st st1 ∧ mono st st1
  ∧ (length q1 + count_inf (this_dist st1) ≤ length q + count_inf (this_dist st))%nat.
Proof.
  intros Hinv Hq Hk Hrow Hrun.
  assert (queue_ok g st q) as Hq' by (intros y Hy; apply Hq; by right).
  destruct (bfs_row_spec g u k row st q st1 q1 Hinv Hq' Hk) as
    (Hinv1 & Hq1 & Hsame1 & Hmono1 & Hmeasure & Hfin); [|done|].
  { intros v Hv Hr. by exists row. }
  split_and!; try done.
  eapply bfs_inv_pending; [exact Hinv1|].
  intros y j Hy Hj [->|Hin]%elem_of_cons; [|by left].
  right. left. intros v (row' & Hrow' & Hv & Hr).
  assert (row' = row) as -> by congruence.
  destruct (Hfin v Hv Hr) as (m & j' & Hm & Hj').
  exists m, j'. destruct Hsame1 as [_ ->]. done.
Qed.

(** Passing over the head of the queue once the sink has a layer. *)
Lemma bfs_skip g st u q j' :
  bfs_inv g st (u :: q) → dst st (leftSize g) = Some (Fin j') → bfs_inv g st q.
Proof.
  intros Hinv Hs. eapply bfs_inv_pending; [exact Hinv|].
  intros y j Hy Hj _. right. right. by exists j'.
Qed.

(** The [while] loop of [bfs]. *)
Lemma bfs_loop_spec g fuel : ∀ st q st',
  bfs_inv g st q → queue_ok g st q →
  bfs_loop g fuel st q = Ok st' →
  bfs_inv g st' [] ∧ same_matching st st' ∧ mono st st'.
Proof.
  induction fuel as [|fuel IH]; intros st q st' Hinv Hq Hrun; [done|].
  simpl in Hrun. destruct q as [|u q].
  { injection Hrun as <-. split_and!; try done. apply mono_refl. }
  destruct (Hq u) as [Hu [k Hk]]; [left|].
  assert (queue_ok g st q) as Hq' by (intros y Hy; apply Hq; by right).
  apply obind_Ok in Hrun as (du & Hdu%read_Ok & Hrun).
  apply obind_Ok in Hrun as (dsink & Hds%read_Ok & Hrun).
  rewrite Hk in Hdu. injection Hdu as <-.
  destruct (dist_ltb (Fin k) dsink) eqn:Hlt.
  - destruct (zget (edges g) u) as [row|] eqn:Hrow; [|done].
    apply obind_Ok in Hrun as ([st1 q1] & Hrow_run & Hrun).
    destruct (bfs_expand _ _ _ _ _ _ _ _ Hinv Hq Hk Hrow Hrow_run)
      as (Hinv1 & Hq1 & Hsame1 & Hmono1 & _).
    destruct (IH _ _ _ Hinv1 Hq1 Hrun) as (? & ? & ?).
    split_and!; try done.
    + by eapply same_matching_trans.
    + by eapply mono_trans.
  - apply dist_ltb_Fin_false in Hlt as [j' ->].
    apply (IH st q); try done. by eapply bfs_skip.
Qed.

(** The first loop of [bfs]: every visited vertex gets layer 0 if it is free
    and [Infinity] otherwise, and the free ones are queued in order. *)
Lemma bfs_init_spec : ∀ us st q st' q',
  bfs_init us st q = Ok (st', q') →
  same_matching st st'
  ∧ zlen (this_dist st') = zlen (this_dist st)
  ∧ (∀ x, x ∈ us →
       ∃ m, mL st x = Some m
            ∧ dst st' x = Some (if decide (m = NIL) then Fin 0 else Infinity))
  ∧ (∀ x, x ∉ us → dst st' x = dst st x)
  ∧ (∀ x, x ∈ q' ↔ x ∈ q ∨ (x ∈ us ∧ mL st x = Some NIL)).
Proof.
  induction us as [|u us IH]; intros st q st' q' Hrun; simpl in Hrun.
  - injection Hrun as <- <-. split_and!; try done.
    + intros x Hx. by apply not_elem_of_nil in Hx.
    + intros x. split; [by left|]. intros [?|[Hx _]]; [done|].
      by apply not_elem_of_nil in Hx.
  - apply obind_Ok in Hrun as (m & Hm%read_Ok & Hrun).
    assert (∃ st1 q1, (q1 = if decide (m = NIL) then q ++ [u] else q)
              ∧ write_dist st u (if decide (m = NIL) then Fin 0 else Infinity) = Ok st1
              ∧ bfs_init us st1 q1 = Ok (st', q')) as (st1 & q1 & Hq1 & Hw & Hrest).
    { destruct (decide (m = NIL));
        apply obind_Ok in Hrun as (st1 & Hw & Hrun); eexists st1, _; done. }
    clear Hrun. apply write_dist_Ok in Hw as [Hrange Hst1].
    destruct (IH _ _ _ _ Hrest) as (Hsame & Hlen & Hin & Hout & Hqueue).
    assert (∀ y, dst st1 y
                 = if decide (y = u) then Some (if decide (m = NIL) then Fin 0 else Infinity)
                   else dst st y) as Ed.
    { intros y. subst st1. simpl. by apply zget_insert. }
    assert (this_matchLeft st1 = this_matchLeft st) as El by (by subst st1).
    assert (this_matchRight st1 = this_matchRight st) as Er by (by subst st1).
    split_and!.
    + destruct Hsame. split; congruence.
    + rewrite Hlen. subst st1. simpl. by rewrite zlen_insert.
    + intros x Hx. destruct (decide (x ∈ us)) as [Hxus|Hxus].
      * destruct (Hin x Hxus) as (m' & ? & ?). exists m'. by rewrite <- El.
      * apply elem_of_cons in Hx as [->|?]; [|done].
        exists m. split; [done|]. rewrite (Hout _ Hxus), Ed. by rewrite decide_True.
    + intros x Hx. apply not_elem_of_cons in Hx as [Hne Hx].
      rewrite (Hout _ Hx), Ed. by rewrite decide_False.
    + intros x. rewrite Hqueue, El, Hq1, elem_of_cons.
      destruct (decide (m = NIL)) as [->|HmN].
      * rewrite elem_of_app, list_elem_of_singleton. split.
        -- intros [[?| ->]|[? ?]]; auto.
        -- intros [?|[[ -> |?] ?]]; auto.
      * split; [intros [?|[? ?]]; auto|].
        intros [?|[[ -> |?] ?]]; auto. congruence.
Qed.

(** The state and the queue with which the [while] loop of [bfs] starts. *)
Lemma bfs_start g st st1 queue st2 :
  shape g st → consistent st →
  bfs_init (seqZ 0 (leftSize g)) st [] = Ok (st1, queue) →
  write_dist st1 (leftSize g) Infinity = Ok st2 →
  bfs_inv g st2 queue ∧ queue_ok g st2 queue ∧ same_matching st st2
  ∧ (∀ u, free g st u → dst st2 u = Some (Fin 0)).
Proof.
  intros Hsh Hcons Hinit [Hrange Hst2]%write_dist_Ok.
  destruct (bfs_init_spec _ _ _ _ _ Hinit) as (Hsame1 & Hlen1 & Hin & _ & Hqueue).
  pose proof Hsh as [Hsl Hsr Hsd].
  assert (∀ y, dst st2 y = if decide (y = leftSize g) then Some Infinity else dst st1 y)
    as Ed.
  { intros y. subst st2. simpl. by apply zget_insert. }
  assert (same_matching st st2) as Hsame2.
  { destruct Hsame1. subst st2. split; simpl; congruence. }
  assert (shape g st2) as Hsh2.
  { destruct Hsame2 as [El Er]. split; [by rewrite El|by rewrite Er|].
    subst st2. simpl. rewrite zlen_insert. congruence. }
  assert (Hval : ∀ x j, dst st2 x = Some (Fin j) →
            j = 0%nat ∧ 0 ≤ x < leftSize g ∧ mL st x = Some NIL).
  { intros x j Hx. pose proof (zget_lt _ _ _ Hx) as Hlt.
    destruct Hsh2 as [_ _ Hsd2]. rewrite Hsd2 in Hlt.
    rewrite Ed in Hx. destruct (decide (x = leftSize g)); [done|].
    destruct (Hin x) as (m & Hm & Hdx); [apply elem_of_seqZ; lia|].
    rewrite Hdx in Hx. destruct (decide (m = NIL)) as [->|]; [|done].
    injection Hx as <-. split_and!; try done; lia. }
  assert (Hzero : ∀ u, free g st u → dst st2 u = Some (Fin 0)).
  { intros u [Hu Hfree]. rewrite Ed, decide_False by lia.
    destruct (Hin u) as (m & Hm & ->); [apply elem_of_seqZ; lia|].
    rewrite Hfree in Hm. injection Hm as <-. by rewrite decide_True. }
  split_and!; try done.
  - split; [done|by eapply consistent_same| |].
    + split.
      * intros x Hx. destruct (Hval _ _ Hx) as (_ & ? & ?).
        split; [done|]. destruct Hsame2 as [-> _]. done.
      * intros x j Hx. by destruct (Hval _ _ Hx).
      * intros x j Hx. destruct (Hval _ _ Hx) as (-> & _).
        pose proof (count_inf_le (this_dist st2)). lia.
    + intros u j Hu Hj. left. destruct (Hval _ _ Hj) as (_ & _ & Hfree).
      apply Hqueue. right. split; [apply elem_of_seqZ; lia|done].
  - intros u [Hu|[Hu Hfree]]%Hqueue; [by apply not_elem_of_nil in Hu|].
    apply elem_of_seqZ in Hu.
    split; [lia|]. exists 0%nat. apply Hzero. split; [lia|done].
Qed.

(** What [bfs] guarantees, for any amount of fuel that lets it return. *)
Lemma bfs_spec g fuel st b st' :
  shape g st → consistent st →
  bfs g fuel st = Ok (b, st') →
  shape g st' ∧ same_matching st st' ∧ layered g st'
  ∧ (∀ u, free g st u → dst st' u = Some (Fin 0))
  ∧ if b then ∃ j, dst st' (leftSize g) = Some (Fin j)
    else dst st' (leftSize g) = Some Infinity
         ∧ ∀ u j, 0 ≤ u < leftSize g → dst st' u = Some (Fin j) → closed g st' u.
Proof.
  intros Hsh Hcons Hrun. unfold bfs in Hrun.
  apply obind_Ok in Hrun as ([st1 queue] & Hinit & Hrun).
  apply obind_Ok in Hrun as (st2 & Hwrite & Hrun).
  apply obind_Ok in Hrun as (st3 & Hloop & Hrun).
  apply obind_Ok in Hrun as (dsink & Hds%read_Ok & [= <- <-]).
  destruct (bfs_start _ _ _ _ _ Hsh Hcons Hinit Hwrite) as (Hinv2 & Hq2 & Hsame2 & Hzero).
  destruct (bfs_loop_spec _ _ _ _ _ Hinv2 Hq2 Hloop) as ([Hsh3 _ Hlay3 Hex3] & Hsame3 & Hmono3).
  split_and!; try done.
  - by eapply same_matching_trans.
  - intros u Hu. apply Hmono3. by apply Hzero.
  - destruct dsink as [j|]; simpl.
    + by exists j.
    + split; [done|]. intros u j Hu Hj.
      destruct (Hex3 u j Hu Hj) as [Hin'|[?|(j' & Hj')]]; [|done|congruence].
      by apply not_elem_of_nil in Hin'.
Qed.


(** * Counting matched vertices *)

Lemma matched_count_cons x l :
  matched_count (x :: l) = (if decide (x = NIL) then 0 else 1) + matched_count l.
Proof.
  unfold matched_count. rewrite filter_cons.
  destruct (decide (x ≠ NIL)), (decide (x = NIL)); simpl; try done; lia.
Qed.

Lemma matched_count_range l : 0 ≤ matched_count l ≤ zlen l.
Proof.
  unfold matched_count, zlen. pose proof (length_filter (λ v, v ≠ NIL) l). lia.
Qed.

(** Two arrays with the sentinel at the same places have the same count. *)
Lemma matched_count_same : ∀ l l' : list Z,
  length l = length l' →
  (∀ i : nat, l !! i = Some NIL ↔ l' !! i = Some NIL) →
  matched_count l = matched_count l'.
Proof.
  induction l as [|x l IH]; intros [|x' l'] Hlen H; simpl in Hlen; try done.
  rewrite !matched_count_cons.
  rewrite (IH l') by (lia || (intros i; apply (H (S i)))).
  specialize (H 0%nat). simpl in H.
  destruct (decide (x = NIL)) as [->|], (decide (x' = NIL)) as [->|]; try done.
  - destruct H as [H _]. specialize (H eq_refl). congruence.
  - destruct H as [_ H]. specialize (H eq_refl). congruence.
Qed.

(** One more matched entry, at [u]. *)
Lemma matched_count_succ : ∀ (l l' : list Z) (u : nat),
  length l = length l' →
  (∀ i : nat, i ≠ u → (l !! i = Some NIL ↔ l' !! i = Some NIL)) →
  l !! u = Some NIL →
  (∃ v, l' !! u = Some v ∧ v ≠ NIL) →
  matched_count l' = matched_count l + 1.
Proof.
  induction l as [|x l IH]; intros [|x' l'] u Hlen H Hu (v & Hv & HvN);
    simpl in Hlen; try done.
  rewrite !matched_count_cons. destruct u as [|u]; simpl in *.
  - injection Hu as ->. injection Hv as ->.
    destruct (decide (v = NIL)); [done|].
    destruct (decide (NIL = NIL)); [|done].
    rewrite (matched_count_same l l'); [lia|lia|].
    intros i. apply (H (S i)). lia.
  - rewrite (IH l' u); [|lia|intros i Hi; apply (H (S i)); lia|done|by exists v].
    specialize (H 0%nat). simpl in H.
    destruct (decide (x = NIL)) as [->|], (decide (x' = NIL)) as [->|]; try lia.
    + destruct H as [H _]; [lia|]. specialize (H eq_refl). congruence.
    + destruct H as [_ H]; [lia|]. specialize (H eq_refl). congruence.
Qed.

Lemma zget_nat {A} (l : list A) (i : nat) : zget l (Z.of_nat i) = l !! i.
Proof. unfold zget. rewrite decide_True by lia. by rewrite Nat2Z.id. Qed.

(** * The augmentation loop *)

Lemma erased_refl st : erased st st.
Proof. by intros x j. Qed.

Lemma erased_trans st st1 st2 : erased st st1 → erased st1 st2 → erased st st2.
Proof. intros H1 H2 x j Hx. auto. Qed.

Lemma grown_refl g st : grown g st st.
Proof. intros u v ? ?. by left. Qed.

Lemma grown_trans g st st1 st2 : grown g st st1 → grown g st1 st2 → grown g st st2.
Proof.
  intros H1 H2 u v Hu Hv. destruct (H2 u v Hu Hv) as [?|?]; [|by right]. by apply H1.
Qed.

(** From a layering that reaches the sink, some free left vertex has a
    layered path to it. *)
Lemma layered_reach g st : layered g st →
  ∀ j x, dst st x = Some (Fin j) → reach g st x →
         ∃ u0, free g st u0 ∧ reach g st u0.
Proof.
  intros [Hz Hp _]. induction j as [|j IH]; intros x Hx Hreach.
  - exists x. split; [by apply Hz|done].
  - destruct (Hp x j Hx) as (u & v & m & Hedge & Hm & <- & Hu).
    apply (IH u Hu). by eapply reach_step.
Qed.

(** A successful search from a free vertex [u]: the matching is consistent
    again, [u] is matched and nothing else changed its status. *)
Lemma augmented_top g st st' u :
  shape g st → shape g st' → consistent st → mL st u = Some NIL →
  augmented g u 0 st st' →
  consistent st' ∧ grown g st st'
  ∧ matched_count (this_matchLeft st') = matched_count (this_matchLeft st) + 1
  ∧ (∀ y, mL st' y = Some NIL → mL st y = Some NIL).
Proof.
  intros Hsh Hsh' Hcons Hfree [(v & Huv & HvN & Hvu & Hedge & _) Hleft Hright Hlr Hrl].
  assert (Hstatus : ∀ y, y ≠ u → (mL st y = Some NIL ↔ mL st' y = Some NIL)).
  { intros y Hy. destruct (Hleft y Hy) as [->|(j & w & w' & _ & _ & -> & ? & -> & ? & _)];
      [done|]. split; congruence. }
  split_and!.
  - split; [done|]. intros w y Hw Hy.
    destruct (Hrl w y Hw Hy) as [?|[-> Hbad]]; [done|].
    rewrite Hfree in Hbad. injection Hbad as <-.
    apply zget_lt in Hw. unfold NIL in Hw. lia.
  - intros y w Hy Hw. destruct (decide (y = u)) as [->|Hne].
    + right. rewrite Huv in Hy. by injection Hy as <-.
    + destruct (Hleft y Hne) as [<-|(j & w0 & w' & _ & _ & _ & _ & Hy' & _ & ?)];
        [by left|].
      right. rewrite Hy in Hy'. by injection Hy' as <-.
  - pose proof (zget_lt _ _ _ Hfree) as Hu.
    apply (matched_count_succ _ _ (Z.to_nat u)).
    + destruct Hsh as [Hl _ _], Hsh' as [Hl' _ _]. unfold zlen in *. lia.
    + intros i Hi. rewrite <- !zget_nat. apply Hstatus. lia.
    + apply zget_Some in Hfree. tauto.
    + exists v. split; [|done]. apply zget_Some in Huv. tauto.
  - intros y Hy. destruct (decide (y = u)) as [->|Hne]; [done|]. by apply Hstatus.
Qed.

Lemma frame_zero u st st' y :
  dist_frame u 0 st st' → y ≠ u → dst st y = Some (Fin 0) → dst st' y = Some (Fin 0).
Proof.
  intros H Hy Hz. destruct (H y) as [->|(_ & j & Hj & [?|?])]; [done|done|].
  rewrite Hz in Hj. injection Hj as <-. lia.
Qed.

Lemma frame_erased u k st st' : dist_frame u k st st' → erased st st'.
Proof. intros H x j Hx. by eapply frame_Fin. Qed.

(** The loop of [findMaximumMatching] over the left vertices. *)
Lemma augment_spec g fuel : ∀ us st n st' n',
  NoDup us → shape g st → consistent st →
  (∀ y, y ∈ us → mL st y = Some NIL → dst st y = Some (Fin 0)) →
  augment g fuel us st n = Ok (st', n') →
  shape g st' ∧ consistent st' ∧ erased st st' ∧ grown g st st'
  ∧ n' - n = matched_count (this_matchLeft st') - matched_count (this_matchLeft st)
  ∧ n ≤ n'
  ∧ ((∃ u0, u0 ∈ us ∧ mL st u0 = Some NIL ∧ reach g st u0) → n < n').
Proof.
  induction us as [|u us IH]; intros st n st' n' Hnd Hsh Hcons Hzero Hrun; simpl in Hrun.
  - injection Hrun as <- <-. split_and!; try done.
    + apply erased_refl.
    + apply grown_refl.
    + lia.
    + intros (u0 & Hu0 & _). by apply not_elem_of_nil in Hu0.
  - apply NoDup_cons in Hnd as [Hu_notin Hnd].
    apply obind_Ok in Hrun as (m & Hm%read_Ok & Hrun).
    destruct (decide (m = NIL)) as [->|HmN].
    2:{ destruct (IH st n st' n' Hnd Hsh Hcons) as (? & ? & ? & ? & ? & ? & Hprog);
          [intros y Hy; apply Hzero; by right|done|].
        split_and!; try done.
        intros (u0 & [->|Hu0]%elem_of_cons & Hfree & Hreach); [congruence|].
        apply Hprog. by exists u0. }
    apply obind_Ok in Hrun as ([found st1] & Hcall & Hrun).
    assert (u ≠ leftSize g) as HuS.
    { apply zget_lt in Hm. destruct Hsh as [Hl _ _]. lia. }
    assert (dst st u = Some (Fin 0)) as Hdu by (apply Hzero; [left|done]).
    destruct (dfs_spec g fuel u st found st1 Hsh Hcons Hcall) as [_ Hpost].
    destruct (Hpost HuS 0%nat Hdu) as (Hsh1 & Hframe & Hres).
    destruct found.
    + destruct (augmented_top g st st1 u Hsh Hsh1 Hcons Hm Hres)
        as (Hcons1 & Hgrown1 & Hcount1 & Hfree1).
      destruct (IH st1 (n + 1) st' n' Hnd Hsh1 Hcons1) as (? & ? & ? & ? & ? & ? & _);
        [|done|].
      { intros y Hy Hfy. apply (frame_zero u st); [done|by intros ->|].
        apply Hzero; [by right|by apply Hfree1]. }
      split_and!; try done.
      * eapply erased_trans; [by eapply frame_erased|done].
      * by eapply grown_trans.
      * lia.
      * lia.
      * intros _. lia.
    + destruct Hres as (Hsame1 & Hsound1 & Hnreach).
      pose proof Hsame1 as [El Er].
      destruct (IH st1 n st' n' Hnd Hsh1 (consistent_same _ _ Hsame1 Hcons))
        as (? & ? & ? & ? & ? & ? & Hprog); [|done|].
      { intros y Hy Hfy. apply (frame_zero u st); [done|by intros ->|].
        apply Hzero; [by right|by rewrite <- El]. }
      split_and!; try done.
      * eapply erased_trans; [by eapply frame_erased|done].
      * eapply grown_trans; [|done]. intros y w Hy _. left. by rewrite <- El.
      * by rewrite <- El.
      * intros (u0 & [->|Hu0]%elem_of_cons & Hfree & Hreach); [done|].
        apply Hprog. exists u0. split_and!; try done; [by rewrite El|].
        by eapply reach_forward.
Qed.

(** A state left by a layering that found the sink. *)
Lemma bfs_true_reach g fuel st st' :
  shape g st → consistent st → bfs g fuel st = Ok (true, st') →
  ∃ u0, u0 ∈ seqZ 0 (leftSize g) ∧ mL st' u0 = Some NIL ∧ reach g st' u0.
Proof.
  intros Hsh Hcons Hrun.
  destruct (bfs_spec _ _ _ _ _ Hsh Hcons Hrun) as (_ & _ & Hlay & _ & j & Hj).
  destruct (layered_reach g st' Hlay j (leftSize g) Hj) as (u0 & [Hu0 Hfree] & Hreach);
    [constructor|].
  exists u0. split_and!; try done. apply elem_of_seqZ. lia.
Qed.

(** The [while] loop of [findMaximumMatching]. *)
Lemma phases_spec g fuel : ∀ rounds st n st' n',
  shape g st → consistent st →
  phases g fuel rounds st n = Ok (st', n') →
  shape g st' ∧ consistent st' ∧ grown g st st' ∧ stable g st'
  ∧ n' - n = matched_count (this_matchLeft st') - matched_count (this_matchLeft st)
  ∧ n ≤ n'.
Proof.
  induction rounds as [|rounds IH]; intros st n st' n' Hsh Hcons Hrun; [done|].
  simpl in Hrun.
  apply obind_Ok in Hrun as ([reachable st1] & Hbfs & Hrun).
  destruct (bfs_spec _ _ _ _ _ Hsh Hcons Hbfs) as (Hsh1 & Hsame1 & Hlay1 & Hzero1 & Hres).
  pose proof Hsame1 as [El Er].
  pose proof (consistent_same _ _ Hsame1 Hcons) as Hcons1.
  destruct reachable.
  - apply obind_Ok in Hrun as ([st2 n2] & Haug & Hrun).
    destruct (augment_spec g fuel (seqZ 0 (leftSize g)) st1 n st2 n2 (NoDup_seqZ _ _) Hsh1 Hcons1)
      as (Hsh2 & Hcons2 & _ & Hgrown2 & Hcount2 & Hle2 & _); [|done|].
    { intros y Hy Hfree. apply Hzero1. apply elem_of_seqZ in Hy.
      split; [lia|by rewrite <- El]. }
    destruct (IH _ _ _ _ Hsh2 Hcons2 Hrun) as (? & ? & ? & ? & ? & ?).
    split_and!; try done.
    + eapply grown_trans; [|done]. eapply grown_trans; [|done].
      intros y w Hy _. left. by rewrite <- El.
    + rewrite El in Hcount2. lia.
    + lia.
  - injection Hrun as <- <-. destruct Hres as [Hsink Hclosed].
    split_and!; try done.
    + intros y w Hy _. left. by rewrite <- El.
    + split; [done| |done].
      intros u [Hu Hfree]. exists 0%nat. apply Hzero1. split; [done|by rewrite <- El].
    + rewrite El. lia.
Qed.


(** * Termination: enough fuel always gives a result *)

Lemma read_total {A} (l : list A) i : 0 ≤ i < zlen l → ∃ a, read l i = Ok a.
Proof.
  intros Hi. destruct (zget_is_Some l i Hi) as [a Ha]. exists a. by apply read_Ok.
Qed.

Lemma write_dist_total g st i d :
  shape g st → 0 ≤ i ≤ leftSize g →
  ∃ st', write_dist st i d = Ok st' ∧ shape g st' ∧ same_matching st st'.
Proof.
  intros [Hl Hr Hd] Hi. eexists. split; [apply write_dist_Ok; split; [lia|done]|].
  split; [|done]. split; simpl; try done. by rewrite zlen_insert.
Qed.

Lemma write_dist_total_len st i d :
  0 ≤ i < zlen (this_dist st) → ∃ st', write_dist st i d = Ok st'.
Proof. intros Hi. eexists. by apply write_dist_Ok. Qed.

Lemma bfs_init_total g : ∀ us st q,
  shape g st → (∀ u, u ∈ us → 0 ≤ u < leftSize g) →
  ∃ st' q', bfs_init us st q = Ok (st', q')
            ∧ (length q' ≤ length q + length us)%nat.
Proof.
  induction us as [|u us IH]; intros st q Hsh Hus; simpl.
  - exists st, q. split; [done|lia].
  - assert (0 ≤ u < leftSize g) as Hu by (apply Hus; left).
    destruct (read_total (this_matchLeft st) u) as [m ->];
      [destruct Hsh as [-> _ _]; lia|]. simpl.
    destruct (decide (m = NIL)).
    + destruct (write_dist_total g st u (Fin 0) Hsh) as (st1 & -> & Hsh1 & _); [lia|].
      simpl. destruct (IH st1 (q ++ [u]) Hsh1) as (st' & q' & -> & Hlen).
      { intros y Hy. apply Hus. by right. }
      exists st', q'. split; [done|]. rewrite length_app in Hlen. simpl in Hlen. lia.
    + destruct (write_dist_total g st u Infinity Hsh) as (st1 & -> & Hsh1 & _); [lia|].
      simpl. destruct (IH st1 q Hsh1) as (st' & q' & -> & Hlen).
      { intros y Hy. apply Hus. by right. }
      exists st', q'. split; [done|]. lia.
Qed.

Lemma next_of_range g st v matchedU :
  shape g st → consistent st → mR st v = Some matchedU →
  0 ≤ next_of g matchedU ≤ leftSize g.
Proof.
  intros Hsh Hcons Hm. unfold next_of. destruct (decide (matchedU = NIL)).
  - pose proof (zget_lt _ _ _ Hm). destruct Hsh as [Hl _ _].
    pose proof (matched_count_range (this_matchLeft st)). lia.
  - destruct (matched_left_in_range _ _ _ _ Hsh Hm n Hcons). lia.
Qed.

Lemma bfs_row_total g u : ∀ row st q,
  shape g st → consistent st → 0 ≤ u ≤ leftSize g →
  ∃ r, bfs_row g u row st q = Ok r.
Proof.
  induction row as [|v row IH]; intros st q Hsh Hcons Hu; simpl; [by eexists|].
  destruct (right_invalid g v) eqn:Hinv; [by apply IH|].
  apply right_invalid_false in Hinv.
  destruct (read_total (this_matchRight st) v) as [m Hm];
    [destruct Hsh as [_ -> _]; lia|].
  rewrite Hm. simpl. apply read_Ok in Hm.
  pose proof (next_of_range _ _ _ _ Hsh Hcons Hm) as Hnext.
  destruct (read_total (this_dist st) (next_of g m)) as [d ->];
    [destruct Hsh as [_ _ ->]; lia|]. simpl.
  destruct (dist_eqb d Infinity); [|by apply IH].
  destruct (read_total (this_dist st) u) as [du ->];
    [destruct Hsh as [_ _ ->]; lia|]. simpl.
  destruct (write_dist_total g st (next_of g m) (dist_succ du) Hsh Hnext)
    as (st1 & -> & Hsh1 & Hsame1). simpl.
  pose proof (consistent_same _ _ Hsame1 Hcons).
  destruct (decide (m ≠ NIL)); by apply IH.
Qed.

Lemma bfs_loop_total g : well_formed g → ∀ fuel st q,
  bfs_inv g st q → queue_ok g st q →
  (length q + count_inf (this_dist st) < fuel)%nat →
  ∃ st', bfs_loop g fuel st q = Ok st'.
Proof.
  intros Hwf. induction fuel as [|fuel IH]; intros st q Hinv Hq Hfuel; [lia|].
  simpl. destruct q as [|u q]; [by eexists|].
  destruct (Hq u) as [Hu [k Hk]]; [left|].
  pose proof (bi_shape _ _ _ Hinv) as Hsh.
  pose proof (bi_consistent _ _ _ Hinv) as Hcons.
  assert (read (this_dist st) u = Ok (Fin k)) as -> by (by apply read_Ok). simpl.
  destruct (read_total (this_dist st) (leftSize g)) as [dsink Hds];
    [destruct Hsh as [_ _ ->], Hwf; lia|].
  rewrite Hds. simpl. apply read_Ok in Hds. simpl in Hfuel.
  destruct (dist_ltb (Fin k) dsink) eqn:Hlt.
  - destruct (zget_is_Some (edges g) u) as [row Hrow]; [destruct Hwf as [_ _ ->]; lia|].
    rewrite Hrow.
    destruct (bfs_row_total g u row st q Hsh Hcons) as [[st1 q1] Hrun]; [lia|].
    rewrite Hrun. simpl.
    destruct (bfs_expand _ _ _ _ _ _ _ _ Hinv Hq Hk Hrow Hrun)
      as (Hinv1 & Hq1 & _ & _ & Hmeasure).
    apply IH; try done. lia.
  - apply dist_ltb_Fin_false in Hlt as [j' ->].
    apply IH; [by eapply bfs_skip|intros y Hy; apply Hq; by right|lia].
Qed.

(** The layering phase returns. *)
Lemma bfs_total g fuel st :
  well_formed g → shape g st → consistent st →
  (2 * length (this_dist st) ≤ fuel)%nat →
  ∃ b st', bfs g fuel st = Ok (b, st').
Proof.
  intros Hwf Hsh Hcons Hfuel. unfold bfs.
  destruct (bfs_init_total g (seqZ 0 (leftSize g)) st [] Hsh)
    as (st1 & queue & Hinit & Hlen).
  { intros u Hu%elem_of_seqZ. lia. }
  rewrite Hinit. simpl.
  destruct (bfs_init_spec _ _ _ _ _ Hinit) as (Hsame1 & Hlen1 & _).
  assert (shape g st1) as Hsh1.
  { destruct Hsh, Hsame1 as [El Er]. split; congruence. }
  destruct (write_dist_total g st1 (leftSize g) Infinity Hsh1)
    as (st2 & Hwrite & Hsh2 & Hsame2); [destruct Hwf; lia|].
  rewrite Hwrite. simpl.
  destruct (bfs_start _ _ _ _ _ Hsh Hcons Hinit Hwrite) as (Hinv2 & Hq2 & _ & _).
  destruct (bfs_loop_total g Hwf fuel st2 queue Hinv2 Hq2) as [st3 Hloop].
  { pose proof (count_inf_le (this_dist st2)).
    rewrite length_seqZ in Hlen. simpl in Hlen.
    destruct Hsh as [_ _ Hd], Hsh2 as [_ _ Hd2], Hwf. unfold zlen in *. lia. }
  rewrite Hloop. simpl.
  destruct (bfs_loop_spec _ _ _ _ _ Hinv2 Hq2 Hloop) as ([Hsh3 _ _ _] & _ & _).
  destruct (read_total (this_dist st3) (leftSize g)) as [dsink ->];
    [destruct Hsh3 as [_ _ ->], Hwf; lia|].
  simpl. by eexists _, _.
Qed.

Lemma bounded_erased g st st' :
  shape g st → shape g st' → erased st st' → bounded st → bounded st'.
Proof.
  intros [_ _ Hd] [_ _ Hd'] He Hb x j Hx. specialize (Hb x j (He x j Hx)).
  unfold zlen in *. lia.
Qed.

Section dfs_row_total.
Context (g : BipartiteGraph) (k : nat).
Context (rec : Z → EngineState → outcome (bool * EngineState)).

Hypothesis Hrec : ∀ x st b st',
  shape g st → consistent st → rec x st = Ok (b, st') →
  (x = leftSize g → b = true ∧ st' = st)
  ∧ (x ≠ leftSize g → ∀ k, dst st x = Some (Fin k) → dfs_post g x k st b st').

Hypothesis Hrec_total : ∀ x st,
  shape g st → consistent st → bounded st →
  0 ≤ x ≤ leftSize g → dst st x = Some (Fin (S k)) →
  ∃ r, rec x st = Ok r.

Lemma dfs_row_total u : 0 ≤ u < leftSize g → ∀ row st,
  shape g st → consistent st → bounded st → dst st u = Some (Fin k) →
  ∃ r, dfs_row g rec u row st = Ok r.
Proof.
  intros Hu. induction row as [|v row IH]; intros st Hsh Hcons Hb Hdu; simpl.
  - destruct (write_dist_total g st u Infinity Hsh) as (st' & -> & _); [lia|].
    simpl. by eexists.
  - destruct (right_invalid g v) eqn:Hinv; [by apply IH|].
    apply right_invalid_false in Hinv.
    destruct (read_total (this_matchRight st) v) as [m Hm];
      [destruct Hsh as [_ -> _]; lia|].
    rewrite Hm. simpl. apply read_Ok in Hm.
    pose proof (next_of_range _ _ _ _ Hsh Hcons Hm) as Hnext.
    destruct (read_total (this_dist st) (next_of g m)) as [dnext Hdn];
      [destruct Hsh as [_ _ ->]; lia|].
    rewrite Hdn. simpl. apply read_Ok in Hdn.
    assert (read (this_dist st) u = Ok (Fin k)) as -> by (by apply read_Ok). simpl.
    destruct (dist_eqb dnext (Fin (S k))) eqn:Hcheck; [|by apply IH].
    apply dist_eqb_true in Hcheck. subst dnext.
    destruct (Hrec_total _ _ Hsh Hcons Hb Hnext Hdn) as [[found st1] Hcall].
    rewrite Hcall. simpl.
    destruct (Hrec _ _ _ _ Hsh Hcons Hcall) as [Hsink Hreal].
    assert (shape g st1 ∧ (found = false →
              same_matching st st1 ∧ dist_frame (next_of g m) (S k) st st1))
      as [Hsh1 Hfail].
    { destruct (decide (next_of g m = leftSize g)) as [Heq|Hne].
      - destruct (Hsink Heq) as [-> ->]. done.
      - destruct (Hreal Hne _ Hdn) as (? & ? & Hres). split; [done|].
        intros ->. destruct Hres as (? & _). done. }
    destruct found.
    + destruct Hsh1 as [Hl1 Hr1 Hd1].
      unfold write_matchRight, write_matchLeft, write. simpl.
      rewrite decide_True by lia. simpl.
      rewrite decide_True by lia. simpl. by eexists.
    + destruct (Hfail eq_refl) as [Hsame1 Hframe1].
      apply IH; try done.
      * by eapply consistent_same.
      * eapply bounded_erased; [exact Hsh|done| |done]. by eapply frame_erased.
      * destruct (Hframe1 u) as [->|(_ & j & Hj & [->|Hlt])]; [done| |].
        -- rewrite Hdu in Hdn. injection Hdn. lia.
        -- rewrite Hdu in Hj. injection Hj as <-. lia.
Qed.
End dfs_row_total.

(** The search returns when the fuel exceeds the number of layers left. *)
Lemma dfs_total g : well_formed g → ∀ fuel u st k,
  shape g st → consistent st → bounded st →
  0 ≤ u ≤ leftSize g → dst st u = Some (Fin k) →
  (length (this_dist st) < fuel + k)%nat →
  ∃ r, dfs g fuel u st = Ok r.
Proof.
  intros Hwf. induction fuel as [|fuel IH]; intros u st k Hsh Hcons Hb Hu Hk Hfuel.
  - specialize (Hb _ _ Hk). lia.
  - simpl. destruct (decide (u = leftSize g)); [by eexists|].
    destruct (zget_is_Some (edges g) u) as [row ->]; [destruct Hwf as [_ _ ->]; lia|].
    apply (dfs_row_total g k (dfs g fuel)); try done; [apply dfs_spec| |lia].
    intros x st0 Hsh0 Hcons0 Hb0 Hx Hdx. apply (IH x st0 (S k)); try done.
    destruct Hsh as [_ _ Hd], Hsh0 as [_ _ Hd0]. unfold zlen in *. lia.
Qed.

(** One call of [dfs] from a free vertex of layer 0, as the loop of
    [findMaximumMatching] makes it. *)
Lemma dfs_top g fuel u st found st1 :
  shape g st → consistent st → mL st u = Some NIL → dst st u = Some (Fin 0) →
  dfs g fuel u st = Ok (found, st1) →
  shape g st1 ∧ consistent st1 ∧ erased st st1
  ∧ (∀ y, mL st1 y = Some NIL → mL st y = Some NIL)
  ∧ (∀ y, y ≠ u → dst st y = Some (Fin 0) → dst st1 y = Some (Fin 0)).
Proof.
  intros Hsh Hcons Hfree Hdu Hcall.
  assert (u ≠ leftSize g) as HuS.
  { apply zget_lt in Hfree. destruct Hsh as [Hl _ _]. lia. }
  destruct (dfs_spec g fuel u st found st1 Hsh Hcons Hcall) as [_ Hpost].
  destruct (Hpost HuS 0%nat Hdu) as (Hsh1 & Hframe & Hres).
  assert (consistent st1 ∧ (∀ y, mL st1 y = Some NIL → mL st y = Some NIL)) as [? ?].
  { destruct found.
    - destruct (augmented_top g st st1 u Hsh Hsh1 Hcons Hfree Hres) as (? & _ & _ & ?).
      done.
    - destruct Hres as (Hsame & _). split; [by eapply consistent_same|].
      destruct Hsame as [-> _]. done. }
  split_and!; try done.
  - by eapply frame_erased.
  - intros y Hy Hz. by eapply frame_zero.
Qed.

Lemma augment_total g fuel : well_formed g → ∀ us st n,
  NoDup us → (∀ u, u ∈ us → 0 ≤ u < leftSize g) →
  shape g st → consistent st → bounded st →
  (∀ y, y ∈ us → mL st y = Some NIL → dst st y = Some (Fin 0)) →
  (length (this_dist st) < fuel)%nat →
  ∃ r, augment g fuel us st n = Ok r.
Proof.
  intros Hwf. induction us as [|u us IH];
    intros st n Hnd Hus Hsh Hcons Hb Hzero Hfuel; simpl; [by eexists|].
  apply NoDup_cons in Hnd as [Hu_notin Hnd].
  assert (0 ≤ u < leftSize g) as Hu by (apply Hus; left).
  assert (Hus' : ∀ y, y ∈ us → 0 ≤ y < leftSize g) by (intros y Hy; apply Hus; by right).
  destruct (read_total (this_matchLeft st) u) as [m Hm];
    [destruct Hsh as [-> _ _]; lia|].
  rewrite Hm. simpl. apply read_Ok in Hm.
  destruct (decide (m = NIL)) as [->|].
  2:{ apply IH; try done. intros y Hy. apply Hzero. by right. }
  assert (dst st u = Some (Fin 0)) as Hdu by (apply Hzero; [left|done]).
  destruct (dfs_total g Hwf fuel u st 0%nat Hsh Hcons Hb) as [[found st1] Hcall];
    [lia|done|lia|].
  rewrite Hcall. simpl.
  destruct (dfs_top _ _ _ _ _ _ Hsh Hcons Hm Hdu Hcall) as (Hsh1 & Hcons1 & Her & Hfree1 & Hz1).
  assert (Hnext : ∀ n', ∃ r, augment g fuel us st1 n' = Ok r).
  { intros n'. apply IH; try done.
    - by apply (bounded_erased g st st1).
    - intros y Hy Hfy. apply Hz1; [by intros ->|].
      apply Hzero; [by right|by apply Hfree1].
    - destruct Hsh as [_ _ Hd], Hsh1 as [_ _ Hd1]. unfold zlen in *. lia. }
  destruct found; apply Hnext.
Qed.

Lemma layered_bounded g st : layered g st → bounded st.
Proof. intros [_ _ Hb] x j Hx. specialize (Hb x j Hx). lia. Qed.

(** The [while] loop of [findMaximumMatching] returns: every round that does
    not stop matches one more left vertex. *)
Lemma phases_total g fuel : well_formed g → ∀ rounds st n,
  shape g st → consistent st →
  (2 * length (this_dist st) ≤ fuel)%nat →
  (Z.to_nat (leftSize g) < rounds + Z.to_nat (matched_count (this_matchLeft st)))%nat →
  ∃ r, phases g fuel rounds st n = Ok r.
Proof.
  intros Hwf. induction rounds as [|rounds IH]; intros st n Hsh Hcons Hfuel Hrounds.
  - pose proof (matched_count_range (this_matchLeft st)).
    destruct Hsh as [Hl _ _]. lia.
  - simpl. destruct (bfs_total g fuel st Hwf Hsh Hcons Hfuel) as (b & st1 & Hbfs).
    rewrite Hbfs. simpl.
    destruct (bfs_spec _ _ _ _ _ Hsh Hcons Hbfs) as (Hsh1 & Hsame1 & Hlay1 & Hzero1 & _).
    pose proof Hsame1 as [El Er].
    pose proof (consistent_same _ _ Hsame1 Hcons) as Hcons1.
    destruct b; [|by eexists].
    assert (Hz : ∀ y, y ∈ seqZ 0 (leftSize g) → mL st1 y = Some NIL →
                      dst st1 y = Some (Fin 0)).
    { intros y Hy Hfree. apply Hzero1. apply elem_of_seqZ in Hy.
      split; [lia|by rewrite <- El]. }
    assert (length (this_dist st1) = length (this_dist st)) as Hlen.
    { destruct Hsh as [_ _ Hd], Hsh1 as [_ _ Hd1]. unfold zlen in *. lia. }
    destruct (augment_total g fuel Hwf (seqZ 0 (leftSize g)) st1 n) as [[st2 n2] Haug];
      try done.
    { apply NoDup_seqZ. }
    { intros u Hu%elem_of_seqZ. lia. }
    { by apply (layered_bounded g). }
    { assert (0 < length (this_dist st))%nat; [|lia].
      destruct Hsh as [_ _ Hd], Hwf. unfold zlen in *. lia. }
    rewrite Haug. simpl.
    destruct (augment_spec g fuel (seqZ 0 (leftSize g)) st1 n st2 n2
                (NoDup_seqZ _ _) Hsh1 Hcons1 Hz Haug)
      as (Hsh2 & Hcons2 & _ & _ & Hcount & _ & Hprog).
    specialize (Hprog (bfs_true_reach _ _ _ _ Hsh Hcons Hbfs)).
    apply IH; try done.
    + destruct Hsh2 as [_ _ Hd2], Hsh as [_ _ Hd]. unfold zlen in *. lia.
    + rewrite El in Hcount.
      pose proof (matched_count_range (this_matchLeft st)).
      pose proof (matched_count_range (this_matchLeft st2)). lia.
Qed.

(** Every engine state that keeps the constructor's array lengths and a
    consistent matching lets [findMaximumMatching] return. *)
Lemma findMaximumMatching_returns fuel this :
  well_formed (graph this) → shape (graph this) (state this) →
  consistent (state this) → (enough_fuel (graph this) ≤ fuel)%nat →
  ∃ M this', findMaximumMatching fuel this = Ok (M, this').
Proof.
  intros Hwf Hsh Hcons Hfuel. unfold findMaximumMatching, enough_fuel in *.
  destruct (phases_total (graph this) fuel Hwf fuel (state this) 0 Hsh Hcons)
    as [[st n] ->].
  - destruct Hsh as [_ _ Hd], Hwf. unfold zlen in *. lia.
  - pose proof (matched_count_range (this_matchLeft (state this))).
    destruct Hwf. lia.
  - simpl. by eexists _, _.
Qed.


(** * More fuel never changes a result *)

Lemma dfs_row_mono g rec rec' :
  (∀ x st r, rec x st = Ok r → rec' x st = Ok r) →
  ∀ u row st r, dfs_row g rec u row st = Ok r → dfs_row g rec' u row st = Ok r.
Proof.
  intros Hrec u. induction row as [|v row IH]; intros st r; simpl; [done|].
  destruct (right_invalid g v); [apply IH|].
  destruct (read (this_matchRight st) v) as [m|]; simpl; [|done].
  destruct (read (this_dist st) (next_of g m)) as [dn|]; simpl; [|done].
  destruct (read (this_dist st) u) as [du|]; simpl; [|done].
  destruct (dist_eqb dn (dist_succ du)); [|apply IH].
  destruct (rec (next_of g m) st) as [[found st1]|] eqn:Hcall; simpl; [|done].
  rewrite (Hrec _ _ _ Hcall). simpl. destruct found; [done|apply IH].
Qed.

Lemma dfs_mono g : ∀ fuel fuel' u st r,
  (fuel ≤ fuel')%nat → dfs g fuel u st = Ok r → dfs g fuel' u st = Ok r.
Proof.
  induction fuel as [|fuel IH]; intros fuel' u st r Hle; [done|].
  destruct fuel' as [|fuel']; [lia|]. simpl.
  destruct (decide (u = leftSize g)); [done|].
  destruct (zget (edges g) u); [|done].
  apply dfs_row_mono. intros x st0 r0. apply IH. lia.
Qed.

Lemma bfs_loop_mono g : ∀ fuel fuel' st q r,
  (fuel ≤ fuel')%nat → bfs_loop g fuel st q = Ok r → bfs_loop g fuel' st q = Ok r.
Proof.
  induction fuel as [|fuel IH]; intros fuel' st q r Hle; [done|].
  destruct fuel' as [|fuel']; [lia|]. simpl.
  destruct q as [|u q]; [done|].
  destruct (read (this_dist st) u) as [du|]; simpl; [|done].
  destruct (read (this_dist st) (leftSize g)) as [ds|]; simpl; [|done].
  destruct (dist_ltb du ds); [|apply IH; lia].
  destruct (zget (edges g) u); [|done].
  destruct (bfs_row g u l st q) as [[st1 q1]|]; simpl; [|done].
  apply IH. lia.
Qed.

Lemma bfs_mono g fuel fuel' st r :
  (fuel ≤ fuel')%nat → bfs g fuel st = Ok r → bfs g fuel' st = Ok r.
Proof.
  intros Hle. unfold bfs.
  destruct (bfs_init (seqZ 0 (leftSize g)) st []) as [[st1 q]|]; simpl; [|done].
  destruct (write_dist st1 (leftSize g) Infinity) as [st2|]; simpl; [|done].
  destruct (bfs_loop g fuel st2 q) as [st3|] eqn:Hloop; simpl; [|done].
  by rewrite (bfs_loop_mono g fuel fuel' st2 q st3 Hle Hloop).
Qed.

Lemma augment_mono g fuel fuel' : (fuel ≤ fuel')%nat →
  ∀ us st n r, augment g fuel us st n = Ok r → augment g fuel' us st n = Ok r.
Proof.
  intros Hle. induction us as [|u us IH]; intros st n r; simpl; [done|].
  destruct (read (this_matchLeft st) u) as [m|]; simpl; [|done].
  destruct (decide (m = NIL)); [|apply IH].
  destruct (dfs g fuel u st) as [[found st1]|] eqn:Hcall; simpl; [|done].
  rewrite (dfs_mono g fuel fuel' u st _ Hle Hcall). simpl.
  destruct found; apply IH.
Qed.

Lemma phases_mono g fuel fuel' : (fuel ≤ fuel')%nat →
  ∀ rounds rounds' st n r, (rounds ≤ rounds')%nat →
    phases g fuel rounds st n = Ok r → phases g fuel' rounds' st n = Ok r.
Proof.
  intros Hle. induction rounds as [|rounds IH]; intros rounds' st n r Hr; [done|].
  destruct rounds' as [|rounds']; [lia|]. simpl.
  destruct (bfs g fuel st) as [[b st1]|] eqn:Hbfs; simpl; [|done].
  rewrite (bfs_mono g fuel fuel' st _ Hle Hbfs). simpl.
  destruct b; [|done].
  destruct (augment g fuel (seqZ 0 (leftSize g)) st1 n) as [[st2 n2]|] eqn:Haug;
    simpl; [|done].
  rewrite (augment_mono g fuel fuel' Hle _ _ _ _ Haug). simpl.
  apply IH. lia.
Qed.

Lemma findMaximumMatching_mono fuel fuel' this r :
  (fuel ≤ fuel')%nat →
  findMaximumMatching fuel this = Ok r → findMaximumMatching fuel' this = Ok r.
Proof.
  intros Hle. unfold findMaximumMatching.
  destruct (phases (graph this) fuel fuel (state this) 0) as [[st n]|] eqn:Hrun;
    simpl; [|done].
  by rewrite (phases_mono _ fuel fuel' Hle fuel fuel' _ _ _ Hle Hrun).
Qed.

(** The result does not depend on the fuel that produced it. *)
Lemma findMaximumMatching_fuel_independent fuel1 fuel2 this r1 r2 :
  findMaximumMatching fuel1 this = Ok r1 →
  findMaximumMatching fuel2 this = Ok r2 →
  r1 = r2.
Proof.
  intros H1 H2.
  apply (findMaximumMatching_mono fuel1 (fuel1 `max` fuel2)) in H1; [|lia].
  apply (findMaximumMatching_mono fuel2 (fuel1 `max` fuel2)) in H2; [|lia].
  congruence.
Qed.


(** * Engines: what the public methods keep *)

Lemma new_HopcroftKarp_Ok g this :
  new_HopcroftKarp g = Ok this ↔
  0 ≤ leftSize g ∧ 0 ≤ rightSize g
  ∧ this = {| graph := g;
              state := {| this_matchLeft := replicate (Z.to_nat (leftSize g)) NIL;
                          this_matchRight := replicate (Z.to_nat (rightSize g)) NIL;
                          this_dist := replicate (Z.to_nat (leftSize g + 1)) (Fin 0) |} |}.
Proof.
  unfold new_HopcroftKarp, new_Array.
  destruct (decide (0 ≤ leftSize g)); simpl; [|split; [done|lia]].
  destruct (decide (0 ≤ rightSize g)); simpl; [|split; [done|lia]].
  rewrite decide_True by lia. simpl. split.
  - by intros [= <-].
  - by intros (_ & _ & ->).
Qed.

Lemma matched_count_replicate n : matched_count (replicate n NIL) = 0.
Proof.
  induction n as [|n IH]; [done|]. simpl. rewrite matched_count_cons, IH.
  by rewrite decide_True.
Qed.

Lemma new_engine_ok g this :
  well_formed g → new_HopcroftKarp g = Ok this →
  graph this = g ∧ engine_ok this ∧ in_graph g (state this)
  ∧ matched_count (this_matchLeft (state this)) = 0.
Proof.
  intros Hwf (Hl & Hr & ->)%new_HopcroftKarp_Ok. simpl.
  split_and!; try done.
  - split; simpl; [done| |].
    + split; unfold zlen; simpl; rewrite length_replicate; lia.
    + split; intros a b Hab Hb; simpl in Hab; apply zget_replicate in Hab as [-> _]; done.
  - intros u v Huv Hv. simpl in Huv. apply zget_replicate in Huv as [-> _]. done.
  - apply matched_count_replicate.
Qed.

Lemma findMaximumMatching_Ok fuel this M this' :
  findMaximumMatching fuel this = Ok (M, this') ↔
  ∃ st n, phases (graph this) fuel fuel (state this) 0 = Ok (st, n)
          ∧ M = {| matchLeft := this_matchLeft st;
                   matchRight := this_matchRight st;
                   size := n |}
          ∧ this' = {| graph := graph this; state := st |}.
Proof.
  unfold findMaximumMatching. rewrite obind_Ok. split.
  - intros ([st n] & Hrun & [= <- <-]). by exists st, n.
  - intros (st & n & Hrun & -> & ->). by exists (st, n).
Qed.

Lemma findPerfectMatching_Ok fuel this r this' :
  findPerfectMatching fuel this = Ok (r, this') →
  ∃ M, findMaximumMatching fuel this = Ok (M, this').
Proof.
  unfold findPerfectMatching. intros ([M this1] & Hrun & Hres)%obind_Ok.
  exists M. destruct (decide _); injection Hres as <- <-; done.
Qed.

(** One call, from an engine in good order. *)
Lemma findMaximumMatching_spec fuel this M this' :
  engine_ok this → findMaximumMatching fuel this = Ok (M, this') →
  graph this' = graph this ∧ engine_ok this'
  ∧ grown (graph this) (state this) (state this')
  ∧ stable (graph this) (state this')
  ∧ matchLeft M = this_matchLeft (state this')
  ∧ matchRight M = this_matchRight (state this')
  ∧ size M = matched_count (this_matchLeft (state this'))
             - matched_count (this_matchLeft (state this))
  ∧ 0 ≤ size M.
Proof.
  intros [Hwf Hsh Hcons] (st & n & Hrun & -> & ->)%findMaximumMatching_Ok. simpl.
  destruct (phases_spec _ _ _ _ _ _ _ Hsh Hcons Hrun) as (? & ? & ? & ? & ? & ?).
  split_and!; try done. lia.
Qed.

Lemma reachable_ok this : reachable this → engine_ok this.
Proof.
  induction 1 as [g this Hwf Hnew|fuel this M this' _ IH Hcall
                 |fuel this r this' _ IH Hcall|this rows _ IH Hrows].
  - destruct (new_engine_ok _ _ Hwf Hnew) as (_ & ? & _). done.
  - by destruct (findMaximumMatching_spec _ _ _ _ IH Hcall) as (_ & ? & _).
  - destruct (findPerfectMatching_Ok _ _ _ _ Hcall) as [M HM].
    by destruct (findMaximumMatching_spec _ _ _ _ IH HM) as (_ & ? & _).
  - destruct IH as [[Hl Hr _] [Hsl Hsr Hsd] Hcons]. split; simpl; [|done|done].
    split; simpl; done.
Qed.

Lemma after_calls_ok g this :
  well_formed g → after_calls g this →
  graph this = g ∧ engine_ok this ∧ in_graph g (state this).
Proof.
  intros Hwf. induction 1 as [this Hnew|fuel this M this' _ IH Hcall
                             |fuel this r this' _ IH Hcall].
  - destruct (new_engine_ok _ _ Hwf Hnew) as (? & ? & ? & _). done.
  - destruct IH as (<- & Hok & Hin).
    destruct (findMaximumMatching_spec _ _ _ _ Hok Hcall) as (? & ? & Hgrown & _).
    split_and!; try done.
    intros u v Huv Hv. destruct (Hgrown u v Huv Hv); [by apply Hin|done].
  - destruct IH as (<- & Hok & Hin).
    destruct (findPerfectMatching_Ok _ _ _ _ Hcall) as [M HM].
    destruct (findMaximumMatching_spec _ _ _ _ Hok HM) as (? & ? & Hgrown & _).
    split_and!; try done.
    intros u v Huv Hv. destruct (Hgrown u v Huv Hv); [by apply Hin|done].
Qed.


(** * Counting with positions *)

Lemma filter_ext_in {A} (P Q : A → Prop) `{∀ x, Decision (P x)} `{∀ x, Decision (Q x)}
    (l : list A) :
  (∀ x, x ∈ l → (P x ↔ Q x)) → filter P l = filter Q l.
Proof.
  induction l as [|x l IH]; intros Hl; [done|].
  rewrite !filter_cons.
  rewrite IH by (intros y Hy; apply Hl; by right).
  destruct (decide (P x)) as [HP|HP], (decide (Q x)) as [HQ|HQ]; try done;
    exfalso; apply (Hl x) in HP || apply (Hl x) in HQ; try done; left.
Qed.

Lemma zget_snoc_last {A} (l : list A) x : zget (l ++ [x]) (zlen l) = Some x.
Proof. unfold zlen. rewrite zget_nat. by apply list_lookup_middle. Qed.

Lemma zget_snoc_before {A} (l : list A) x i :
  0 ≤ i < zlen l → zget (l ++ [x]) i = zget l i.
Proof.
  unfold zlen, zget. intros Hi. rewrite !decide_True by lia.
  apply lookup_app_l. lia.
Qed.

Lemma matched_positions_count l :
  Z.of_nat (length (matched_positions l)) = matched_count l.
Proof.
  unfold matched_positions, matched_count.
  induction l as [|x l IH] using rev_ind; [done|].
  assert (zlen (l ++ [x]) = Z.of_nat (S (length l))) as ->.
  { unfold zlen. rewrite length_app. simpl. lia. }
  rewrite seqZ_S, !filter_app, !length_app, !Nat2Z.inj_add.
  rewrite <- IH. f_equal.
  - do 2 f_equal. apply filter_ext_in. intros u Hu%elem_of_seqZ.
    fold (zlen l) in Hu. rewrite zget_snoc_before by lia. done.
  - simpl. fold (zlen l). rewrite !filter_cons, !filter_nil.
    rewrite Z.add_0_l, zget_snoc_last.
    destruct (decide (Some x ≠ Some NIL)) as [H1|H1], (decide (x ≠ NIL)) as [H2|H2];
      try done; exfalso.
    + apply H2. by intros ->.
    + apply H1. by intros [= ->].
Qed.

Lemma elem_of_matched_positions l u :
  u ∈ matched_positions l ↔ ∃ v, zget l u = Some v ∧ v ≠ NIL.
Proof.
  unfold matched_positions. rewrite list_elem_of_filter, elem_of_seqZ. split.
  - intros [Hne Hu]. destruct (zget_is_Some l u) as [v Hv]; [lia|].
    exists v. split; [done|]. congruence.
  - intros (v & Hv & Hne). split; [congruence|]. apply zget_lt in Hv. lia.
Qed.

Lemma NoDup_matched_positions l : NoDup (matched_positions l).
Proof. apply NoDup_filter, NoDup_seqZ. Qed.

(** If [b] inverts [a] on the non-sentinel entries of [a], then [b] has at
    least as many non-sentinel entries. *)
Lemma matched_count_le (a b : list Z) :
  (∀ i x, zget a i = Some x → x ≠ NIL → zget b x = Some i) →
  matched_count a ≤ matched_count b.
Proof.
  intros Hinv. rewrite <- !matched_positions_count.
  apply inj_le.
  rewrite <- (length_fmap (λ u, default NIL (zget a u)) (matched_positions a)).
  apply submseteq_length, NoDup_submseteq.
  - apply NoDup_fmap_2_strong; [|apply NoDup_matched_positions].
    intros u u' (v & Hv & Hne)%elem_of_matched_positions
      (v' & Hv' & Hne')%elem_of_matched_positions.
    rewrite Hv, Hv'. simpl. intros <-.
    pose proof (Hinv _ _ Hv Hne). pose proof (Hinv _ _ Hv' Hne'). congruence.
  - intros x (u & -> & (v & Hv & Hne)%elem_of_matched_positions)%list_elem_of_fmap.
    rewrite Hv. simpl. apply elem_of_matched_positions.
    exists u. split; [by apply Hinv|].
    apply zget_lt in Hv. unfold NIL. lia.
Qed.

(** A consistent matching has as many matched right vertices as matched
    left vertices, and no more than either side has vertices. *)
Lemma consistent_count g st :
  shape g st → consistent st →
  matched_count (this_matchRight st) = matched_count (this_matchLeft st)
  ∧ matched_count (this_matchLeft st) ≤ Z.min (leftSize g) (rightSize g).
Proof.
  intros [Hl Hr _] [H1 H2].
  pose proof (matched_count_le _ _ H1). pose proof (matched_count_le _ _ H2).
  pose proof (matched_count_range (this_matchLeft st)).
  pose proof (matched_count_range (this_matchRight st)). lia.
Qed.

(** * A stable state holds a maximum matching *)

Lemma edge_left_range g u v : well_formed g → edge g u v → 0 ≤ u < leftSize g.
Proof.
  intros [_ _ Hrows] (row & Hrow & _). apply zget_lt in Hrow. lia.
Qed.

(** In a stable state, the partner of a neighbour of a layered vertex exists
    and is layered. *)
Lemma stable_step g st u j v :
  stable g st → 0 ≤ u < leftSize g → dst st u = Some (Fin j) → edge g u v →
  ∃ m j', mR st v = Some m ∧ m ≠ NIL ∧ dst st m = Some (Fin j').
Proof.
  intros [Hsink _ Hclosed] Hu Hj Hedge.
  destruct (Hclosed u j Hu Hj v Hedge) as (m & j' & Hm & Hj').
  exists m, j'. destruct (decide (m = NIL)) as [->|Hne].
  - rewrite next_of_NIL in Hj'. congruence.
  - rewrite next_of_matched in Hj' by done. done.
Qed.

Lemma NoDup_fst_inj {A B} (l : list (A * B)) x y1 y2 :
  NoDup l.*1 → (x, y1) ∈ l → (x, y2) ∈ l → y1 = y2.
Proof.
  induction l as [|[a b] l IH]; simpl; intros Hnd H1 H2.
  - by apply not_elem_of_nil in H1.
  - apply NoDup_cons in Hnd as [Hnotin Hnd].
    apply elem_of_cons in H1 as [H1|H1], H2 as [H2|H2]; simplify_eq; try done.
    + exfalso. apply Hnotin. apply list_elem_of_fmap. by eexists (_, _).
    + exfalso. apply Hnotin. apply list_elem_of_fmap. by eexists (_, _).
    + by apply IH.
Qed.

Lemma NoDup_snd_inj {A B} (l : list (A * B)) x1 x2 y :
  NoDup l.*2 → (x1, y) ∈ l → (x2, y) ∈ l → x1 = x2.
Proof.
  induction l as [|[a b] l IH]; simpl; intros Hnd H1 H2.
  - by apply not_elem_of_nil in H1.
  - apply NoDup_cons in Hnd as [Hnotin Hnd].
    apply elem_of_cons in H1 as [H1|H1], H2 as [H2|H2]; simplify_eq; try done.
    + exfalso. apply Hnotin. apply list_elem_of_fmap. by eexists (_, _).
    + exfalso. apply Hnotin. apply list_elem_of_fmap. by eexists (_, _).
    + by apply IH.
Qed.

(** No matching of the graph has more pairs than the matching of a stable
    state: each of its pairs is charged to a different matched left vertex. *)
Lemma stable_maximum g st pairs :
  well_formed g → shape g st → consistent st → stable g st →
  is_matching g pairs →
  Z.of_nat (length pairs) ≤ matched_count (this_matchLeft st).
Proof.
  intros Hwf Hsh Hcons Hstable [Hedges Hleft Hright].
  pose proof Hcons as [H1 H2].
  rewrite <- matched_positions_count. apply inj_le.
  rewrite <- (length_fmap (charge st) pairs).
  assert (Hcharge : ∀ u v, (u, v) ∈ pairs →
            (∃ j m j', dst st u = Some (Fin j) ∧ mR st v = Some m ∧ m ≠ NIL
                       ∧ dst st m = Some (Fin j') ∧ charge st (u, v) = m)
            ∨ ((∀ j, dst st u ≠ Some (Fin j)) ∧ charge st (u, v) = u
               ∧ ∃ w, mL st u = Some w ∧ w ≠ NIL)).
  { intros u v Huv. pose proof (Hedges u v Huv) as Hedge.
    pose proof (edge_left_range g u v Hwf Hedge) as Hu.
    unfold charge. simpl.
    destruct (dst st u) as [[j|]|] eqn:Hd.
    - left. destruct (stable_step g st u j v Hstable Hu Hd Hedge) as (m & j' & Hm & ? & ?).
      exists j, m, j'. rewrite Hm. done.
    - right. split_and!; try done.
      destruct (zget_is_Some (this_matchLeft st) u) as [w Hw];
        [destruct Hsh as [-> _ _]; lia|].
      exists w. split; [done|]. intros ->.
      destruct (stable_free g st Hstable u) as [j Hj]; [done|congruence].
    - right. split_and!; try done.
      destruct (zget_is_Some (this_matchLeft st) u) as [w Hw];
        [destruct Hsh as [-> _ _]; lia|].
      exists w. split; [done|]. intros ->.
      destruct (stable_free g st Hstable u) as [j Hj]; [done|congruence]. }
  apply submseteq_length, NoDup_submseteq.
  - apply NoDup_fmap_2_strong; [|by eapply NoDup_fmap_1].
    intros [u1 v1] [u2 v2] Hp1 Hp2 Heq.
    destruct (Hcharge _ _ Hp1) as [(j1 & m1 & j1' & Hd1 & Hm1 & Hn1 & Hl1 & Hc1)
                                  |(Hd1 & Hc1 & _)],
             (Hcharge _ _ Hp2) as [(j2 & m2 & j2' & Hd2 & Hm2 & Hn2 & Hl2 & Hc2)
                                  |(Hd2 & Hc2 & _)];
      rewrite Hc1, Hc2 in Heq; subst.
    + assert (v1 = v2) as ->.
      { pose proof (H2 _ _ Hm1 Hn1). pose proof (H2 _ _ Hm2 Hn2). congruence. }
      f_equal. by eapply NoDup_snd_inj.
    + by destruct (Hd2 j1').
    + by destruct (Hd1 j2').
    + f_equal. by eapply NoDup_fst_inj.
  - intros x ([u v] & -> & Huv)%list_elem_of_fmap.
    apply elem_of_matched_positions.
    destruct (Hcharge _ _ Huv) as [(j & m & j' & Hd & Hm & Hn & Hl & ->)|(Hd & -> & Hw)].
    + exists v. split; [by apply H2|].
      apply zget_lt in Hm. unfold NIL. lia.
    + done.
Qed.

(** Every left vertex on an alternating walk is layered in a stable state,
    so no such walk ends in a free right vertex. *)
Lemma stable_no_augmenting_path g st M :
  well_formed g → stable g st →
  matchLeft M = this_matchLeft st → matchRight M = this_matchRight st →
  ¬ augmenting_path g M.
Proof.
  intros Hwf Hstable El Er (u & v & Halt & Hedge & Hfree).
  assert (∃ j, dst st u = Some (Fin j)) as [j Hj].
  { clear v Hedge Hfree. induction Halt as [u Hu Hfree|u v u' _ [j Hj] Hedge Hv Hne].
    - apply (stable_free g st Hstable). split; [done|]. by rewrite <- El.
    - pose proof (edge_left_range g u v Hwf Hedge) as Hu.
      destruct (stable_step g st u j v Hstable Hu Hj Hedge) as (m & j' & Hm & _ & Hj').
      rewrite Er in Hv. exists j'. congruence. }
  pose proof (edge_left_range g u v Hwf Hedge) as Hu.
  destruct (stable_step g st u j v Hstable Hu Hj Hedge) as (m & j' & Hm & Hne & _).
  rewrite Er in Hfree. congruence.
Qed.


(** * The returned matching is a maximum matching *)

(** A graph built with non-negative sizes is a graph of the data model. *)
Lemma createBipartiteGraph_well_formed l r es o g :
  createBipartiteGraph l r es o = Ok g → 0 ≤ l → 0 ≤ r → well_formed g.
Proof.
  unfold createBipartiteGraph. intros Hrun Hl Hr.
  destruct (default true (validateInput o) && (l <? 0)); [done|].
  destruct (default true (validateInput o) && (r <? 0)); [done|].
  apply obind_Ok in Hrun as (adj & Hlen%add_edges_length & [= <-]).
  rewrite length_replicate in Hlen.
  split; simpl; [done|done|]. unfold zlen. lia.
Qed.

(** The pairs of a valid matching form a matching of the graph, with as
    many pairs as [matchLeft] has non-sentinel entries. *)
Lemma pairs_of_matching g M :
  valid_matching g M →
  is_matching g (pairs_of M)
  ∧ Z.of_nat (length (pairs_of M)) = matched_count (matchLeft M)
  ∧ ∀ u v, (u, v) ∈ pairs_of M ↔ (zget (matchLeft M) u = Some v ∧ v ≠ NIL).
Proof.
  intros [_ _ Hleft Hright].
  assert (Hin : ∀ u v, (u, v) ∈ pairs_of M ↔ (zget (matchLeft M) u = Some v ∧ v ≠ NIL)).
  { intros u v. unfold pairs_of. rewrite list_elem_of_fmap. split.
    - intros (u' & [= <- ->] & (w & Hw & Hne)%elem_of_matched_positions).
      rewrite Hw. done.
    - intros [Hv Hne]. exists u. rewrite Hv. split; [done|].
      apply elem_of_matched_positions. by exists v. }
  split_and!; [split| |done].
  - intros u v [Hv Hne]%Hin. by destruct (Hleft u v Hv Hne).
  - assert ((pairs_of M).*1 = matched_positions (matchLeft M)) as ->.
    { unfold pairs_of. induction (matched_positions (matchLeft M)) as [|? ? IH];
        [done|]. rewrite !fmap_cons. simpl. by rewrite IH. }
    apply NoDup_matched_positions.
  - unfold pairs_of. rewrite <- list_fmap_compose.
    apply NoDup_fmap_2_strong; [|apply NoDup_matched_positions].
    intros u u' (v & Hv & Hne)%elem_of_matched_positions
      (v' & Hv' & Hne')%elem_of_matched_positions. simpl.
    rewrite Hv, Hv'. simpl. intros <-.
    destruct (Hleft u v Hv Hne) as [? _], (Hleft u' v Hv' Hne') as [? _]. congruence.
  - unfold pairs_of. rewrite length_fmap. apply matched_positions_count.
Qed.

Lemma engine_valid_matching g this M :
  graph this = g → engine_ok this → in_graph g (state this) →
  matchLeft M = this_matchLeft (state this) →
  matchRight M = this_matchRight (state this) →
  valid_matching g M.
Proof.
  intros <- [Hwf [Hl Hr _] [H1 H2]] Hin El Er.
  split; rewrite ?El, ?Er; try done.
  intros u v Hv Hne. split; [by apply H1|by apply Hin].
Qed.

(** C1. On a graph of the data model (in particular one built by
    [createBipartiteGraph] with non-negative sizes), every call of
    [findMaximumMatching] on an engine over the unchanged graph returns, and
    the matching it returns is a matching of the graph of maximum
    cardinality: it admits no augmenting path, and no matching of the graph
    has more pairs.  On a new engine the reported [size] is that maximum. *)
Theorem findMaximumMatching_maximum g this :
  well_formed g → after_calls g this →
  (∃ fuel M this', findMaximumMatching fuel this = Ok (M, this'))
  ∧ ∀ fuel M this', findMaximumMatching fuel this = Ok (M, this') →
      valid_matching g M
      ∧ is_matching g (pairs_of M)
      ∧ ¬ augmenting_path g M
      ∧ (∀ pairs, is_matching g pairs →
                  (length pairs ≤ length (pairs_of M))%nat)
      ∧ (new_HopcroftKarp g = Ok this → size M = Z.of_nat (length (pairs_of M))).
Proof.
  intros Hwf Hafter.
  destruct (after_calls_ok g this Hwf Hafter) as (Hg & Hok & Hin).
  split.
  { exists (enough_fuel (graph this)).
    destruct Hok. by apply findMaximumMatching_returns. }
  intros fuel M this' Hcall.
  destruct (findMaximumMatching_spec _ _ _ _ Hok Hcall)
    as (Hg' & Hok' & Hgrown & Hstable & El & Er & Hsize & _).
  rewrite Hg in *.
  assert (valid_matching g M) as Hvalid.
  { apply (engine_valid_matching g this'); try done.
    intros u v Huv Hv. destruct (Hgrown u v Huv Hv); [by apply Hin|done]. }
  destruct (pairs_of_matching g M Hvalid) as (Hpairs & Hlen & _).
  destruct Hok' as [_ Hsh' Hcons']. rewrite Hg' in Hsh'.
  split_and!; try done.
  - by apply (stable_no_augmenting_path g (state this')).
  - intros pairs Hp.
    pose proof (stable_maximum g (state this') pairs Hwf Hsh' Hcons' Hstable Hp).
    rewrite El in Hlen. lia.
  - intros Hnew. destruct (new_engine_ok _ _ Hwf Hnew) as (_ & _ & _ & Hzero).
    rewrite Hsize, Hzero, Hlen, El. lia.
Qed.


(** * Out-of-range adjacency entries are skipped *)











(** Without the row of a left vertex the loop over [this.graph.edges[u]]
    throws: the assumption of one row per left vertex cannot be dropped. *)
Remark missing_row_throws :
  (this ←? new_HopcroftKarp {| leftSize := 1; rightSize := 1; edges := [] |};
   findMaximumMatching 5 this)
  = throw TypeError.
Proof. vm_compute. reflexivity. Qed.

(** C8. The [size] of every matching returned by [findMaximumMatching], on
    any reachable engine, lies between 0 and the smaller partition size. *)
Theorem findMaximumMatching_size_bound this :
  reachable this →
  (∃ fuel M this', findMaximumMatching fuel this = Ok (M, this'))
  ∧ ∀ fuel M this', findMaximumMatching fuel this = Ok (M, this') →
      0 ≤ size M ≤ Z.min (leftSize (graph this)) (rightSize (graph this)).
Proof.
  intros Hok%reachable_ok. split.
  { exists (enough_fuel (graph this)). destruct Hok.
    by apply findMaximumMatching_returns. }
  intros fuel M this' Hcall.
  destruct (findMaximumMatching_spec _ _ _ _ Hok Hcall)
    as (Hg & [_ Hsh' Hcons'] & _ & _ & _ & _ & Hsize & Hnonneg).
  rewrite Hg in Hsh'.
  destruct (consistent_count _ _ Hsh' Hcons') as [_ Hle].
  pose proof (matched_count_range (this_matchLeft (state this))). lia.
Qed.

(** C4. [findPerfectMatching] returns whenever [findMaximumMatching] does,
    leaves the engine in the same state, and its result is the matching [M]
    computed by [findMaximumMatching] exactly when [size M] equals both
    partition sizes, and [null] otherwise. *)
Theorem findPerfectMatching_iff this :
  reachable this →
  (∃ fuel r this', findPerfectMatching fuel this = Ok (r, this'))
  ∧ ∀ fuel M this', findMaximumMatching fuel this = Ok (M, this') →
      ∃ r, findPerfectMatching fuel this = Ok (r, this')
           ∧ (r = Some M
              ↔ size M = leftSize (graph this) ∧ size M = rightSize (graph this))
           ∧ (r = None
              ↔ ¬ (size M = leftSize (graph this) ∧ size M = rightSize (graph this))).
Proof.
  intros [Hwf Hsh Hcons]%reachable_ok.
  assert (Hstep : ∀ fuel M this', findMaximumMatching fuel this = Ok (M, this') →
      ∃ r, findPerfectMatching fuel this = Ok (r, this')
           ∧ (r = Some M
              ↔ size M = leftSize (graph this) ∧ size M = rightSize (graph this))
           ∧ (r = None
              ↔ ¬ (size M = leftSize (graph this) ∧ size M = rightSize (graph this)))).
  { intros fuel M this' Hcall. unfold findPerfectMatching. rewrite Hcall. simpl.
    destruct (decide (size M = leftSize (graph this) ∧ size M = rightSize (graph this)))
      as [Hyes|Hno].
    - exists (Some M). split_and!; try done.
    - exists None. split_and!; try done. }
  split; [|done].
  destruct (findMaximumMatching_returns (enough_fuel (graph this)) this)
    as (M & this' & Hcall); try done.
  destruct (Hstep _ _ _ Hcall) as (r & Hr & _).
  by exists (enough_fuel (graph this)), r, this'.
Qed.



(** * Returned matchings are independent snapshots *)

Lemma deref_Ok (h : gmap positive (list Z)) l a : Heap.deref h l = Ok a ↔ h !! l = Some a.
Proof. unfold Heap.deref. destruct (h !! l); split; congruence. Qed.

Lemma load_Ok (h : gmap positive (list Z)) e this :
  Heap.load h e = Ok this ↔
  ∃ ml mr, h !! Heap.eng_matchLeft e = Some ml ∧ h !! Heap.eng_matchRight e = Some mr
           ∧ this = {| graph := Heap.eng_graph e;
                       state := {| this_matchLeft := ml; this_matchRight := mr;
                                   this_dist := Heap.eng_dist e |} |}.
Proof.
  unfold Heap.load. rewrite obind_Ok. split.
  - intros (ml & Hml%deref_Ok & (mr & Hmr%deref_Ok & [= <-])%obind_Ok). by exists ml, mr.
  - intros (ml & mr & Hml & Hmr & ->). exists ml. split; [by apply deref_Ok|].
    apply obind_Ok. exists mr. split; [by apply deref_Ok|done].
Qed.

(** The store after a call: the engine's two arrays are overwritten and two
    new arrays are added. *)
Lemma heap_findMaximumMatching_Ok fuel e (h : gmap positive (list Z)) snap e' h' :
  Heap.findMaximumMatching fuel e h = Ok (snap, e', h') →
  ∃ this M this',
    Heap.load h e = Ok this ∧ findMaximumMatching fuel this = Ok (M, this')
    ∧ let h2 := <[Heap.eng_matchRight e := this_matchRight (state this')]>
                  (<[Heap.eng_matchLeft e := this_matchLeft (state this')]> h) in
      let l1 := fresh (dom h2) in
      let l2 := fresh (dom (<[l1 := matchLeft M]> h2)) in
      snap = {| Heap.snap_matchLeft := l1; Heap.snap_matchRight := l2;
                Heap.snap_size := size M |}
      ∧ e' = {| Heap.eng_graph := graph this';
                Heap.eng_matchLeft := Heap.eng_matchLeft e;
                Heap.eng_matchRight := Heap.eng_matchRight e;
                Heap.eng_dist := this_dist (state this') |}
      ∧ h' = <[l2 := matchRight M]> (<[l1 := matchLeft M]> h2)
      ∧ matchLeft M = this_matchLeft (state this')
      ∧ matchRight M = this_matchRight (state this').
Proof.
  unfold Heap.findMaximumMatching.
  intros (this & Hload & ([M this'] & Hcall & Hres)%obind_Ok)%obind_Ok.
  exists this, M, this'. split; [done|]. split; [done|].
  unfold Heap.alloc in Hres. simpl in Hres. injection Hres as <- <- <-.
  apply findMaximumMatching_Ok in Hcall as (st & n & _ & -> & ->). done.
Qed.

(** A call changes no array of the store other than the engine's own. *)
Lemma heap_findMaximumMatching_frame fuel e (h : gmap positive (list Z)) snap e' h' l :
  Heap.findMaximumMatching fuel e h = Ok (snap, e', h') →
  l ∈ dom h → l ≠ Heap.eng_matchLeft e → l ≠ Heap.eng_matchRight e →
  h' !! l = h !! l.
Proof.
  intros (this & M & this' & _ & _ & _ & _ & -> & _)%heap_findMaximumMatching_Ok
    Hl Hne1 Hne2.
  set (h2 := <[Heap.eng_matchRight e := _]> (<[Heap.eng_matchLeft e := _]> h)).
  assert (l ∈ dom h2) as Hl2.
  { unfold h2. rewrite !dom_insert. apply elem_of_union. right.
    apply elem_of_union. by right. }
  pose proof (is_fresh (dom h2)) as Hf1.
  pose proof (is_fresh (dom (<[fresh (dom h2) := matchLeft M]> h2))) as Hf2.
  rewrite lookup_insert_ne.
  2:{ intros Heq. apply Hf2. rewrite Heq, dom_insert. apply elem_of_union. by right. }
  rewrite lookup_insert_ne by (intros Heq; apply Hf1; by rewrite Heq).
  unfold h2. by rewrite !lookup_insert_ne.
Qed.

(** The constructor gives the engine two different arrays of its own. *)
Lemma heap_new_HopcroftKarp_distinct g (h : gmap positive (list Z)) e h' :
  Heap.new_HopcroftKarp g h = Ok (e, h') →
  Heap.eng_matchLeft e ≠ Heap.eng_matchRight e
  ∧ (Heap.eng_matchLeft e ∉ dom h) ∧ (Heap.eng_matchRight e ∉ dom h)
  ∧ ∃ this, new_HopcroftKarp g = Ok this ∧ Heap.load h' e = Ok this.
Proof.
  unfold Heap.new_HopcroftKarp, Heap.alloc.
  intros (this & Hnew & [= <- <-])%obind_Ok. simpl.
  pose proof (is_fresh (dom h)) as Hf1.
  pose proof (is_fresh (dom (<[fresh (dom h) := this_matchLeft (state this)]> h))) as Hf2.
  rewrite dom_insert in Hf2.
  assert (fresh (dom h)
          ≠ fresh ({[fresh (dom h)]} ∪ dom h)) as Hne.
  { intros Heq. apply Hf2. rewrite <- Heq. apply elem_of_union. left.
    by apply elem_of_singleton. }
  split_and!; try done.
  - by rewrite dom_insert.
  - rewrite dom_insert. intros ?. apply Hf2. apply elem_of_union. by right.
  - exists this. split; [done|]. unfold Heap.load, Heap.deref. simpl.
    rewrite dom_insert.
    rewrite lookup_insert_ne, lookup_insert_eq by (by apply not_eq_sym).
    simpl. rewrite lookup_insert_eq. simpl.
    apply new_HopcroftKarp_Ok in Hnew as (_ & _ & ->). done.
Qed.

(** C9. The arrays of a returned matching are new arrays of the store,
    different from each other and from the engine's, holding copies of the
    engine's arrays.  Writing to them leaves the state that the engine reads
    back from the store as it was, and every later call of the engine leaves
    them as they are. *)
Theorem snapshot_independent fuel e (h : gmap positive (list Z)) snap e' h' :
  Heap.eng_matchLeft e ≠ Heap.eng_matchRight e →
  Heap.findMaximumMatching fuel e h = Ok (snap, e', h') →
  ((Heap.snap_matchLeft snap ∉ dom h) ∧ (Heap.snap_matchRight snap ∉ dom h)
   ∧ Heap.snap_matchLeft snap ≠ Heap.snap_matchRight snap
   ∧ Heap.snap_matchLeft snap ≠ Heap.eng_matchLeft e'
   ∧ Heap.snap_matchLeft snap ≠ Heap.eng_matchRight e'
   ∧ Heap.snap_matchRight snap ≠ Heap.eng_matchLeft e'
   ∧ Heap.snap_matchRight snap ≠ Heap.eng_matchRight e')
  ∧ (is_Some (h' !! Heap.snap_matchLeft snap)
     ∧ h' !! Heap.snap_matchLeft snap = h' !! Heap.eng_matchLeft e'
     ∧ h' !! Heap.snap_matchRight snap = h' !! Heap.eng_matchRight e')
  ∧ (∀ l a, l = Heap.snap_matchLeft snap ∨ l = Heap.snap_matchRight snap →
            Heap.load (<[l := a]> h') e' = Heap.load h' e')
  ∧ (∀ (h1 : gmap positive (list Z)) fuel2 snap2 e2 h2,
       Heap.snap_matchLeft snap ∈ dom h1 → Heap.snap_matchRight snap ∈ dom h1 →
       Heap.findMaximumMatching fuel2 e' h1 = Ok (snap2, e2, h2) →
       h2 !! Heap.snap_matchLeft snap = h1 !! Heap.snap_matchLeft snap
       ∧ h2 !! Heap.snap_matchRight snap = h1 !! Heap.snap_matchRight snap).
Proof.
  intros Hdistinct Hcall.
  pose proof Hcall as
    (this & M & this' & Hload & _ & -> & -> & -> & El & Er)%heap_findMaximumMatching_Ok.
  apply load_Ok in Hload as (ml & mr & Hml & Hmr & _).
  set (h2 := <[Heap.eng_matchRight e := _]> (<[Heap.eng_matchLeft e := _]> h)).
  set (l1 := fresh (dom h2)).
  set (l2 := fresh (dom (<[l1 := matchLeft M]> h2))).
  simpl.
  assert (∀ l, l ∈ dom h → l ∈ dom h2) as Hsub.
  { intros l Hl. unfold h2. rewrite !dom_insert. apply elem_of_union. right.
    apply elem_of_union. by right. }
  assert (Heap.eng_matchLeft e ∈ dom h) as HL by (apply elem_of_dom; eauto).
  assert (Heap.eng_matchRight e ∈ dom h) as HR by (apply elem_of_dom; eauto).
  assert (l1 ∉ dom h2) as Hf1 by apply is_fresh.
  assert (l2 ∉ dom (<[l1 := matchLeft M]> h2)) as Hf2 by apply is_fresh.
  assert ((l2 ∉ dom h2) ∧ l2 ≠ l1) as [Hf2' Hne21].
  { rewrite dom_insert in Hf2. split.
    - intros ?. apply Hf2. apply elem_of_union. by right.
    - intros Heq. apply Hf2. apply elem_of_union. left. by apply elem_of_singleton. }
  assert (l1 ≠ Heap.eng_matchLeft e ∧ l1 ≠ Heap.eng_matchRight e
          ∧ l2 ≠ Heap.eng_matchLeft e ∧ l2 ≠ Heap.eng_matchRight e)
    as (N1 & N2 & N3 & N4).
  { split_and!; intros Heq; [apply Hf1|apply Hf1|apply Hf2'|apply Hf2'];
      rewrite Heq; by apply Hsub. }
  assert (Hfinal : ∀ l, l ≠ l1 → l ≠ l2 →
            (<[l2 := matchRight M]> (<[l1 := matchLeft M]> h2)) !! l = h2 !! l).
  { intros l ? ?. by rewrite !lookup_insert_ne. }
  split; [|split; [|split]].
  - split_and!; try done; try (by apply not_eq_sym).
    + intros ?. apply Hf1. by apply Hsub.
    + intros ?. apply Hf2'. by apply Hsub.
  - split_and!.
    + rewrite lookup_insert_ne, lookup_insert_eq by done. eauto.
    + rewrite lookup_insert_ne, lookup_insert_eq by done.
      rewrite Hfinal by done. unfold h2.
      rewrite lookup_insert_ne, lookup_insert_eq by done. by rewrite El.
    + rewrite lookup_insert_eq, Hfinal by done. unfold h2.
      rewrite lookup_insert_eq. by rewrite Er.
  - intros l a Hl. unfold Heap.load, Heap.deref. simpl.
    rewrite !(lookup_insert_ne _ l) by (destruct Hl; subst; done). done.
  - intros h1 fuel2 snap2 e2 h3 Hin1 Hin2 Hcall2.
    split; eapply heap_findMaximumMatching_frame; try exact Hcall2; simpl; done.
Qed.

(** * Repeated calls *)

(** The first loop of [bfs] reads [matchLeft] only: from two states with the
    same matching it builds the same queue and the same layers on the
    vertices it visits. *)
Lemma bfs_init_same_matching : ∀ us st st_alt q st1 q1,
  same_matching st st_alt →
  zlen (this_dist st_alt) = zlen (this_dist st) →
  bfs_init us st q = Ok (st1, q1) →
  ∃ st1_alt, bfs_init us st_alt q = Ok (st1_alt, q1)
             ∧ same_matching st1 st1_alt
             ∧ zlen (this_dist st1_alt) = zlen (this_dist st1)
             ∧ ∀ x, x ∈ us ∨ dst st_alt x = dst st x → dst st1_alt x = dst st1 x.
Proof.
  induction us as [|u us IH]; intros st st_alt q st1 q1 Hsame Hlen Hrun; simpl in *.
  - injection Hrun as <- <-. exists st_alt. split_and!; try done.
    intros x [Hx|?]; [by apply not_elem_of_nil in Hx|done].
  - pose proof Hsame as [El Er]. rewrite El.
    apply obind_Ok in Hrun as (m & Hm & Hrun). rewrite Hm. simpl.
    assert (∃ d st2 q2, write_dist st u d = Ok st2
              ∧ bfs_init us st2 q2 = Ok (st1, q1)
              ∧ ∀ st2_alt, write_dist st_alt u d = Ok st2_alt →
                  (if decide (m = NIL)
                   then st' ←? write_dist st_alt u (Fin 0); bfs_init us st' (q ++ [u])
                   else st' ←? write_dist st_alt u Infinity; bfs_init us st' q)
                  = bfs_init us st2_alt q2)
      as (d & st2 & q2 & Hw & Hrest & Halt).
    { destruct (decide (m = NIL)); apply obind_Ok in Hrun as (st2 & Hw & Hrest);
        eexists _, st2, _; (split; [exact Hw|]); (split; [exact Hrest|]);
        intros st2_alt ->; done. }
    apply write_dist_Ok in Hw as [Hrange ->].
    destruct (write_dist_total_len st_alt u d) as [st2_alt Hw_alt]; [lia|].
    rewrite (Halt _ Hw_alt). apply write_dist_Ok in Hw_alt as [Hrange_alt ->].
    destruct (IH {| this_matchLeft := this_matchLeft st;
                    this_matchRight := this_matchRight st;
                    this_dist := <[Z.to_nat u := d]> (this_dist st) |}
                 {| this_matchLeft := this_matchLeft st_alt;
                    this_matchRight := this_matchRight st_alt;
                    this_dist := <[Z.to_nat u := d]> (this_dist st_alt) |} q2 st1 q1)
      as (st1_alt & Hrun_alt & Hsame1 & Hlen1 & Hd); [| |exact Hrest|].
    { split; simpl; done. }
    { simpl. by rewrite !zlen_insert. }
    exists st1_alt. split_and!; try done.
    intros x Hx. apply Hd. simpl. rewrite !zget_insert by done.
    destruct (decide (x = u)) as [->|Hne]; [by right|].
    destruct Hx as [[?|?]%elem_of_cons|?]; [done|by left|by right].
Qed.

(** [bfs] depends on the matching only, not on the layers left in [dist]. *)
Lemma bfs_same_matching g fuel st st_alt r :
  shape g st → shape g st_alt → same_matching st st_alt →
  bfs g fuel st = Ok r → bfs g fuel st_alt = Ok r.
Proof.
  intros Hsh Hsh_alt Hsame Hrun. unfold bfs in *.
  apply obind_Ok in Hrun as ([st1 q1] & Hinit & Hrun).
  apply obind_Ok in Hrun as (st2 & Hw & Hrun).
  destruct (bfs_init_same_matching (seqZ 0 (leftSize g)) st st_alt [] st1 q1 Hsame)
    as (st1_alt & -> & [El Er] & Hlen & Hd); [|done|].
  { destruct Hsh as [_ _ ->], Hsh_alt as [_ _ ->]. done. }
  simpl. apply write_dist_Ok in Hw as [Hrange ->].
  assert (write_dist st1_alt (leftSize g) Infinity
          = Ok {| this_matchLeft := this_matchLeft st1;
                  this_matchRight := this_matchRight st1;
                  this_dist := <[Z.to_nat (leftSize g) := Infinity]> (this_dist st1) |})
    as ->; [|done].
  apply write_dist_Ok. split; [lia|]. rewrite El, Er. f_equal.
  apply zget_ext. intros x. rewrite !zget_insert by lia.
  destruct (decide (x = leftSize g)); [done|].
  destruct (decide (0 ≤ x < leftSize g)) as [Hx|Hx].
  - symmetry. apply Hd. left. apply elem_of_seqZ. lia.
  - destruct (bfs_init_spec _ _ _ _ _ Hinit) as (_ & Hlen1 & _).
    destruct Hsh as [_ _ Hsd].
    rewrite (proj2 (zget_None (this_dist st1) x)), (proj2 (zget_None (this_dist st1_alt) x));
      [done|lia|lia].
Qed.

(** The state in which the [while] loop stops was returned, unchanged, by a
    layering that started from a state with the same matching. *)
Lemma phases_last g fuel : ∀ rounds st n st' n',
  shape g st → consistent st →
  phases g fuel rounds st n = Ok (st', n') →
  ∃ st0, shape g st0 ∧ same_matching st0 st' ∧ bfs g fuel st0 = Ok (false, st').
Proof.
  induction rounds as [|rounds IH]; intros st n st' n' Hsh Hcons Hrun; [done|].
  simpl in Hrun.
  apply obind_Ok in Hrun as ([reachable st1] & Hbfs & Hrun).
  destruct (bfs_spec _ _ _ _ _ Hsh Hcons Hbfs) as (Hsh1 & Hsame1 & _ & Hzero1 & _).
  pose proof Hsame1 as [El Er].
  destruct reachable.
  - apply obind_Ok in Hrun as ([st2 n2] & Haug & Hrun).
    destruct (augment_spec g fuel (seqZ 0 (leftSize g)) st1 n st2 n2 (NoDup_seqZ _ _) Hsh1
                (consistent_same _ _ Hsame1 Hcons)) as (Hsh2 & Hcons2 & _); [|done|].
    { intros y Hy Hfree. apply Hzero1. apply elem_of_seqZ in Hy.
      split; [lia|by rewrite <- El]. }
    by apply (IH st2 n2 st' n').
  - injection Hrun as <- <-. by exists st.
Qed.

(** The first call on a new engine returns a matching whose [size] is the
    number of non-sentinel entries of [matchLeft] and of [matchRight]. *)
Lemma first_call_size g this fuel M this' :
  well_formed g → new_HopcroftKarp g = Ok this →
  findMaximumMatching fuel this = Ok (M, this') →
  size M = matched_count (matchLeft M) ∧ size M = matched_count (matchRight M).
Proof.
  intros Hwf Hnew Hcall.
  destruct (new_engine_ok _ _ Hwf Hnew) as (Hg & Hok & _ & Hzero).
  destruct (findMaximumMatching_spec _ _ _ _ Hok Hcall)
    as (Hg' & [_ Hsh' Hcons'] & _ & _ & El & Er & Hsize & _).
  rewrite Hg' in Hsh'.
  destruct (consistent_count _ _ Hsh' Hcons') as [Heq _].
  rewrite El, Er. lia.
Qed.

(** On an unchanged graph, every call that follows a call of
    [findMaximumMatching] returns the arrays of that call with [size = 0],
    and leaves the engine as it was. *)
Lemma later_call_reports_zero fuel this M this' fuel2 M2 this2 :
  engine_ok this →
  findMaximumMatching fuel this = Ok (M, this') →
  findMaximumMatching fuel2 this' = Ok (M2, this2) →
  size M2 = 0 ∧ matchLeft M2 = matchLeft M ∧ matchRight M2 = matchRight M
  ∧ this2 = this'.
Proof.
  intros [Hwf Hsh Hcons] Hcall Hcall2.
  apply findMaximumMatching_Ok in Hcall as (st & n & Hrun & -> & ->).
  destruct (phases_last _ _ _ _ _ _ _ Hsh Hcons Hrun) as (st0 & Hsh0 & Hsame0 & Hbfs0).
  destruct (phases_spec _ _ _ _ _ _ _ Hsh Hcons Hrun) as (Hsh' & _).
  pose proof (bfs_same_matching _ _ _ _ _ Hsh0 Hsh' Hsame0 Hbfs0) as Hbfs'.
  assert (findMaximumMatching (S fuel) {| graph := graph this; state := st |}
          = Ok ({| matchLeft := this_matchLeft st; matchRight := this_matchRight st;
                   size := 0 |}, {| graph := graph this; state := st |})) as Hagain.
  { unfold findMaximumMatching. simpl.
    rewrite (bfs_mono _ fuel (S fuel) _ _ (Nat.le_succ_diag_r fuel) Hbfs'). done. }
  pose proof (findMaximumMatching_fuel_independent _ _ _ _ _ Hagain Hcall2) as Heq.
  injection Heq as <- <-. done.
Qed.

(** C2, the code at a failing input: on the graph with the single edge
    [(0, 0)], the first call reports [size = 1] and the second call, on the
    unchanged graph, reports [size = 0]. *)
Lemma second_call_reports_zero :
  (g ←? createBipartiteGraph 1 1 [(0, 0)]
          {| validateInput := None; skipInvalidEdges := None |};
   this ←? new_HopcroftKarp g;
   r1 ←? findMaximumMatching 5 this;
   r2 ←? findMaximumMatching 5 r1.2;
   Ok (size r1.1, size r2.1))
  = Ok (1, 0).
Proof. vm_compute. reflexivity. Qed.

(** C3, the code at a failing input: the matching returned by that second
    call has one non-sentinel entry in [matchLeft] and in [matchRight], and
    [size = 0]. *)
Lemma second_call_size_mismatch :
  (g ←? createBipartiteGraph 1 1 [(0, 0)]
          {| validateInput := None; skipInvalidEdges := None |};
   this ←? new_HopcroftKarp g;
   r1 ←? findMaximumMatching 5 this;
   r2 ←? findMaximumMatching 5 r1.2;
   Ok (matchLeft r2.1, matchRight r2.1,
       matched_count (matchLeft r2.1), matched_count (matchRight r2.1), size r2.1))
  = Ok ([0], [0], 1, 1, 0).
Proof. vm_compute. reflexivity. Qed.

(** The usage shown in the README, [findMaximumMatching] and then
    [findPerfectMatching] on the same instance: on the README's graph, which
    has a perfect matching, the second method returns [null]. *)
Remark readme_usage_returns_null :
  (r1 ←? findMaximumMatching 9 example_engine;
   r2 ←? findPerfectMatching 9 r1.2;
   Ok (size r1.1, r2.1))
  = Ok (3, None).
Proof. vm_compute. reflexivity. Qed.


(** * The theorems at concrete inputs *)

Lemma example_graph_built :
  createBipartiteGraph 3 3 [(0, 0); (0, 1); (1, 1); (1, 2); (2, 0); (2, 2)]
    {| validateInput := None; skipInvalidEdges := None |} = Ok example_graph.
Proof. vm_compute. reflexivity. Defined.

Lemma example_graph_well_formed : well_formed example_graph.
Proof.
  refine (createBipartiteGraph_well_formed 3 3 _ _ example_graph example_graph_built _ _);
    lia.
Defined.

Lemma star_graph_well_formed : well_formed star_graph.
Proof. split; [simpl; lia|simpl; lia|reflexivity]. Defined.

Lemma example_first_call :
  findMaximumMatching 9 example_engine = Ok (example_matching, example_engine_after).
Proof. vm_compute. reflexivity. Defined.

Lemma star_first_call :
  findMaximumMatching 9 star_engine = Ok (star_matching, star_engine_after).
Proof. vm_compute. reflexivity. Defined.

Lemma findMaximumMatching_maximum_witness :
  createBipartiteGraph 3 3 [(0, 0); (0, 1); (1, 1); (1, 2); (2, 0); (2, 2)]
    {| validateInput := None; skipInvalidEdges := None |} = Ok example_graph
  ∧ new_HopcroftKarp example_graph = Ok example_engine
  ∧ findMaximumMatching 9 example_engine = Ok (example_matching, example_engine_after)
  ∧ ∀ pairs, is_matching example_graph pairs → (length pairs ≤ 3)%nat.
Proof.
  split; [exact example_graph_built|].
  split; [reflexivity|]. split; [exact example_first_call|].
  exact (proj1 (proj2 (proj2 (proj2
    (proj2 (findMaximumMatching_maximum example_graph example_engine
              example_graph_well_formed
              (after_new example_graph example_engine eq_refl))
       9%nat example_matching example_engine_after example_first_call))))).
Defined.

Lemma example_engine_reachable : reachable example_engine.
Proof. exact (reachable_new example_graph example_engine example_graph_well_formed eq_refl). Defined.

Lemma star_engine_reachable : reachable star_engine.
Proof. exact (reachable_new star_graph star_engine star_graph_well_formed eq_refl). Defined.

Lemma findPerfectMatching_iff_witness :
  (∃ r, findPerfectMatching 9 example_engine = Ok (r, example_engine_after)
        ∧ (r = Some example_matching ↔ size example_matching = 3 ∧ size example_matching = 3))
  ∧ (∃ r, findPerfectMatching 9 star_engine = Ok (r, star_engine_after)
          ∧ (r = None ↔ ¬ (size star_matching = 3 ∧ size star_matching = 3))).
Proof.
  split.
  - destruct (proj2 (findPerfectMatching_iff example_engine example_engine_reachable)
                9%nat example_matching example_engine_after example_first_call)
      as (r & Hr & Hsome & _).
    exists r. split; [exact Hr|exact Hsome].
  - destruct (proj2 (findPerfectMatching_iff star_engine star_engine_reachable)
                9%nat star_matching star_engine_after star_first_call)
      as (r & Hr & _ & Hnone).
    exists r. split; [exact Hr|exact Hnone].
Defined.


Lemma findMaximumMatching_size_bound_witness :
  0 ≤ size star_matching ≤ Z.min (leftSize star_graph) (rightSize star_graph).
Proof.
  exact (proj2 (findMaximumMatching_size_bound star_engine star_engine_reachable)
           9%nat star_matching star_engine_after star_first_call).
Defined.

Lemma star_store_call :
  Heap.findMaximumMatching 9 star_object star_store
  = Ok (star_snapshot, star_object_after, star_store_after).
Proof. vm_compute. reflexivity. Defined.

Lemma snapshot_independent_witness :
  Heap.new_HopcroftKarp star_graph empty_store = Ok (star_object, star_store)
  ∧ ∀ l a, l = 3%positive ∨ l = 4%positive →
           Heap.load (<[l := a]> star_store_after) star_object_after
           = Heap.load star_store_after star_object_after.
Proof.
  split; [vm_compute; reflexivity|].
  refine (proj1 (proj2 (proj2
    (snapshot_independent 9 star_object star_store star_snapshot star_object_after
       star_store_after _ star_store_call)))).
  simpl. lia.
Defined.




(** * More on the graph builder *)


(** When out-of-range pairs are passed over, the loop does what it does on
    the input without them, whatever the flags of that second run. *)
Lemma add_edges_filter validate skip validate' skip' l r es :
  validate && negb skip = false →
  ∀ adj, add_edges validate skip l r es adj
         = add_edges validate' skip' l r (filter (edge_in_range l r) es) adj.
Proof.
  intros Hvs. induction es as [|e es IH]; intros adj; simpl; [done|].
  rewrite filter_cons. destruct (edge_invalid l r e) eqn:He.
  - rewrite Hvs. apply edge_invalid_true in He. rewrite decide_False by done. apply IH.
  - pose proof He as He'. apply edge_invalid_false in He'.
    rewrite decide_True by done. simpl. rewrite He. apply IH.
Qed.

Lemma add_edges_app validate skip l r es1 es2 adj :
  add_edges validate skip l r (es1 ++ es2) adj
  = (adj1 ←? add_edges validate skip l r es1 adj;
     add_edges validate skip l r es2 adj1).
Proof.
  revert adj. induction es1 as [|e es1 IH]; intros adj; simpl; [done|].
  destruct (edge_invalid l r e); [|apply IH].
  destruct (validate && negb skip); [done|apply IH].
Qed.

(** Whether the loop throws does not depend on the rows it started from. *)
Lemma add_edges_Ok_any validate skip l r es adj adj' adj0 :
  add_edges validate skip l r es adj = Ok adj' →
  ∃ adj0', add_edges validate skip l r es adj0 = Ok adj0'.
Proof.
  intros Hrun.
  destruct (add_edges_outcome validate skip l r es adj0)
    as [(adj0' & ? & _)|(Hvs & e & He & Hbad & _)]; [eauto|].
  destruct (add_edges_outcome validate skip l r es adj)
    as [(? & _ & HF)|(_ & ? & _ & _ & Hthrow)]; [|by rewrite Hrun in Hthrow].
  rewrite Forall_forall in HF. exfalso. apply Hbad. by apply HF.
Qed.

Lemma createBipartiteGraph_Ok l r es o g :
  createBipartiteGraph l r es o = Ok g ↔
  (default true (validateInput o) && (l <? 0) = false)
  ∧ (default true (validateInput o) && (r <? 0) = false)
  ∧ ∃ adj, add_edges (default true (validateInput o)) (default true (skipInvalidEdges o))
             l r es (replicate (Z.to_nat l) []) = Ok adj
           ∧ g = {| leftSize := l; rightSize := r; edges := adj |}.
Proof.
  unfold createBipartiteGraph.
  destruct (default true (validateInput o) && (l <? 0)); [split; [done|by intros [? _]]|].
  destruct (default true (validateInput o) && (r <? 0)); [split; [done|by intros (_ & ? & _)]|].
  rewrite obind_Ok. split.
  - intros (adj & Hadd & [= <-]). eauto.
  - intros (_ & _ & adj & Hadd & ->). eauto.
Qed.

Lemma sum_list_push_edge adj u v :
  0 ≤ u < zlen adj →
  sum_list (length <$> push_edge adj u v) = S (sum_list (length <$> adj)).
Proof.
  unfold push_edge, zlen. intros Hu.
  assert (Z.to_nat u < length adj)%nat as Hlt by lia.
  revert Hlt. generalize (Z.to_nat u). clear Hu.
  induction adj as [|row adj IH]; intros [|i] Hi; simpl in Hi; try lia.
  - simpl. rewrite length_app. simpl. lia.
  - change (alter (λ row, row ++ [v]) (S i) (row :: adj))
      with (row :: alter (λ row, row ++ [v]) i adj).
    rewrite !fmap_cons. simpl. rewrite IH by lia. lia.
Qed.

Lemma add_edges_total validate skip l r es : ∀ adj adj',
  length adj = Z.to_nat l →
  add_edges validate skip l r es adj = Ok adj' →
  sum_list (length <$> adj')
  = (sum_list (length <$> adj) + length (filter (edge_in_range l r) es))%nat.
Proof.
  induction es as [|e es IH]; intros adj adj' Hlen; simpl.
  - intros [= <-]. lia.
  - rewrite filter_cons. destruct (edge_invalid l r e) eqn:He.
    + apply edge_invalid_true in He. rewrite decide_False by done.
      destruct (validate && negb skip); [done|]. by apply IH.
    + apply edge_invalid_false in He. rewrite decide_True by done.
      intros Hrun. rewrite (IH (push_edge adj e.1 e.2) adj').
      * rewrite sum_list_push_edge; [simpl; lia|].
        destruct He as [? _]. unfold zlen. lia.
      * unfold push_edge. by rewrite length_alter.
      * done.
Qed.

Lemma retained_row_app l r es1 es2 u :
  retained_row l r (es1 ++ es2) u = retained_row l r es1 u ++ retained_row l r es2 u.
Proof. unfold retained_row. by rewrite filter_app, fmap_app. Qed.

Lemma retained_row_Permutation l r es es' u :
  es ≡ₚ es' → retained_row l r es u ≡ₚ retained_row l r es' u.
Proof. intros H. unfold retained_row. by rewrite H. Qed.



(** X2. Passing over out-of-range pairs is the same as removing them from the
    input first: a call that does not throw on them (validation off, or
    [skipInvalidEdges] on) gives what the builder gives on the in-range pairs
    alone, and on those the flag [skipInvalidEdges] makes no difference. *)
Theorem createBipartiteGraph_skip_is_filter l r es o o' :
  ¬ validating o ∨ skipping o →
  (validating o ↔ validating o') →
  createBipartiteGraph l r es o
  = createBipartiteGraph l r (filter (edge_in_range l r) es) o'.
Proof.
  unfold validating, skipping, createBipartiteGraph. intros Hlenient Hv.
  assert (default true (validateInput o') = default true (validateInput o)) as ->.
  { destruct (default true (validateInput o)), (default true (validateInput o'));
      try done; [by apply Hv|symmetry; by apply Hv]. }
  rewrite (add_edges_filter _ _ (default true (validateInput o))
             (default true (skipInvalidEdges o'))); [done|].
  destruct (default true (validateInput o)), (default true (skipInvalidEdges o));
    try done. destruct Hlenient; done.
Qed.

Lemma createBipartiteGraph_skip_is_filter_witness :
  createBipartiteGraph 2 2 [(0, 1); (2, 0); (0, -1); (1, 1)]
    {| validateInput := None; skipInvalidEdges := None |}
  = createBipartiteGraph 2 2 [(0, 1); (1, 1)]
      {| validateInput := Some true; skipInvalidEdges := Some false |}.
Proof.
  refine (createBipartiteGraph_skip_is_filter 2 2 [(0, 1); (2, 0); (0, -1); (1, 1)]
            {| validateInput := None; skipInvalidEdges := None |}
            {| validateInput := Some true; skipInvalidEdges := Some false |} _ _).
  - right. reflexivity.
  - split; reflexivity.
Defined.

(** X3. Building from a concatenated input is building from the two parts and
    joining the rows: row [u] of the graph of [es1 ++ es2] is row [u] of the
    graph of [es1] followed by row [u] of the graph of [es2]. *)
Theorem createBipartiteGraph_app l r es1 es2 o g1 g2 :
  createBipartiteGraph l r es1 o = Ok g1 →
  createBipartiteGraph l r es2 o = Ok g2 →
  createBipartiteGraph l r (es1 ++ es2) o
  = Ok {| leftSize := l; rightSize := r;
          edges := zip_with app (edges g1) (edges g2) |}.
Proof.
  intros (Hl & Hr & adj1 & Hadd1 & ->)%createBipartiteGraph_Ok
         (_ & _ & adj2 & Hadd2 & ->)%createBipartiteGraph_Ok.
  apply createBipartiteGraph_Ok. split_and!; try done. simpl.
  destruct (add_edges_Ok_any _ _ _ _ _ _ _ adj1 Hadd2) as [adj Hadd].
  exists adj. rewrite add_edges_app, Hadd1. simpl. split; [done|]. f_equal.
  apply list_eq. intros i.
  rewrite (add_edges_rows _ _ _ _ _ _ _ i Hadd), lookup_zip_with.
  rewrite (add_edges_rows _ _ _ _ _ _ _ i Hadd1), (add_edges_rows _ _ _ _ _ _ _ i Hadd2).
  destruct (replicate (Z.to_nat l) [] !! i) as [row|] eqn:Hrow; simpl; [|done].
  apply lookup_replicate in Hrow as [-> _]. done.
Qed.

Lemma createBipartiteGraph_app_witness :
  createBipartiteGraph 2 2 ([(0, 1); (1, 1)] ++ [(9, 9); (0, 0)])
    {| validateInput := None; skipInvalidEdges := None |}
  = Ok {| leftSize := 2; rightSize := 2; edges := [[1; 0]; [1]] |}.
Proof.
  exact (createBipartiteGraph_app 2 2 [(0, 1); (1, 1)] [(9, 9); (0, 0)]
           {| validateInput := None; skipInvalidEdges := None |}
           {| leftSize := 2; rightSize := 2; edges := [[1]; [1]] |}
           {| leftSize := 2; rightSize := 2; edges := [[0]; []] |}
           eq_refl eq_refl).
Defined.

(** X4. No edge is lost and none is invented: the rows of a returned graph
    hold, in total, as many entries as the input has in-range pairs. *)
Theorem createBipartiteGraph_edge_count l r es o g :
  createBipartiteGraph l r es o = Ok g →
  sum_list (length <$> edges g) = length (filter (edge_in_range l r) es).
Proof.
  intros (_ & _ & adj & Hadd & ->)%createBipartiteGraph_Ok. simpl.
  rewrite (add_edges_total _ _ _ _ _ _ _ (length_replicate _ _) Hadd).
  assert (sum_list (length <$> replicate (Z.to_nat l) ([] : list Z)) = 0%nat) as ->; [|done].
  clear Hadd. induction (Z.to_nat l) as [|n IH]; [done|]. simpl. exact IH.
Qed.

Lemma createBipartiteGraph_edge_count_witness :
  sum_list (length <$> [[0; 0; 1]; [1]]) = 4%nat.
Proof.
  exact (createBipartiteGraph_edge_count 2 2
           [(0, 0); (5, 1); (0, 0); (0, 1); (1, -1); (1, 1)]
           {| validateInput := None; skipInvalidEdges := None |}
           {| leftSize := 2; rightSize := 2; edges := [[0; 0; 1]; [1]] |} eq_refl).
Defined.

(** X5. The order of the input pairs shows only inside the rows: a
    rearranged input is accepted exactly like the original, and each row of
    its graph is a rearrangement of the corresponding row. *)
Theorem createBipartiteGraph_Permutation l r es es' o g :
  es ≡ₚ es' →
  createBipartiteGraph l r es o = Ok g →
  ∃ g', createBipartiteGraph l r es' o = Ok g'
        ∧ leftSize g' = leftSize g ∧ rightSize g' = rightSize g
        ∧ Forall2 (≡ₚ) (edges g) (edges g').
Proof.
  intros Hperm (Hl & Hr & adj & Hadd & ->)%createBipartiteGraph_Ok.
  destruct (add_edges_outcome (default true (validateInput o))
              (default true (skipInvalidEdges o)) l r es' (replicate (Z.to_nat l) []))
    as [(adj' & Hadd' & _)|(Hvs & e & He & Hbad & _)].
  - exists {| leftSize := l; rightSize := r; edges := adj' |}.
    split; [apply createBipartiteGraph_Ok; eauto|]. simpl. split_and!; try done.
    apply Forall2_same_length_lookup. split.
    + rewrite (add_edges_length _ _ _ _ _ _ _ Hadd), (add_edges_length _ _ _ _ _ _ _ Hadd').
      done.
    + intros i row row'.
      rewrite (add_edges_rows _ _ _ _ _ _ _ i Hadd), (add_edges_rows _ _ _ _ _ _ _ i Hadd').
      destruct (replicate (Z.to_nat l) [] !! i) as [row0|]; simpl; [|done].
      intros [= <-] [= <-]. apply Permutation_app; [done|].
      by apply retained_row_Permutation.
  - exfalso.
    destruct (add_edges_outcome (default true (validateInput o))
                (default true (skipInvalidEdges o)) l r es (replicate (Z.to_nat l) []))
      as [(? & _ & HF)|(_ & ? & _ & _ & Hthrow)]; [|by rewrite Hadd in Hthrow].
    rewrite Forall_forall in HF. apply Hbad, (HF Hvs). by rewrite Hperm.
Qed.

Lemma createBipartiteGraph_Permutation_witness :
  ∃ g', createBipartiteGraph 2 2 [(0, 1); (0, 0); (1, 1)]
          {| validateInput := None; skipInvalidEdges := None |} = Ok g'
        ∧ leftSize g' = 2 ∧ rightSize g' = 2
        ∧ Forall2 (≡ₚ) [[0; 1]; [1]] (edges g').
Proof.
  refine (createBipartiteGraph_Permutation 2 2 [(0, 0); (0, 1); (1, 1)]
            [(0, 1); (0, 0); (1, 1)]
            {| validateInput := None; skipInvalidEdges := None |}
            {| leftSize := 2; rightSize := 2; edges := [[0; 1]; [1]] |} _ eq_refl).
  apply perm_swap.
Defined.


(** * The two phases, seen from the loop that calls them *)

Lemma kept_refl st : kept st st.
Proof. split; intros a b Hab Hb; by exists b. Qed.

Lemma kept_trans st1 st2 st3 : kept st1 st2 → kept st2 st3 → kept st1 st3.
Proof.
  intros [L12 R12] [L23 R23]. split.
  - intros u v Hv Hne. destruct (L12 u v Hv Hne) as (v' & Hv' & Hne'). by eapply L23.
  - intros v u Hu Hne. destruct (R12 v u Hu Hne) as (u' & Hu' & Hne'). by eapply R23.
Qed.

Lemma same_matching_kept st st' : same_matching st st' → kept st st'.
Proof. intros [El Er]. split; intros a b Hab Hb; exists b; by rewrite ?El, ?Er. Qed.

Lemma augmented_kept g u k st st' : augmented g u k st st' → kept st st'.
Proof.
  intros [(v & Huv & HvN & _) Hleft Hright _ _]. split.
  - intros y w Hy Hw. destruct (decide (y = u)) as [->|Hne]; [by exists v|].
    destruct (Hleft y Hne) as [Heq|(j & w0 & w' & _ & _ & _ & _ & Hy' & Hw' & _)].
    + exists w. by rewrite Heq.
    + by exists w'.
  - intros w y Hw Hy. destruct (Hright w) as [Heq|(y' & Hy' & Hne' & _)].
    + exists y. by rewrite Heq.
    + by exists y'.
Qed.

Lemma dfs_kept g fuel u st k b st' :
  shape g st → consistent st → u ≠ leftSize g → dst st u = Some (Fin k) →
  dfs g fuel u st = Ok (b, st') → kept st st'.
Proof.
  intros Hsh Hcons Hu Hk Hrun.
  destruct (dfs_spec g fuel u st b st' Hsh Hcons Hrun) as [_ Hpost].
  destruct (Hpost Hu k Hk) as (_ & _ & Hres). destruct b.
  - by eapply augmented_kept.
  - destruct Hres as [? _]. by apply same_matching_kept.
Qed.

Lemma free_not_sink g st u : shape g st → mL st u = Some NIL → u ≠ leftSize g.
Proof. intros [Hl _ _] Hfree%zget_lt. lia. Qed.

Lemma augment_kept g fuel : ∀ us st n st' n',
  NoDup us → shape g st → consistent st →
  (∀ y, y ∈ us → mL st y = Some NIL → dst st y = Some (Fin 0)) →
  augment g fuel us st n = Ok (st', n') → kept st st'.
Proof.
  induction us as [|u us IH]; intros st n st' n' Hnd Hsh Hcons Hzero Hrun; simpl in Hrun.
  - injection Hrun as <- <-. apply kept_refl.
  - apply NoDup_cons in Hnd as [Hu_notin Hnd].
    apply obind_Ok in Hrun as (m & Hm%read_Ok & Hrun).
    destruct (decide (m = NIL)) as [->|HmN].
    2:{ apply (IH st n st' n'); try done. intros y Hy. apply Hzero. by right. }
    apply obind_Ok in Hrun as ([found st1] & Hcall & Hrun).
    assert (dst st u = Some (Fin 0)) as Hdu by (apply Hzero; [left|done]).
    destruct (dfs_top g fuel u st found st1 Hsh Hcons Hm Hdu Hcall)
      as (Hsh1 & Hcons1 & _ & Hback & Hkeep0).
    apply (kept_trans st st1).
    { apply (dfs_kept g fuel u st 0%nat found st1); try done.
      by apply (free_not_sink g st). }
    assert (Hzero1 : ∀ y, y ∈ us → mL st1 y = Some NIL → dst st1 y = Some (Fin 0)).
    { intros y Hy Hfy. apply Hkeep0; [by intros ->|].
      apply Hzero; [by right|by apply Hback]. }
    destruct found; by eapply IH.
Qed.

Lemma phases_kept g fuel : ∀ rounds st n st' n',
  shape g st → consistent st →
  phases g fuel rounds st n = Ok (st', n') → kept st st'.
Proof.
  induction rounds as [|rounds IH]; intros st n st' n' Hsh Hcons Hrun; [done|].
  simpl in Hrun.
  apply obind_Ok in Hrun as ([reachable st1] & Hbfs & Hrun).
  destruct (bfs_spec _ _ _ _ _ Hsh Hcons Hbfs) as (Hsh1 & Hsame1 & _ & Hzero1 & _).
  pose proof Hsame1 as [El Er].
  pose proof (consistent_same _ _ Hsame1 Hcons) as Hcons1.
  apply (kept_trans st st1); [by apply same_matching_kept|].
  destruct reachable; [|injection Hrun as <- <-; apply kept_refl].
  apply obind_Ok in Hrun as ([st2 n2] & Haug & Hrun).
  assert (Hz : ∀ y, y ∈ seqZ 0 (leftSize g) → mL st1 y = Some NIL
               → dst st1 y = Some (Fin 0)).
  { intros y Hy Hfree. apply Hzero1. apply elem_of_seqZ in Hy.
    split; [lia|by rewrite <- El]. }
  destruct (augment_spec g fuel (seqZ 0 (leftSize g)) st1 n st2 n2 (NoDup_seqZ _ _)
              Hsh1 Hcons1 Hz Haug) as (Hsh2 & Hcons2 & _).
  apply (kept_trans st1 st2); [|by eapply IH].
  eapply augment_kept; try done. apply NoDup_seqZ.
Qed.

(** A layered path from a vertex on an alternating walk to the sink
    completes the walk to an augmenting path. *)
Lemma reach_augmenting g st M :
  shape g st → consistent st →
  matchLeft M = this_matchLeft st → matchRight M = this_matchRight st →
  ∀ u, reach g st u → u ≠ leftSize g → alternating g M u → augmenting_path g M.
Proof.
  intros Hsh [_ Hrl] El Er. induction 1 as [|u v m k Hedge Hm Hdu Hdnext _ IH];
    intros Hu Halt; [done|].
  destruct (decide (m = NIL)) as [->|Hne].
  - exists u, v. by rewrite Er.
  - rewrite next_of_matched in IH by done. apply IH.
    + apply Hrl in Hm; [|done]. apply zget_lt in Hm. destruct Hsh as [Hl _ _]. lia.
    + apply (alt_step g M u v m); try done. by rewrite Er.
Qed.

(** The state a layering leaves when it did not reach the sink. *)
Lemma bfs_false_stable g fuel st st' :
  shape g st → consistent st → bfs g fuel st = Ok (false, st') → stable g st'.
Proof.
  intros Hsh Hcons Hbfs.
  destruct (bfs_spec _ _ _ _ _ Hsh Hcons Hbfs) as (_ & [El Er] & _ & Hzero & Hsink & Hclosed).
  split; [done| |done].
  intros u [Hu Hfree]. exists 0%nat. apply Hzero. split; [done|by rewrite <- El].
Qed.

(** X6. [bfs] returns, leaves the matching as it is, and answers [true]
    exactly when the matching held by the engine has an augmenting path in
    the graph.  The layer 0 it builds is the set of unmatched left
    vertices. *)
Theorem bfs_true_iff_augmenting_path g st :
  well_formed g → shape g st → consistent st →
  (∀ fuel, (2 * length (this_dist st) ≤ fuel)%nat →
           ∃ b st', bfs g fuel st = Ok (b, st'))
  ∧ ∀ fuel b st', bfs g fuel st = Ok (b, st') →
      same_matching st st'
      ∧ (b = true ↔ augmenting_path g (held st))
      ∧ (∀ u, 0 ≤ u < leftSize g →
              (dst st' u = Some (Fin 0) ↔ mL st u = Some NIL)).
Proof.
  intros Hwf Hsh Hcons. split; [intros fuel Hfuel; by apply bfs_total|].
  intros fuel b st' Hbfs.
  destruct (bfs_spec _ _ _ _ _ Hsh Hcons Hbfs) as (Hsh' & Hsame & Hlay & Hzero & Hres).
  pose proof Hsame as [El Er].
  pose proof (consistent_same _ _ Hsame Hcons) as Hcons'.
  split_and!; [done| |].
  - destruct b.
    + split; [intros _|done]. destruct Hres as [j Hj].
      destruct (layered_reach g st' Hlay j (leftSize g) Hj) as (u0 & [Hu0 Hfree] & Hreach);
        [constructor|].
      apply (reach_augmenting g st' (held st) Hsh' Hcons' (eq_sym El) (eq_sym Er) u0);
        [done|lia|].
      apply alt_free; [done|]. simpl. by rewrite <- El.
    + split; [done|]. intros Hpath. exfalso.
      by apply (stable_no_augmenting_path g st' (held st) Hwf
                  (bfs_false_stable _ _ _ _ Hsh Hcons Hbfs)).
  - intros u Hu. split.
    + intros Hd. destruct Hlay as [Hz _ _]. destruct (Hz u Hd) as [_ Hfree].
      by rewrite <- El.
    + intros Hfree. by apply Hzero.
Qed.

Lemma example_first_layering :
  bfs example_graph 9 (state example_engine) = Ok (true, example_layered).
Proof. vm_compute. reflexivity. Defined.

Lemma example_engine_ok : engine_ok example_engine.
Proof.
  exact (proj1 (proj2 (new_engine_ok example_graph example_engine
                         example_graph_well_formed eq_refl))).
Defined.

Lemma bfs_true_iff_augmenting_path_witness :
  bfs example_graph 9 (state example_engine) = Ok (true, example_layered)
  ∧ augmenting_path example_graph (held (state example_engine)).
Proof.
  split; [exact example_first_layering|].
  exact (proj1 (proj1 (proj2
    (proj2 (bfs_true_iff_augmenting_path example_graph (state example_engine)
              example_graph_well_formed (ok_shape _ example_engine_ok)
              (ok_consistent _ example_engine_ok))
       9%nat true example_layered example_first_layering))) eq_refl).
Defined.

(** X7. [dfs] from an unmatched left vertex of layer 0, as
    [findMaximumMatching] calls it: it returns; when it answers [true] the
    vertex is matched along an edge, the matching has exactly one pair more
    and every new pair is an edge; when it answers [false] the matching is
    unchanged and no layered path led from the vertex to the sink.  In both
    cases the arrays keep their lengths, [matchLeft] and [matchRight] stay
    inverse to each other, and no matched vertex becomes unmatched. *)
Theorem dfs_from_free_vertex g u st :
  well_formed g → shape g st → consistent st → bounded st →
  mL st u = Some NIL → dst st u = Some (Fin 0) →
  (∀ fuel, (length (this_dist st) < fuel)%nat → ∃ r, dfs g fuel u st = Ok r)
  ∧ ∀ fuel b st', dfs g fuel u st = Ok (b, st') →
      shape g st' ∧ consistent st' ∧ kept st st'
      ∧ if b
        then matched_count (this_matchLeft st') = matched_count (this_matchLeft st) + 1
             ∧ (∃ v, mL st' u = Some v ∧ mR st' v = Some u ∧ edge g u v)
             ∧ grown g st st'
        else same_matching st st' ∧ ¬ reach g st u.
Proof.
  intros Hwf Hsh Hcons Hb Hfree Hdu.
  pose proof (free_not_sink g st u Hsh Hfree) as HuS.
  split.
  { intros fuel Hfuel. apply (dfs_total g Hwf fuel u st 0%nat); try done; [|lia].
    apply zget_lt in Hfree. destruct Hsh as [Hl _ _]. lia. }
  intros fuel b st' Hrun.
  destruct (dfs_spec g fuel u st b st' Hsh Hcons Hrun) as [_ Hpost].
  destruct (Hpost HuS 0%nat Hdu) as (Hsh' & _ & Hres).
  split; [done|]. destruct b.
  - destruct (augmented_top g st st' u Hsh Hsh' Hcons Hfree Hres)
      as (Hcons' & Hgrown & Hcount & _).
    split_and!; try done; [by eapply augmented_kept|].
    destruct Hres as [(v & Huv & _ & Hvu & Hedge & _) _ _ _ _]. by exists v.
  - destruct Hres as (Hsame & _ & Hnreach).
    split_and!; try done; [by eapply consistent_same|by apply same_matching_kept].
Qed.

Lemma example_first_augmentation :
  dfs example_graph 9 0 example_layered = Ok (true, example_augmented).
Proof. vm_compute. reflexivity. Defined.

Lemma dfs_from_free_vertex_witness :
  dfs example_graph 9 0 example_layered = Ok (true, example_augmented)
  ∧ matched_count (this_matchLeft example_augmented)
    = matched_count (this_matchLeft example_layered) + 1.
Proof.
  split; [exact example_first_augmentation|].
  pose proof (bfs_spec example_graph 9 (state example_engine) true example_layered
                (ok_shape _ example_engine_ok) (ok_consistent _ example_engine_ok)
                example_first_layering) as (Hsh & Hsame & Hlay & _).
  exact (proj1 (proj2 (proj2 (proj2
    (proj2 (dfs_from_free_vertex example_graph 0 example_layered
              example_graph_well_formed Hsh
              (consistent_same _ _ Hsame (ok_consistent _ example_engine_ok))
              (layered_bounded _ _ Hlay) eq_refl eq_refl)
       9%nat true example_augmented example_first_augmentation))))).
Defined.


(** * Calls of the public methods, one after another *)

Lemma reachable_returns this :
  reachable this → ∃ fuel M this', findMaximumMatching fuel this = Ok (M, this').
Proof.
  intros [Hwf Hsh Hcons]%reachable_ok. exists (enough_fuel (graph this)).
  by apply findMaximumMatching_returns.
Qed.

Lemma sparse_graph_well_formed : well_formed sparse_graph.
Proof. split; [simpl; lia|simpl; lia|reflexivity]. Defined.

Lemma sparse_first_call :
  findMaximumMatching 9 sparse_engine = Ok (sparse_matching, sparse_engine_after).
Proof. vm_compute. reflexivity. Defined.

Lemma sparse_second_call :
  findMaximumMatching 9 (mutate sparse_engine_after grown_rows)
  = Ok (grown_matching, grown_engine_after).
Proof. vm_compute. reflexivity. Defined.

Lemma sparse_engine_after_reachable : reachable sparse_engine_after.
Proof.
  exact (reachable_maximum 9 sparse_engine sparse_matching sparse_engine_after
           (reachable_new sparse_graph sparse_engine sparse_graph_well_formed eq_refl)
           sparse_first_call).
Defined.

Lemma grown_engine_reachable : reachable (mutate sparse_engine_after grown_rows).
Proof.
  exact (reachable_mutate sparse_engine_after grown_rows
           sparse_engine_after_reachable eq_refl).
Defined.

(** X8. What [size] counts: the pairs added by this call.  On every engine,
    also after earlier calls and after the caller rewrote rows, the returned
    [size] is the number of matched left vertices of the returned matching
    minus the number the engine held when the call started; the returned
    arrays have as many matched right vertices as matched left vertices. *)
Theorem findMaximumMatching_size_is_growth this :
  reachable this →
  (∃ fuel M this', findMaximumMatching fuel this = Ok (M, this'))
  ∧ ∀ fuel M this', findMaximumMatching fuel this = Ok (M, this') →
      size M = matched_count (matchLeft M)
               - matched_count (this_matchLeft (state this))
      ∧ matched_count (matchRight M) = matched_count (matchLeft M).
Proof.
  intros Hreach. split; [by apply reachable_returns|].
  intros fuel M this' Hcall. apply reachable_ok in Hreach.
  destruct (findMaximumMatching_spec _ _ _ _ Hreach Hcall)
    as (Hg & [_ Hsh' Hcons'] & _ & _ & El & Er & Hsize & _).
  destruct (consistent_count _ _ Hsh' Hcons') as [Heq _].
  rewrite El, Er. done.
Qed.

Lemma findMaximumMatching_size_is_growth_witness :
  size grown_matching
  = matched_count (matchLeft grown_matching)
    - matched_count (this_matchLeft (state (mutate sparse_engine_after grown_rows)))
  ∧ matched_count (matchRight grown_matching) = matched_count (matchLeft grown_matching).
Proof.
  exact (proj2 (findMaximumMatching_size_is_growth
                  (mutate sparse_engine_after grown_rows) grown_engine_reachable)
           9%nat grown_matching grown_engine_after sparse_second_call).
Defined.

(** X9. A call never unmatches a vertex: every left vertex and every right
    vertex that the engine held matched when the call started is matched in
    the returned arrays (possibly to another partner).  This holds on every
    engine, so pairs found before the caller rewrote the rows are not
    dropped, whatever the rows say now. *)
Theorem findMaximumMatching_keeps_matched this :
  reachable this →
  (∃ fuel M this', findMaximumMatching fuel this = Ok (M, this'))
  ∧ ∀ fuel M this', findMaximumMatching fuel this = Ok (M, this') →
      (∀ u v, mL (state this) u = Some v → v ≠ NIL →
              ∃ v', zget (matchLeft M) u = Some v' ∧ v' ≠ NIL)
      ∧ (∀ v u, mR (state this) v = Some u → u ≠ NIL →
                ∃ u', zget (matchRight M) v = Some u' ∧ u' ≠ NIL).
Proof.
  intros Hreach. split; [by apply reachable_returns|].
  intros fuel M this' Hcall. apply reachable_ok in Hreach as [_ Hsh Hcons].
  apply findMaximumMatching_Ok in Hcall as (st & n & Hrun & -> & ->). simpl.
  exact (phases_kept _ _ _ _ _ _ _ Hsh Hcons Hrun).
Qed.

Lemma findMaximumMatching_keeps_matched_witness :
  ∃ v', zget (matchLeft grown_matching) 1 = Some v' ∧ v' ≠ NIL.
Proof.
  refine (proj1 (proj2 (findMaximumMatching_keeps_matched
                          (mutate sparse_engine_after grown_rows) grown_engine_reachable)
                   9%nat grown_matching grown_engine_after sparse_second_call) 1 1 _ _).
  - reflexivity.
  - unfold NIL. lia.
Defined.

Lemma edge_extends g rows u v :
  Forall2 (⊆) (edges g) rows → edge g u v →
  edge {| leftSize := leftSize g; rightSize := rightSize g; edges := rows |} u v.
Proof.
  intros Hrows (row & Hrow & Hv & Hr). apply zget_Some in Hrow as [Hu Hrow].
  destruct (Forall2_lookup_l _ _ _ _ _ Hrows Hrow) as (row' & Hrow' & Hsub).
  exists row'. simpl. split; [by apply zget_Some|]. split; [by apply Hsub|done].
Qed.

(** X10. Adding edges between calls: when the caller only adds entries to
    the rows of the graph an engine refers to, the next call returns a
    maximum matching of the graph as it is now: a matching of it that admits
    no augmenting path and that no matching of it exceeds.  Its number of
    pairs is the returned [size] plus the number of pairs the engine held
    before. *)
Theorem findMaximumMatching_after_added_edges g this rows :
  well_formed g → after_calls g this → Forall2 (⊆) (edges g) rows →
  let g' := graph (mutate this rows) in
  (∃ fuel M this', findMaximumMatching fuel (mutate this rows) = Ok (M, this'))
  ∧ ∀ fuel M this', findMaximumMatching fuel (mutate this rows) = Ok (M, this') →
      valid_matching g' M
      ∧ ¬ augmenting_path g' M
      ∧ (∀ pairs, is_matching g' pairs → (length pairs ≤ length (pairs_of M))%nat)
      ∧ Z.of_nat (length (pairs_of M))
        = size M + matched_count (this_matchLeft (state this)).
Proof.
  intros Hwf Hafter Hrows g'.
  destruct (after_calls_ok g this Hwf Hafter) as (Hg & [_ Hsh Hcons] & Hin).
  assert (well_formed g') as Hwf'.
  { destruct Hwf as [Hl Hr Hlen]. subst g'. split; simpl; rewrite ?Hg; try done.
    apply Forall2_length in Hrows. unfold zlen in *. lia. }
  assert (engine_ok (mutate this rows)) as Hok.
  { split; [exact Hwf'| |exact Hcons]. destruct Hsh as [? ? ?]. split; simpl; done. }
  assert (in_graph g' (state this)) as Hin'.
  { intros u v Huv Hv. subst g'. simpl. rewrite Hg. apply edge_extends; [done|].
    by apply Hin. }
  split.
  { exists (enough_fuel g'). destruct Hok. by apply findMaximumMatching_returns. }
  intros fuel M this' Hcall.
  destruct (findMaximumMatching_spec _ _ _ _ Hok Hcall)
    as (Hg' & Hok' & Hgrown & Hstable & El & Er & Hsize & _).
  fold g' in Hg', Hgrown, Hstable.
  assert (valid_matching g' M) as Hvalid.
  { apply (engine_valid_matching g' this'); try done.
    intros u v Huv Hv. destruct (Hgrown u v Huv Hv); [by apply Hin'|done]. }
  destruct (pairs_of_matching g' M Hvalid) as (Hpairs & Hlen & _).
  destruct Hok' as [_ Hsh' Hcons']. rewrite Hg' in Hsh'.
  split_and!; try done.
  - by apply (stable_no_augmenting_path g' (state this')).
  - intros pairs Hp.
    pose proof (stable_maximum g' (state this') pairs Hwf' Hsh' Hcons' Hstable Hp).
    rewrite El in Hlen. lia.
  - rewrite Hlen, Hsize, El. simpl. lia.
Qed.

Lemma findMaximumMatching_after_added_edges_witness :
  findMaximumMatching 9 (mutate sparse_engine_after grown_rows)
  = Ok (grown_matching, grown_engine_after)
  ∧ valid_matching {| leftSize := 3; rightSize := 3; edges := grown_rows |} grown_matching
  ∧ Z.of_nat (length (pairs_of grown_matching))
    = size grown_matching + matched_count (this_matchLeft (state sparse_engine_after)).
Proof.
  split; [exact sparse_second_call|].
  refine ((λ H, conj (proj1 H) (proj2 (proj2 (proj2 H))))
    (proj2 (findMaximumMatching_after_added_edges sparse_graph sparse_engine_after
              grown_rows sparse_graph_well_formed _ _)
       9%nat grown_matching grown_engine_after sparse_second_call)).
  - exact (after_maximum sparse_graph 9 sparse_engine sparse_matching sparse_engine_after
             (after_new sparse_graph sparse_engine eq_refl) sparse_first_call).
  - repeat apply Forall2_cons_2; try apply Forall2_nil_2; intros x Hx; try exact Hx.
    by apply elem_of_nil in Hx.
Defined.

(** X11. [findPerfectMatching] after a completed call: on an engine that
    has already answered a call of [findMaximumMatching], and whose graph was
    left alone since, [findPerfectMatching] changes nothing and returns
    [null], unless both partitions are empty, whether or not the matching
    the engine holds is perfect. *)
Theorem findPerfectMatching_after_findMaximumMatching this fuel M this1 :
  reachable this → findMaximumMatching fuel this = Ok (M, this1) →
  (∃ fuel2 r this2, findPerfectMatching fuel2 this1 = Ok (r, this2))
  ∧ ∀ fuel2 r this2, findPerfectMatching fuel2 this1 = Ok (r, this2) →
      this2 = this1
      ∧ (r ≠ None ↔ leftSize (graph this) = 0 ∧ rightSize (graph this) = 0).
Proof.
  intros Hok%reachable_ok Hcall.
  destruct (findMaximumMatching_spec _ _ _ _ Hok Hcall) as (Hg & Hok1 & _).
  assert (Hstep : ∀ fuel2 r this2, findPerfectMatching fuel2 this1 = Ok (r, this2) →
            this2 = this1
            ∧ (r ≠ None ↔ leftSize (graph this) = 0 ∧ rightSize (graph this) = 0)).
  { intros fuel2 r this2. unfold findPerfectMatching.
    intros ([M2 this2'] & Hcall2 & Hres)%obind_Ok.
    destruct (later_call_reports_zero _ _ _ _ _ _ _ Hok Hcall Hcall2)
      as (Hzero & _ & _ & ->).
    rewrite Hzero, Hg in Hres. destruct (decide _) as [[? ?]|Hno];
      injection Hres as <- <-; (split; [done|]); split; try done.
    intros [? ?]. exfalso. apply Hno. done. }
  split; [|done].
  destruct Hok1 as [Hwf1 Hsh1 Hcons1].
  destruct (findMaximumMatching_returns (enough_fuel (graph this1)) this1)
    as (M2 & this2 & Hcall2); try done.
  exists (enough_fuel (graph this1)). unfold findPerfectMatching. rewrite Hcall2. simpl.
  destruct (decide _); by eexists _, _.
Qed.

Lemma example_perfect_after_maximum :
  findPerfectMatching 9 example_engine_after = Ok (None, example_engine_after).
Proof. vm_compute. reflexivity. Defined.

Lemma findPerfectMatching_after_findMaximumMatching_witness :
  findMaximumMatching 9 example_engine = Ok (example_matching, example_engine_after)
  ∧ findPerfectMatching 9 example_engine_after = Ok (None, example_engine_after)
  ∧ ((None : option Matching) ≠ None
     ↔ leftSize (graph example_engine) = 0 ∧ rightSize (graph example_engine) = 0).
Proof.
  split; [exact example_first_call|]. split; [exact example_perfect_after_maximum|].
  exact (proj2 (proj2 (findPerfectMatching_after_findMaximumMatching example_engine 9
                         example_matching example_engine_after example_engine_reachable
                         example_first_call)
                  9%nat None example_engine_after example_perfect_after_maximum)).
Defined.

Lemma matched_count_full l :
  matched_count l = zlen l → ∀ i x, zget l i = Some x → x ≠ NIL.
Proof.
  unfold matched_count, zlen. intros Hlen i x [_ Hx%list_elem_of_lookup_2]%zget_Some Heq.
  pose proof (length_filter_lt (λ v, v ≠ NIL) l x Hx) as Hlt.
  assert (¬ x ≠ NIL) as Hn by (intros ?; done). specialize (Hlt Hn). lia.
Qed.

(** X12. The first call of [findPerfectMatching] on a new engine returns a
    matching exactly when the graph has a perfect matching, and [null]
    otherwise.  The matching it returns is perfect: every left vertex has a
    partner along an edge, and so has every right vertex. *)
Theorem findPerfectMatching_iff_perfect_exists g this :
  well_formed g → new_HopcroftKarp g = Ok this →
  (∃ fuel r this', findPerfectMatching fuel this = Ok (r, this'))
  ∧ ∀ fuel r this', findPerfectMatching fuel this = Ok (r, this') →
      (r ≠ None ↔ ∃ pairs, perfect g pairs)
      ∧ ∀ M, r = Some M →
          perfect g (pairs_of M)
          ∧ (∀ u, 0 ≤ u < leftSize g →
                  ∃ v, zget (matchLeft M) u = Some v ∧ v ≠ NIL ∧ edge g u v)
          ∧ (∀ v, 0 ≤ v < rightSize g →
                  ∃ u, zget (matchRight M) v = Some u ∧ u ≠ NIL ∧ edge g u v).
Proof.
  intros Hwf Hnew.
  destruct (new_engine_ok _ _ Hwf Hnew) as (Hg & Hok & Hin & Hzero).
  split.
  { pose proof Hok as [Hwf0 Hsh0 Hcons0].
    destruct (findMaximumMatching_returns (enough_fuel (graph this)) this)
      as (M & this' & Hcall); try done.
    exists (enough_fuel (graph this)). unfold findPerfectMatching. rewrite Hcall. simpl.
    destruct (decide _); by eexists _, _. }
  intros fuel r this'. unfold findPerfectMatching.
  intros ([M this1] & Hcall & Hres)%obind_Ok.
  destruct (findMaximumMatching_spec _ _ _ _ Hok Hcall)
    as (Hg' & Hok' & Hgrown & Hstable & El & Er & Hsize & _).
  rewrite Hg in *.
  assert (valid_matching g M) as Hvalid.
  { apply (engine_valid_matching g this1); try done.
    intros u v Huv Hv. destruct (Hgrown u v Huv Hv); [by apply Hin|done]. }
  destruct (pairs_of_matching g M Hvalid) as (Hpairs & Hlen & _).
  destruct Hok' as [_ Hsh' Hcons']. rewrite Hg' in Hsh'.
  destruct (consistent_count _ _ Hsh' Hcons') as [Hcount Hmin].
  rewrite Hzero, Z.sub_0_r, <- El in Hsize. rewrite <- El in Hcount, Hmin.
  rewrite <- Er in Hcount.
  assert (Hperfect : size M = leftSize g ∧ size M = rightSize g → perfect g (pairs_of M)).
  { intros [? ?]. split; [done|]. lia. }
  split.
  - destruct (decide _) as [Hyes|Hno]; injection Hres as <- <-; split; try done.
    + intros _. exists (pairs_of M). by apply Hperfect.
    + intros (pairs & Hp & Hl & Hr). exfalso. apply Hno.
      pose proof (stable_maximum g (state this1) pairs Hwf Hsh' Hcons' Hstable Hp).
      rewrite <- El in *. lia.
  - intros M' ->. destruct (decide _) as [Hyes|Hno]; [|done].
    injection Hres as <- <-. split; [by apply Hperfect|].
    destruct Hyes as [HL HR]. destruct Hvalid as [Hll Hrl Hleft Hright]. split.
    + intros u Hu. destruct (zget_is_Some (matchLeft M) u) as [v Hv]; [lia|].
      assert (v ≠ NIL) as Hne by (eapply (matched_count_full (matchLeft M)); [lia|done]).
      exists v. split_and!; try done. by apply Hleft.
    + intros v Hv. destruct (zget_is_Some (matchRight M) v) as [u Hu]; [lia|].
      assert (u ≠ NIL) as Hne by (eapply (matched_count_full (matchRight M)); [lia|done]).
      exists u. split_and!; try done. apply Hleft; [by apply Hright|].
      apply zget_lt in Hu. unfold NIL. lia.
Qed.

Lemma example_perfect_call :
  findPerfectMatching 9 example_engine = Ok (Some example_matching, example_engine_after).
Proof. vm_compute. reflexivity. Defined.

Lemma findPerfectMatching_iff_perfect_exists_witness :
  findPerfectMatching 9 example_engine = Ok (Some example_matching, example_engine_after)
  ∧ ∃ pairs, perfect example_graph pairs.
Proof.
  split; [exact example_perfect_call|].
  refine (proj1 (proj1 (proj2 (findPerfectMatching_iff_perfect_exists example_graph
                          example_engine example_graph_well_formed eq_refl)
                   9%nat (Some example_matching) example_engine_after
                   example_perfect_call)) _).
  discriminate.
Defined.


(** * From the input pairs to the matching *)

(** The edges of a built graph are the in-range pairs of the input. *)
Lemma edge_built l r es o g u v :
  createBipartiteGraph l r es o = Ok g →
  edge g u v ↔ (u, v) ∈ es ∧ edge_in_range l r (u, v).
Proof.
  intros (_ & _ & adj & Hadd & ->)%createBipartiteGraph_Ok.
  pose proof (add_edges_length _ _ _ _ _ _ _ Hadd) as Hlen.
  rewrite length_replicate in Hlen.
  assert (Hrow : 0 ≤ u < l → zget adj u = Some (retained_row l r es u)).
  { intros Hu. apply zget_Some. split; [lia|].
    rewrite (add_edges_rows _ _ _ _ _ _ _ _ Hadd).
    rewrite lookup_replicate_2 by lia. simpl. by rewrite Z2Nat.id by lia. }
  assert (Hin : v ∈ retained_row l r es u ↔ (u, v) ∈ es ∧ edge_in_range l r (u, v)).
  { unfold retained_row. rewrite list_elem_of_fmap. split.
    - intros ([u' v'] & -> & [[Hu ?] ?]%list_elem_of_filter). simpl in Hu. by subst.
    - intros [? ?]. exists (u, v). split; [done|]. by apply list_elem_of_filter. }
  unfold edge. simpl. split.
  - intros (row & Hget & Hv & _).
    assert (0 ≤ u < l) as Hu by (apply zget_lt in Hget; unfold zlen in Hget; lia).
    rewrite (Hrow Hu) in Hget. injection Hget as <-. by apply Hin.
  - intros [Hes Hr]. pose proof Hr as [Hu Hv]. simpl in Hu, Hv.
    exists (retained_row l r es u).
    split; [by apply Hrow|]. split; [by apply Hin|done].
Qed.

(** The first call on a new engine: the pairs returned form a matching with
    [size] pairs, and no matching of the graph has more. *)
Lemma first_call_maximum g this fuel M this' :
  well_formed g → new_HopcroftKarp g = Ok this →
  findMaximumMatching fuel this = Ok (M, this') →
  is_matching g (pairs_of M)
  ∧ Z.of_nat (length (pairs_of M)) = size M
  ∧ ∀ pairs, is_matching g pairs → Z.of_nat (length pairs) ≤ size M.
Proof.
  intros Hwf Hnew Hcall.
  destruct (new_engine_ok _ _ Hwf Hnew) as (Hg & Hok & Hin & Hzero).
  destruct (findMaximumMatching_spec _ _ _ _ Hok Hcall)
    as (Hg' & Hok' & Hgrown & Hstable & El & Er & Hsize & _).
  rewrite Hg in *.
  assert (valid_matching g M) as Hvalid.
  { apply (engine_valid_matching g this'); try done.
    intros u v Huv Hv. destruct (Hgrown u v Huv Hv); [by apply Hin|done]. }
  destruct (pairs_of_matching g M Hvalid) as (Hpairs & Hlen & _).
  destruct Hok' as [_ Hsh' Hcons']. rewrite Hg' in Hsh'.
  rewrite Hzero, Z.sub_0_r, <- El in Hsize.
  split; [done|]. split; [lia|].
  intros pairs Hp.
  pose proof (stable_maximum g (state this') pairs Hwf Hsh' Hcons' Hstable Hp).
  rewrite <- El in *. lia.
Qed.

Lemma is_matching_same_edges g1 g2 pairs :
  (∀ u v, edge g1 u v → edge g2 u v) → is_matching g1 pairs → is_matching g2 pairs.
Proof. intros He [H1 H2 H3]. split; try done. intros u v Huv. by apply He, H1. Qed.

Lemma new_engine_returns g this :
  well_formed g → new_HopcroftKarp g = Ok this →
  ∃ fuel M this', findMaximumMatching fuel this = Ok (M, this').
Proof.
  intros Hwf Hnew. apply reachable_returns. by apply (reachable_new g).
Qed.

(** X13. The size of the matching depends on the set of in-range input
    pairs only.  Two inputs that hold the same in-range pairs, in whatever
    order, with whatever repetitions and whatever out-of-range pairs
    besides, built with whatever options, give graphs on which the first
    call of [findMaximumMatching] on a new engine returns the same [size]. *)
Theorem matching_size_depends_on_edge_set l r es es' o o' g g' this this' :
  (∀ e, edge_in_range l r e → (e ∈ es ↔ e ∈ es')) →
  createBipartiteGraph l r es o = Ok g →
  createBipartiteGraph l r es' o' = Ok g' →
  new_HopcroftKarp g = Ok this → new_HopcroftKarp g' = Ok this' →
  (∃ fuel M t, findMaximumMatching fuel this = Ok (M, t))
  ∧ (∃ fuel M t, findMaximumMatching fuel this' = Ok (M, t))
  ∧ ∀ fuel fuel' M M' t t',
      findMaximumMatching fuel this = Ok (M, t) →
      findMaximumMatching fuel' this' = Ok (M', t') →
      size M = size M'.
Proof.
  intros Hsame Hg Hg' Hnew Hnew'.
  assert (0 ≤ l ∧ 0 ≤ r) as [Hl Hr].
  { apply new_HopcroftKarp_Ok in Hnew as (? & ? & _).
    apply createBipartiteGraph_Ok in Hg as (_ & _ & adj & _ & ->). done. }
  pose proof (createBipartiteGraph_well_formed _ _ _ _ _ Hg Hl Hr) as Hwf.
  pose proof (createBipartiteGraph_well_formed _ _ _ _ _ Hg' Hl Hr) as Hwf'.
  assert (Hedges : ∀ u v, edge g u v ↔ edge g' u v).
  { intros u v. rewrite (edge_built _ _ _ _ _ u v Hg), (edge_built _ _ _ _ _ u v Hg').
    split; intros [? ?]; (split; [|done]); by apply (Hsame (u, v)). }
  split; [by apply (new_engine_returns g)|]. split; [by apply (new_engine_returns g')|].
  intros fuel fuel' M M' t t' Hcall Hcall'.
  destruct (first_call_maximum g this fuel M t Hwf Hnew Hcall) as (Hp & Hlen & Hmax).
  destruct (first_call_maximum g' this' fuel' M' t' Hwf' Hnew' Hcall')
    as (Hp' & Hlen' & Hmax').
  assert (is_matching g' (pairs_of M)) as H1.
  { apply (is_matching_same_edges g); [intros u v; apply Hedges|done]. }
  assert (is_matching g (pairs_of M')) as H2.
  { apply (is_matching_same_edges g'); [intros u v; apply Hedges|done]. }
  apply Hmax' in H1. apply Hmax in H2. lia.
Qed.

Lemma example_graph_built_again :
  createBipartiteGraph 3 3
    [(2, 2); (0, 0); (7, 0); (0, 1); (0, 0); (1, 1); (1, 2); (2, 0); (1, -1); (2, 2)]
    {| validateInput := Some false; skipInvalidEdges := Some false |}
  = Ok {| leftSize := 3; rightSize := 3; edges := [[0; 1; 0]; [1; 2]; [2; 0; 2]] |}.
Proof. vm_compute. reflexivity. Defined.

Lemma example_call_again :
  findMaximumMatching 9
    {| graph := {| leftSize := 3; rightSize := 3;
                   edges := [[0; 1; 0]; [1; 2]; [2; 0; 2]] |};
       state := state example_engine |}
  = Ok ({| matchLeft := [0; 1; 2]; matchRight := [0; 1; 2]; size := 3 |},
        {| graph := {| leftSize := 3; rightSize := 3;
                       edges := [[0; 1; 0]; [1; 2]; [2; 0; 2]] |};
           state := state example_engine_after |}).
Proof. vm_compute. reflexivity. Defined.

Lemma matching_size_depends_on_edge_set_witness :
  size example_matching
  = size {| matchLeft := [0; 1; 2]; matchRight := [0; 1; 2]; size := 3 |}.
Proof.
  refine (proj2 (proj2
    (matching_size_depends_on_edge_set 3 3
       [(0, 0); (0, 1); (1, 1); (1, 2); (2, 0); (2, 2)]
       [(2, 2); (0, 0); (7, 0); (0, 1); (0, 0); (1, 1); (1, 2); (2, 0); (1, -1); (2, 2)]
       {| validateInput := None; skipInvalidEdges := None |}
       {| validateInput := Some false; skipInvalidEdges := Some false |}
       _ _ _ _ _ example_graph_built example_graph_built_again eq_refl eq_refl))
    9%nat 9%nat _ _ _ _ example_first_call example_call_again).
  intros [u v] [Hu Hv]. simpl in Hu, Hv.
  assert (u = 0 ∨ u = 1 ∨ u = 2) as Hcu by lia.
  assert (v = 0 ∨ v = 1 ∨ v = 2) as Hcv by lia.
  destruct Hcu as [-> | [-> | ->]], Hcv as [-> | [-> | ->]];
    apply (bool_decide_unpack _); vm_compute; exact I.
Defined.




(** * The number of rounds *)

Lemma phases_S g fuel rounds st n :
  phases g fuel (S rounds) st n
  = ('(reachable, st1) ←? bfs g fuel st;
     if reachable : bool then
       '(st2, n2) ←? augment g fuel (seqZ 0 (leftSize g)) st1 n;
       phases g fuel rounds st2 n2
     else Ok (st1, n)).
Proof. done. Qed.

(** Every round that does not end the loop adds a pair, so the loop needs
    no more rounds than pairs it adds, plus the last. *)
Lemma phases_rounds g fuel : ∀ rounds st n st' n',
  shape g st → consistent st →
  phases g fuel rounds st n = Ok (st', n') →
  phases g fuel (S (Z.to_nat (n' - n))) st n = Ok (st', n').
Proof.
  induction rounds as [|rounds IH]; intros st n st' n' Hsh Hcons Hrun; [done|].
  rewrite phases_S in *.
  apply obind_Ok in Hrun as ([reachable st1] & Hbfs & Hrun). rewrite Hbfs. simpl.
  destruct reachable; [|done].
  destruct (bfs_spec _ _ _ _ _ Hsh Hcons Hbfs) as (Hsh1 & Hsame1 & _ & Hzero1 & _).
  pose proof Hsame1 as [El Er].
  pose proof (consistent_same _ _ Hsame1 Hcons) as Hcons1.
  apply obind_Ok in Hrun as ([st2 n2] & Haug & Hrun). rewrite Haug. simpl.
  destruct (augment_spec g fuel (seqZ 0 (leftSize g)) st1 n st2 n2 (NoDup_seqZ _ _)
              Hsh1 Hcons1) as (Hsh2 & Hcons2 & _ & _ & _ & _ & Hprog); [|done|].
  { intros y Hy Hfree. apply Hzero1. apply elem_of_seqZ in Hy.
    split; [lia|by rewrite <- El]. }
  specialize (Hprog (bfs_true_reach _ _ _ _ Hsh Hcons Hbfs)).
  destruct (phases_spec _ _ _ _ _ _ _ Hsh2 Hcons2 Hrun) as (_ & _ & _ & _ & _ & Hle).
  apply (phases_mono g fuel fuel (Nat.le_refl _) (S (Z.to_nat (n' - n2)))); [lia|].
  by apply IH.
Qed.

(** X15. Every pass through the body of the loop [while (this.bfs())] adds
    at least one pair, so the loop test is evaluated at most [size + 1]
    times during a call: run with that many rounds, the loop gives the
    result of the call. *)
Theorem findMaximumMatching_round_bound this :
  reachable this →
  (∃ fuel M this', findMaximumMatching fuel this = Ok (M, this'))
  ∧ ∀ fuel M this', findMaximumMatching fuel this = Ok (M, this') →
      phases (graph this) fuel (S (Z.to_nat (size M))) (state this) 0
      = Ok (state this', size M).
Proof.
  intros Hreach. split; [by apply reachable_returns|].
  intros fuel M this' Hcall. apply reachable_ok in Hreach as [_ Hsh Hcons].
  apply findMaximumMatching_Ok in Hcall as (st & n & Hrun & -> & ->). simpl.
  apply phases_rounds in Hrun; [|done|done]. by rewrite Z.sub_0_r in Hrun.
Qed.

Lemma findMaximumMatching_round_bound_witness :
  phases star_graph 9 (S (Z.to_nat (size star_matching))) (state star_engine) 0
  = Ok (state star_engine_after, size star_matching).
Proof.
  exact (proj2 (findMaximumMatching_round_bound star_engine star_engine_reachable)
           9%nat star_matching star_engine_after star_first_call).
Defined.

(** * Engines in one store *)

(** X16. Two engines do not share their arrays.  When two engines have been
    constructed in a store, one after the other, a call of
    [findMaximumMatching] on either of them leaves the arrays of the other,
    as read back from the store, as they were. *)
Theorem engines_are_independent g1 g2 (h : gmap positive (list Z)) e1 h1 e2 h2 :
  Heap.new_HopcroftKarp g1 h = Ok (e1, h1) →
  Heap.new_HopcroftKarp g2 h1 = Ok (e2, h2) →
  (∀ fuel snap e1' h3, Heap.findMaximumMatching fuel e1 h2 = Ok (snap, e1', h3) →
                       Heap.load h3 e2 = Heap.load h2 e2)
  ∧ (∀ fuel snap e2' h3, Heap.findMaximumMatching fuel e2 h2 = Ok (snap, e2', h3) →
                         Heap.load h3 e1 = Heap.load h2 e1).
Proof.
  intros Hnew1 Hnew2.
  destruct (heap_new_HopcroftKarp_distinct _ _ _ _ Hnew1)
    as (_ & _ & _ & this1 & _ & (ml1 & mr1 & Hl1 & Hr1 & _)%load_Ok).
  destruct (heap_new_HopcroftKarp_distinct _ _ _ _ Hnew2)
    as (_ & Hf1 & Hf2 & this2 & _ & (ml2 & mr2 & Hl2 & Hr2 & _)%load_Ok).
  assert (Heap.eng_matchLeft e1 ∈ dom h1) as Hd1 by (apply elem_of_dom; eauto).
  assert (Heap.eng_matchRight e1 ∈ dom h1) as Hd2 by (apply elem_of_dom; eauto).
  assert (Heap.eng_matchLeft e1 ∈ dom h2 ∧ Heap.eng_matchRight e1 ∈ dom h2) as [Hd1' Hd2'].
  { unfold Heap.new_HopcroftKarp, Heap.alloc in Hnew2.
    apply obind_Ok in Hnew2 as (this & _ & [= _ <-]).
    rewrite !dom_insert. split; apply elem_of_union; right; apply elem_of_union; by right. }
  assert (Heap.eng_matchLeft e2 ∈ dom h2) as Hd3 by (apply elem_of_dom; eauto).
  assert (Heap.eng_matchRight e2 ∈ dom h2) as Hd4 by (apply elem_of_dom; eauto).
  split.
  - intros fuel snap e1' h3 Hcall. unfold Heap.load, Heap.deref.
    rewrite (heap_findMaximumMatching_frame _ _ _ _ _ _ (Heap.eng_matchLeft e2) Hcall),
            (heap_findMaximumMatching_frame _ _ _ _ _ _ (Heap.eng_matchRight e2) Hcall);
      try done; intros Heq; rewrite Heq in *; done.
  - intros fuel snap e2' h3 Hcall. unfold Heap.load, Heap.deref.
    rewrite (heap_findMaximumMatching_frame _ _ _ _ _ _ (Heap.eng_matchLeft e1) Hcall),
            (heap_findMaximumMatching_frame _ _ _ _ _ _ (Heap.eng_matchRight e1) Hcall);
      try done; intros Heq; rewrite <- Heq in *; done.
Qed.


Lemma two_engines_built :
  Heap.new_HopcroftKarp star_graph empty_store = Ok (star_object, star_store)
  ∧ Heap.new_HopcroftKarp star_graph star_store = Ok (second_object, two_engine_store).
Proof. split; vm_compute; reflexivity. Defined.

Lemma two_engine_call :
  Heap.findMaximumMatching 9 star_object two_engine_store
  = Ok (two_engine_snapshot, star_object_after, two_engine_store_after).
Proof. vm_compute. reflexivity. Defined.

Lemma engines_are_independent_witness :
  Heap.load two_engine_store_after second_object
  = Heap.load two_engine_store second_object.
Proof.
  exact (proj1 (engines_are_independent star_graph star_graph empty_store
                  star_object star_store second_object two_engine_store
                  (proj1 two_engines_built) (proj2 two_engines_built))
           9%nat two_engine_snapshot star_object_after two_engine_store_after
           two_engine_call).
Defined.

(** * The arrays of a result *)

(** X17. The arrays returned by any call, also after the caller rewrote the
    rows, have the lengths of the two partitions; every entry is the
    sentinel or an index of the other array, and the two arrays are inverse
    to each other on such entries. *)
Theorem findMaximumMatching_arrays_well_formed this :
  reachable this →
  (∃ fuel M this', findMaximumMatching fuel this = Ok (M, this'))
  ∧ ∀ fuel M this', findMaximumMatching fuel this = Ok (M, this') →
      zlen (matchLeft M) = leftSize (graph this)
      ∧ zlen (matchRight M) = rightSize (graph this)
      ∧ (∀ u v, zget (matchLeft M) u = Some v →
                v = NIL ∨ (0 ≤ v < rightSize (graph this)
                           ∧ zget (matchRight M) v = Some u))
      ∧ (∀ v u, zget (matchRight M) v = Some u →
                u = NIL ∨ (0 ≤ u < leftSize (graph this)
                           ∧ zget (matchLeft M) u = Some v)).
Proof.
  intros Hreach. split; [by apply reachable_returns|].
  intros fuel M this' Hcall. apply reachable_ok in Hreach.
  destruct (findMaximumMatching_spec _ _ _ _ Hreach Hcall)
    as (Hg & [_ [Hl Hr _] [H1 H2]] & _ & _ & El & Er & _).
  rewrite Hg in Hl, Hr. rewrite El, Er.
  split; [done|]. split; [done|]. split.
  - intros u v Hv. destruct (decide (v = NIL)) as [?|Hne]; [by left|right].
    pose proof (H1 u v Hv Hne) as Hu. split; [|done]. apply zget_lt in Hu. lia.
  - intros v u Hu. destruct (decide (u = NIL)) as [?|Hne]; [by left|right].
    pose proof (H2 v u Hu Hne) as Hv. split; [|done]. apply zget_lt in Hv. lia.
Qed.

Lemma findMaximumMatching_arrays_well_formed_witness :
  zlen (matchLeft grown_matching) = 3 ∧ zlen (matchRight grown_matching) = 3.
Proof.
  exact ((λ H, conj (proj1 H) (proj1 (proj2 H)))
    (proj2 (findMaximumMatching_arrays_well_formed
              (mutate sparse_engine_after grown_rows) grown_engine_reachable)
       9%nat grown_matching grown_engine_after sparse_second_call)).
Defined.

(** * Graphs written back as input pairs *)

Lemma pairs_of_rows_snoc rows row :
  pairs_of_rows (rows ++ [row])
  = pairs_of_rows rows ++ ((λ v, (Z.of_nat (length rows), v)) <$> row).
Proof.
  unfold pairs_of_rows. rewrite imap_app, concat_app. simpl.
  by rewrite Nat.add_0_r, app_nil_r.
Qed.

Lemma retained_row_one l r (n : nat) row u :
  0 ≤ Z.of_nat n < l → Forall (λ v, 0 ≤ v < r) row →
  retained_row l r ((λ v, (Z.of_nat n, v)) <$> row) u
  = if decide (u = Z.of_nat n) then row else [].
Proof.
  intros Hn Hrow. unfold retained_row.
  induction Hrow as [|v row Hv _ IH]; [by destruct (decide _)|].
  rewrite fmap_cons, filter_cons. destruct (decide (u = Z.of_nat n)) as [->|Hne].
  - rewrite decide_True by (split; [done|split; simpl; lia]).
    rewrite fmap_cons. simpl. by rewrite IH.
  - rewrite decide_False by (intros [Heq _]; simpl in Heq; congruence). done.
Qed.

Lemma retained_row_pairs_of_rows l r rows (i : nat) :
  Z.of_nat (length rows) ≤ l →
  Forall (Forall (λ v, 0 ≤ v < r)) rows →
  retained_row l r (pairs_of_rows rows) (Z.of_nat i) = default [] (rows !! i).
Proof.
  induction rows as [|row rows IH] using rev_ind; intros Hlen Hrows; [done|].
  rewrite length_app in Hlen. simpl in Hlen.
  apply Forall_app in Hrows as [Hrows [Hrow _]%Forall_cons].
  rewrite pairs_of_rows_snoc, retained_row_app, IH by (done || lia).
  rewrite retained_row_one by (done || lia).
  destruct (decide (i < length rows)%nat) as [Hi|Hi].
  - rewrite lookup_app_l by done. rewrite decide_False by lia. by rewrite app_nil_r.
  - rewrite (lookup_ge_None_2 rows i) by lia. simpl.
    destruct (decide (Z.of_nat i = Z.of_nat (length rows))) as [Heq|Hne].
    + assert (i = length rows) as -> by lia. by rewrite list_lookup_middle.
    + rewrite lookup_ge_None_2; [done|]. rewrite length_app. simpl. lia.
Qed.

Lemma pairs_of_rows_in_range l r rows :
  Z.of_nat (length rows) ≤ l →
  Forall (Forall (λ v, 0 ≤ v < r)) rows →
  Forall (edge_in_range l r) (pairs_of_rows rows).
Proof.
  induction rows as [|row rows IH] using rev_ind; intros Hlen Hrows;
    [by apply Forall_nil|].
  rewrite length_app in Hlen. simpl in Hlen.
  apply Forall_app in Hrows as [Hrows [Hrow _]%Forall_cons].
  rewrite pairs_of_rows_snoc. apply Forall_app. split; [apply IH; [lia|done]|].
  apply Forall_fmap. eapply Forall_impl; [exact Hrow|].
  intros v Hv. unfold compose, edge_in_range. simpl in *. lia.
Qed.

(** X18. Every graph of the data model whose entries are in range is what
    the builder returns on the graph's own pairs, listed row after row:
    writing a graph back as input pairs and building again gives the same
    graph, whatever the options. *)
Theorem createBipartiteGraph_edge_list g o :
  well_formed g →
  Forall (Forall (λ v, 0 ≤ v < rightSize g)) (edges g) →
  createBipartiteGraph (leftSize g) (rightSize g) (edge_list g) o = Ok g.
Proof.
  intros [Hl Hr Hlen] Hrows. apply createBipartiteGraph_Ok.
  split; [destruct (Z.ltb_spec (leftSize g) 0); [lia|by rewrite andb_false_r]|].
  split; [destruct (Z.ltb_spec (rightSize g) 0); [lia|by rewrite andb_false_r]|].
  pose proof (pairs_of_rows_in_range (leftSize g) (rightSize g) (edges g)) as Hrange.
  unfold zlen in Hlen. specialize (Hrange ltac:(lia) Hrows).
  destruct (add_edges_outcome (default true (validateInput o))
              (default true (skipInvalidEdges o)) (leftSize g) (rightSize g)
              (edge_list g) (replicate (Z.to_nat (leftSize g)) []))
    as [(adj & Hadd & _)|(_ & e & He & Hbad & _)].
  2:{ exfalso. apply Hbad. rewrite Forall_forall in Hrange. by apply Hrange. }
  exists adj. split; [done|]. destruct g as [l r rows]. simpl in *. f_equal.
  apply list_eq. intros i.
  rewrite (add_edges_rows _ _ _ _ _ _ _ i Hadd). unfold edge_list. simpl.
  rewrite retained_row_pairs_of_rows by (done || lia).
  destruct (decide (i < length rows)%nat) as [Hi|Hi].
  - rewrite lookup_replicate_2 by lia. simpl.
    destruct (lookup_lt_is_Some_2 rows i Hi) as [row ->]. done.
  - rewrite (lookup_ge_None_2 rows i) by lia.
    rewrite lookup_ge_None_2; [done|]. rewrite length_replicate. lia.
Qed.

Lemma createBipartiteGraph_edge_list_witness :
  edge_list example_graph = [(0, 0); (0, 1); (1, 1); (1, 2); (2, 0); (2, 2)]
  ∧ createBipartiteGraph 3 3 (edge_list example_graph)
      {| validateInput := None; skipInvalidEdges := Some false |}
    = Ok example_graph.
Proof.
  split; [reflexivity|].
  refine (createBipartiteGraph_edge_list example_graph
            {| validateInput := None; skipInvalidEdges := Some false |}
            example_graph_well_formed _).
  repeat (apply Forall_cons; split); try apply Forall_nil; try exact I; simpl; lia.
Defined.


(** * From validated input to the result *)



(** * Results on any engine *)

(** X20. Whatever happened to the engine before (earlier calls, rows
    rewritten by the caller), the arrays a call returns admit no augmenting
    path in the graph as the call found it: no alternating walk leads from
    an unmatched left vertex to an unmatched right vertex. *)
Theorem findMaximumMatching_leaves_no_augmenting_path this :
  reachable this →
  (∃ fuel M this', findMaximumMatching fuel this = Ok (M, this'))
  ∧ ∀ fuel M this', findMaximumMatching fuel this = Ok (M, this') →
      ¬ augmenting_path (graph this) M.
Proof.
  intros Hreach. split; [by apply reachable_returns|].
  intros fuel M this' Hcall. apply reachable_ok in Hreach.
  destruct (findMaximumMatching_spec _ _ _ _ Hreach Hcall)
    as (_ & _ & _ & Hstable & El & Er & _).
  apply (stable_no_augmenting_path (graph this) (state this')); try done.
  by destruct Hreach.
Qed.

Lemma stale_call :
  findMaximumMatching 9 stale_engine = Ok (stale_matching, stale_engine).
Proof. vm_compute. reflexivity. Defined.

Lemma stale_engine_reachable : reachable stale_engine.
Proof.
  exact (reachable_mutate example_engine_after stale_rows
           (reachable_maximum 9 example_engine example_matching example_engine_after
              example_engine_reachable example_first_call) eq_refl).
Defined.

Lemma findMaximumMatching_leaves_no_augmenting_path_witness :
  findMaximumMatching 9 stale_engine = Ok (stale_matching, stale_engine)
  ∧ ¬ augmenting_path (graph stale_engine) stale_matching.
Proof.
  split; [exact stale_call|].
  exact (proj2 (findMaximumMatching_leaves_no_augmenting_path stale_engine
                  stale_engine_reachable)
           9%nat stale_matching stale_engine stale_call).
Defined.

Lemma matched_count_zero l :
  matched_count l = 0 → ∀ i x, zget l i = Some x → x = NIL.
Proof.
  unfold matched_count. intros Hlen i x [_ Hx%list_elem_of_lookup_2]%zget_Some.
  destruct (decide (x = NIL)) as [?|Hne]; [done|].
  assert (x ∈ filter (λ v, v ≠ NIL) l) as Hin by (by apply list_elem_of_filter).
  destruct (filter (λ v, v ≠ NIL) l); [by apply elem_of_nil in Hin|simpl in Hlen; lia].
Qed.

(** X21. A non-null answer of [findPerfectMatching] can be trusted on any
    engine.  Whatever happened before the call, if [findPerfectMatching]
    returns a matching then the engine held no pair when the call started,
    and the matching is a perfect matching of the graph as the call found
    it: every left vertex and every right vertex has a partner along an
    edge. *)
Theorem findPerfectMatching_sound this fuel M this' :
  reachable this → findPerfectMatching fuel this = Ok (Some M, this') →
  matched_count (this_matchLeft (state this)) = 0
  ∧ valid_matching (graph this) M
  ∧ perfect (graph this) (pairs_of M)
  ∧ (∀ u, 0 ≤ u < leftSize (graph this) →
          ∃ v, zget (matchLeft M) u = Some v ∧ v ≠ NIL ∧ edge (graph this) u v)
  ∧ (∀ v, 0 ≤ v < rightSize (graph this) →
          ∃ u, zget (matchRight M) v = Some u ∧ u ≠ NIL ∧ edge (graph this) u v).
Proof.
  intros Hok%reachable_ok. unfold findPerfectMatching.
  intros ([M1 this1] & Hcall & Hres)%obind_Ok.
  destruct (decide _) as [[HL HR]|]; [|done]. injection Hres as -> ->.
  destruct (findMaximumMatching_spec _ _ _ _ Hok Hcall)
    as (Hg' & Hok' & Hgrown & Hstable & El & Er & Hsize & _).
  pose proof Hok' as [_ Hsh' Hcons']. rewrite Hg' in Hsh'.
  destruct (consistent_count _ _ Hsh' Hcons') as [Hcount Hmin].
  pose proof (matched_count_range (this_matchLeft (state this))) as Hrange.
  assert (matched_count (this_matchLeft (state this)) = 0) as Hzero by lia.
  assert (valid_matching (graph this) M) as Hvalid.
  { apply (engine_valid_matching (graph this) this'); try done.
    intros u v Huv Hv. destruct (Hgrown u v Huv Hv) as [Hold|?]; [|done].
    by apply (matched_count_zero _ Hzero) in Hold. }
  destruct (pairs_of_matching _ M Hvalid) as (Hpairs & Hlen & _).
  rewrite <- El in Hsize, Hcount, Hmin. rewrite <- Er in Hcount.
  split; [done|]. split; [done|]. split; [split; [done|lia]|].
  destruct Hvalid as [Hll Hrl Hleft Hright]. split.
  - intros u Hu. destruct (zget_is_Some (matchLeft M) u) as [v Hv]; [lia|].
    assert (v ≠ NIL) as Hne by (eapply (matched_count_full (matchLeft M)); [lia|done]).
    exists v. split; [done|]. split; [done|]. by apply Hleft.
  - intros v Hv. destruct (zget_is_Some (matchRight M) v) as [u Hu]; [lia|].
    assert (u ≠ NIL) as Hne by (eapply (matched_count_full (matchRight M)); [lia|done]).
    exists u. split; [done|]. split; [done|]. apply Hleft; [by apply Hright|].
    apply zget_lt in Hu. unfold NIL. lia.
Qed.

Lemma findPerfectMatching_sound_witness :
  matched_count (this_matchLeft (state example_engine)) = 0
  ∧ perfect example_graph (pairs_of example_matching).
Proof.
  exact ((λ H, conj (proj1 H) (proj1 (proj2 (proj2 H))))
    (findPerfectMatching_sound example_engine 9 example_matching example_engine_after
       example_engine_reachable example_perfect_call)).
Defined.

